(** * The SMPC core of tau: field algebra, verifiable sharing, the
      multiplication task, the program interpreter and the VM dispatcher.

    The development follows the package layout of the repository: one
    module per Go package, with the names of the source.  The first part
    holds the embedding, the second part the lemmas and the theorems
    about it. *)

From Stdlib Require Import ZArith Znumtheory Zcong Zdivisibility Lia List.
From stdpp Require Import gmap list strings.

Open Scope Z_scope.

(** ** Package [algebra]: the prime field F_q *)

Module algebra.

(** Modelled from the spec: package [algebra] (only [fp_test.go] is among
    the sources).  An element of F_q is its canonical integer in [0, q);
    the prime [q] of the field is passed to every operation, since all
    the elements of one computation live in one field.  Every operation
    returns a canonical representative; inversion uses the extended
    Euclidean algorithm and dividing by zero fails. *)
Definition Contains (q x : Z) : bool := bool_decide (0 ≤ x < q).

Definition Add (q a b : Z) : Z := (a + b) mod q.
Definition Sub (q a b : Z) : Z := (a - b) mod q.
Definition Mul (q a b : Z) : Z := (a * b) mod q.
Definition Neg (q a : Z) : Z := (- a) mod q.

Definition Inv (q a : Z) : option Z :=
  if decide (a mod q = 0) then None else Some (Z.invmod a q).

Definition Div (q a b : Z) : option Z :=
  ib ← Inv q b; Some (Mul q a ib).

Definition Sum (q : Z) (l : list Z) : Z := foldr (Add q) 0 l.
Definition Prod (q : Z) (l : list Z) : Z := foldr (Mul q) (1 mod q) l.

(** Modelled from the spec: a polynomial is the list of its coefficients,
    the constant one first; evaluation is Horner's rule in F_q. *)
Definition Evaluate (q : Z) (coeffs : list Z) (x : Z) : Z :=
  foldr (λ a acc, Add q a (Mul q x acc)) 0 coeffs.

(** Modelled from the spec: modular exponentiation by square-and-multiply
    over the bits of the exponent. *)
Fixpoint exp_bits (b : Z) (e : positive) (m : Z) : Z :=
  match e with
  | xH => b mod m
  | xO e' => let r := exp_bits b e' m in (r * r) mod m
  | xI e' => let r := exp_bits b e' m in ((r * r) mod m * b) mod m
  end.

Definition Exp (b e m : Z) : Z :=
  match e with
  | Z0 => 1 mod m
  | Zpos e' => exp_bits b e' m
  | Zneg _ => 0
  end.

(** Modelled from the spec: the polynomial with a given constant term and
    [k - 1] further coefficients drawn from the random source; [draw j] is
    the j-th draw. *)
Definition NewRandomPolynomial (k : nat) (c0 : Z) (draw : nat → Z) : list Z :=
  c0 :: (draw <$> seq 0 (k - 1)).

End algebra.

(** ** Package [shamir]: shares and Lagrange reconstruction *)

Module shamir.

(** A share is a point (index, value); the index is a [uint64]. *)
Record Share := New { Index : N; Value : Z }.

Global Instance Share_eq_dec : EqDecision Share.
Proof. solve_decision. Defined.

(** Modelled from the spec: package [shamir].  Componentwise operations
    keep the index of the receiver. *)
Definition Add (q : Z) (a b : Share) : Share :=
  New (Index a) (algebra.Add q (Value a) (Value b)).
Definition Sub (q : Z) (a b : Share) : Share :=
  New (Index a) (algebra.Sub q (Value a) (Value b)).
Definition Mul (q : Z) (a b : Share) : Share :=
  New (Index a) (algebra.Mul q (Value a) (Value b)).

(** The x-coordinate of a share, as an element of the field. *)
Definition xcoord (q : Z) (s : Share) : Z := Z.of_N (Index s) mod q.

(** Modelled from the spec: [Split] returns (i, f(i)) for i = 1..n. *)
Definition Split (q : Z) (poly : list Z) (n : nat) : list Share :=
  (λ i, New (N.of_nat i) (algebra.Evaluate q poly (Z.of_nat i))) <$> seq 1 n.

(** Modelled from the spec: sharing the secret [s] among n with threshold
    k evaluates a random polynomial of degree k-1 with constant term [s]. *)
Definition SplitSecret (q s : Z) (n k : nat) (draw : nat → Z) : list Share :=
  Split q (algebra.NewRandomPolynomial k s draw) n.

(** The Lagrange coefficient at 0 of the share [s] among [shares], times
    its value: y_s * Π_{t ≠ s} x_t / (x_t - x_s). *)
Definition lagrange_term (q : Z) (shares : list Share) (s : Share) : option Z :=
  factors ← mapM
    (λ t, algebra.Div q (xcoord q t) (algebra.Sub q (xcoord q t) (xcoord q s)))
    (filter (λ t, Index t ≠ Index s) shares);
  Some (algebra.Mul q (Value s) (algebra.Prod q factors)).

(** Modelled from the spec: [Join] interpolates the shares at x = 0; it
    fails on duplicate indices and on no share at all, and so does a
    division by zero inside it. [None] is the error result. *)
Definition Join (q : Z) (shares : list Share) : option Z :=
  if decide (shares = []) then None
  else if decide (NoDup (Index <$> shares)) then
    terms ← mapM (lagrange_term q shares) shares;
    Some (algebra.Sum q terms)
  else None.

End shamir.

(** ** Package [pedersen]: commitments g^s * h^t mod p *)

Module pedersen.

Record Pedersen := { p : Z; q : Z; g : Z; h : Z }.

Inductive error :=
| ErrNilArguments
| ErrInvalidParameters
| ErrUnacceptableCommitment.

Global Instance error_eq_dec : EqDecision error.
Proof. solve_decision. Defined.

(** Modelled from the spec: package [pedersen] (only its tests are among
    the sources).  A nil [*big.Int] is [None].  [New] validates
    q | (p - 1), g^q = 1 and h^q = 1 modulo p, g ≠ 1 and h ≠ 1. *)
Definition New (p q g h : option Z) : Pedersen + error :=
  match p, q, g, h with
  | Some p, Some q, Some g, Some h =>
      if bool_decide ((p - 1) mod q = 0 ∧ algebra.Exp g q p = 1 ∧
                      algebra.Exp h q p = 1 ∧ g ≠ 1 ∧ h ≠ 1)
      then inl {| p := p; q := q; g := g; h := h |}
      else inr ErrInvalidParameters
  | _, _, _, _ => inr ErrNilArguments
  end.

Definition SubgroupOrder (ped : Pedersen) : Z := q ped.

(** g^s * h^t mod p, on arguments that are present. *)
Definition commit (ped : Pedersen) (s t : Z) : Z :=
  (algebra.Exp (g ped) s (p ped) * algebra.Exp (h ped) t (p ped)) mod p ped.

(** Modelled from the spec: [Commit] returns nil when an argument is nil. *)
Definition Commit (ped : Pedersen) (s t : option Z) : option Z :=
  match s, t with
  | Some s, Some t => Some (commit ped s t)
  | _, _ => None
  end.

(** Modelled from the spec: [Verify] returns the nil error (here [None])
    iff the commitment is [Commit(s, t)]. *)
Definition Verify (ped : Pedersen) (s t commitment : option Z) : option error :=
  match s, t, commitment with
  | Some s, Some t, Some c =>
      if decide (c = commit ped s t) then None
      else Some ErrUnacceptableCommitment
  | _, _, _ => Some ErrNilArguments
  end.

End pedersen.

(** ** Package [vss]: verifiable shares *)

Module vss.

(** A verifiable share: the share of the secret, the share of the
    blinding polynomial and the commitments to the coefficients. *)
Record VShare := {
  share : shamir.Share;
  t : shamir.Share;
  commitments : list Z;
}.

(** Modelled from the spec: package [vss] (only [vss_test.go] is among
    the sources).  [r] is the sampled blinding value, [drawS] and [drawT]
    give the random coefficients of the two polynomials. *)
Definition Share (ped : pedersen.Pedersen) (secret : Z) (n k : nat)
    (r : Z) (drawS drawT : nat → Z) : list VShare :=
  let poly := algebra.NewRandomPolynomial k secret drawS in
  let polyT := algebra.NewRandomPolynomial k r drawT in
  let cs := zip_with (pedersen.commit ped) poly polyT in
  zip_with (λ s t, {| share := s; t := t; commitments := cs |})
    (shamir.Split (pedersen.q ped) poly n)
    (shamir.Split (pedersen.q ped) polyT n).

(** Π_j C_j^(i^j) mod p *)
Definition evaluate (ped : pedersen.Pedersen) (cs : list Z) (i : Z) : Z :=
  algebra.Prod (pedersen.p ped)
    (imap (λ j c, algebra.Exp c (i ^ Z.of_nat j) (pedersen.p ped)) cs).

(** Modelled from the spec: [Verify] compares g^y * h^t with the product
    of the commitments raised to the powers of the index; it panics
    ([None]) when there is no commitment. *)
Definition Verify (ped : pedersen.Pedersen) (vs : VShare) : option bool :=
  match commitments vs with
  | [] => None
  | cs =>
      Some (bool_decide
        (pedersen.commit ped (shamir.Value (share vs)) (shamir.Value (t vs)) =
         evaluate ped cs (Z.of_N (shamir.Index (share vs)))))
  end.

(** Modelled from the spec: addition adds both inner shares and multiplies
    the commitment vectors pointwise. *)
Definition Add (ped : pedersen.Pedersen) (a b : VShare) : VShare :=
  {| share := shamir.Add (pedersen.q ped) (share a) (share b);
     t := shamir.Add (pedersen.q ped) (t a) (t b);
     commitments :=
       zip_with (algebra.Mul (pedersen.p ped)) (commitments a) (commitments b) |}.

End vss.

(** ** Package [task]: messages between tasks *)

Module task.

(** A [MessageID] is an array of 40 bytes; a byte is an [N]. *)
Abbreviation MessageID := (list N).

End task.

(** ** Package [mul]: the multiplication task (mul.go) *)

Module mul.
Import task.

(** The [Mul] signal: the shares to multiply and the random tuple. *)
Record Mul := NewMul {
  Mul_MessageID : MessageID;
  xs : list shamir.Share;
  ys : list shamir.Share;
  ρs : list shamir.Share;
  σs : list shamir.Share;
}.

(** An opening of intermediate multiplication shares by the player [From]. *)
Record OpenMul := NewOpenMul {
  OpenMul_MessageID : MessageID;
  From : N;
  Shares : list shamir.Share;
}.

Record Result := NewResult {
  Result_MessageID : MessageID;
  Result_Shares : list shamir.Share;
}.

Global Instance Result_eq_dec : EqDecision Result.
Proof. solve_decision. Defined.

(** [task.Message], as far as the multiplier meets it: its two inputs, its
    result, a batch of messages and the nil message. *)
#[warnings="-register-all"]
Inductive Message :=
| MNil
| MMul (message : Mul)
| MOpenMul (message : OpenMul)
| MResult (result : Result)
| MessageBatch (messages : list Message).

Record multiplier := {
  index : N;
  n : N;
  k : N;
  muls : gmap MessageID Mul;
  opens : gmap MessageID (gmap N OpenMul);
  results : gmap MessageID Result;
}.

Definition newMultiplier (index n k : N) (cap : Z) : multiplier :=
  {| index := index; n := n; k := k; muls := ∅; opens := ∅; results := ∅ |}.

Section with_field.

(** The prime of the field the shares live in. *)
Variable q : Z.

(** The runtime: [make([]shamir.Share, len)] returns a slice when
    [len ≤ alloc] and panics when [len] is larger (the length is out of
    range, or the memory is not there). *)
Variable alloc : N.

(** The body of the second [co.ForAll] of [tryOpenMul] for the batch
    position [b]: a cache of [n] shares is made, the shares of the stored
    openings at [b] are copied into it, joined, and the σ share is
    subtracted.  [openings] lists the stored openings in the order of the
    iteration over the map.  [None] is a panic: the cache cannot be made,
    it overflows, an index is out of range or [shamir.Join] returns an
    error. *)
Definition openShare (nn : N) (openings : list OpenMul) (σs : list shamir.Share)
    (b : nat) : option shamir.Share :=
  (* sharesCache := make([]shamir.Share, multiplier.n) *)
  if decide (nn ≤ alloc)%N then
    (* sharesCache[n] = opening.Shares[b]; n++ *)
    if decide (N.of_nat (length openings) ≤ nn)%N then
      sharesCache ← mapM (λ opening, Shares opening !! b) openings;
      value ← shamir.Join q sharesCache;
      σ ← σs !! b;
      Some (shamir.Sub q (shamir.New (shamir.Index σ) value) σ)
    else None
  else None.

(** [tryOpenMul]: [None] is a panic, otherwise the new state and the
    message returned.  The slice of the result is made with the length of
    the shares of the message, a slice of shares that exists; so is the
    slice of the openings in [mul].  The cache of [n] shares is the one
    slice whose length is not that of a slice at hand. *)
Definition tryOpenMul (m : multiplier) (message : OpenMul)
    : option (multiplier * Message) :=
  let id := OpenMul_MessageID message in
  let stored := <[From message := message]> (default ∅ (opens m !! id)) in
  let m1 := {| index := index m; n := n m; k := k m; muls := muls m;
               opens := <[id := stored]> (opens m); results := results m |} in
  (* Do not continue if there is an insufficient number of shares *)
  if decide (N.of_nat (size stored) < k m)%N then Some (m1, MNil)
  else
  (* Do not continue if we have not received a signal to open *)
  match muls m1 !! id with
  | None => Some (m1, MNil)
  | Some signal =>
  (* Do not continue if we have already completed the multiplication *)
  match results m1 !! id with
  | Some _ => Some (m1, MNil)
  | None =>
      let batch := length (Shares message) in
      shares ← mapM (openShare (n m) (map_to_list stored).*2 (σs signal))
                    (seq 0 batch);
      let result := NewResult id shares in
      Some ({| index := index m; n := n m; k := k m;
               muls := delete id (muls m1);
               opens := delete id (opens m1);
               results := <[id := result]> (results m1) |},
            MResult result)
  end
  end.

(** The first [co.ForAll] of [mul]: x * y + ρ at every batch position. *)
Definition mulShares (message : Mul) : option (list shamir.Share) :=
  mapM (λ b,
          x ← xs message !! b;
          y ← ys message !! b;
          ρ ← ρs message !! b;
          Some (shamir.Add q (shamir.Mul q x y) ρ))
       (seq 0 (length (xs message))).

Definition mul (m : multiplier) (message : Mul) : option (multiplier * Message) :=
  let id := Mul_MessageID message in
  match results m !! id with
  | Some result => Some (m, MResult result)
  | None =>
      let m1 := {| index := index m; n := n m; k := k m;
                   muls := <[id := message]> (muls m);
                   opens := opens m; results := results m |} in
      shares ← mulShares message;
      let mul := NewOpenMul id (index m) shares in
      '(m2, out) ← tryOpenMul m1 mul;
      Some (m2, MessageBatch [out; MOpenMul mul])
  end.

Definition Reduce (m : multiplier) (message : Message)
    : option (multiplier * Message) :=
  match message with
  | MMul message => mul m message
  | MOpenMul message => tryOpenMul m message
  | _ => None
  end.

(** Running the task on a sequence of messages, collecting what it
    returns. *)
Fixpoint run (m : multiplier) (messages : list Message)
    : option (multiplier * list Message) :=
  match messages with
  | [] => Some (m, [])
  | message :: rest =>
      '(m1, out) ← Reduce m message;
      '(m2, outs) ← run m1 rest;
      Some (m2, out :: outs)
  end.

End with_field.

(** The [Result] messages inside a returned message. *)
Fixpoint resultsOf (message : Message) : list Result :=
  match message with
  | MResult result => [result]
  | MessageBatch messages => flat_map resultsOf messages
  | _ => []
  end.

(** The [Result] messages for [id] among the returned messages. *)
Definition emitted (id : MessageID) (outs : list Message) : list Result :=
  filter (λ r, Result_MessageID r = id) (flat_map resultsOf outs).

End mul.

(** ** Package [program]: the stack machine (src/unnamed/part_001) *)

Module program.

Inductive Value :=
| ValuePublic (Int : option Z)
| ValuePrivate (Share : shamir.Share)
| ValuePrivateRn (Rho Sigma : shamir.Share).

(** *** Channels

    A channel made with capacity 1 is a slot that is empty or holds one
    value.  The channels live in a store shared by the program and by
    whoever holds the intent; a channel value is the address of its slot,
    and a nil channel is [None]. *)
Record Chans := {
  shareChans : gmap nat (option shamir.Share);
  intChans : gmap nat (option (option Z));
}.

(** [make(chan shamir.Share, 1)] *)
Definition makeShareChan (h : Chans) : nat * Chans :=
  let c := fresh (dom (shareChans h)) in
  (c, {| shareChans := <[c := None]> (shareChans h); intChans := intChans h |}).

(** [make(chan *big.Int, 1)] *)
Definition makeIntChan (h : Chans) : nat * Chans :=
  let c := fresh (dom (intChans h)) in
  (c, {| shareChans := shareChans h; intChans := <[c := None]> (intChans h) |}).

(** The receive of a [select] with a [default] case: [None] is the
    default case, taken when the slot is empty. *)
Definition recvShare (h : Chans) (c : nat) : option (shamir.Share * Chans) :=
  match shareChans h !! c with
  | Some (Some v) =>
      Some (v, {| shareChans := <[c := None]> (shareChans h);
                  intChans := intChans h |})
  | _ => None
  end.

Definition recvInt (h : Chans) (c : nat) : option (option Z * Chans) :=
  match intChans h !! c with
  | Some (Some v) =>
      Some (v, {| shareChans := shareChans h;
                  intChans := <[c := None]> (intChans h) |})
  | _ => None
  end.

(** *** Instructions *)

Record InstRand := {
  RhoCh : option nat;
  SigmaCh : option nat;
  RhoReady : bool;
  SigmaReady : bool;
  Rho : shamir.Share;
  Sigma : shamir.Share;
}.

Record InstMul := {
  InstMul_RetCh : option nat;
  InstMul_RetReady : bool;
  InstMul_Ret : shamir.Share;
}.

Record InstOpen := {
  InstOpen_RetCh : option nat;
  InstOpen_RetReady : bool;
  InstOpen_Ret : option Z;
}.

(** [IOther] stands for any other implementation of the interface [Inst]. *)
Inductive Inst :=
| InstPush (v : Value)
| InstAdd
| IRand (inst : InstRand)
| IMul (inst : InstMul)
| IOpen (inst : InstOpen)
| IOther.

(** *** Intents and returns *)

(** An [error] is what [fmt.Errorf] was given. *)
Inductive error :=
| StackError (msg : string)
| CodeOverflow
| UnexpectedInst (inst : Inst)
| UnexpectedValue (got expected : Value).

Inductive Intent :=
| IntentToGenRn (Rho Sigma : nat)
| IntentToMultiply (X Y Rho Sigma : shamir.Share) (Ret : nat)
| IntentToOpen (v : shamir.Share) (Ret : nat)
| IntentToError (err : error) (pc : nat).

Definition GenRn (ρ σ : nat) : Intent := IntentToGenRn ρ σ.
Definition Multiply (x y ρ σ : shamir.Share) (ret : nat) : Intent :=
  IntentToMultiply x y ρ σ ret.
Definition Open (v : shamir.Share) (ret : nat) : Intent := IntentToOpen v ret.

(** "execution error at instruction pc = err" *)
Definition ErrorExecution (err : error) (pc : nat) : Intent := IntentToError err pc.
Definition ErrorUnexpectedInst (inst : Inst) (pc : nat) : Intent :=
  ErrorExecution (UnexpectedInst inst) pc.
Definition ErrorCodeOverflow (pc : nat) : Intent := ErrorExecution CodeOverflow pc.
Definition ErrorUnexpectedValue (got expected : Value) (pc : nat) : Intent :=
  ErrorExecution (UnexpectedValue got expected) pc.

(** A nil intent is [None]. *)
Record Return := { intent : option Intent; ready : bool }.

Definition Ready : Return := {| intent := None; ready := true |}.
Definition NotReady (intent : option Intent) : Return :=
  {| intent := intent; ready := false |}.

(** *** What the file takes from the rest of its package

    The type [Stack] with [Push] and [Pop], and the methods [Add] of
    [ValuePublic] and of [ValuePrivate], are declared in files that are
    not among the sources.  They are parameters of the interpreter.
    [Push] and [Pop] have pointer receivers: they return the stack they
    leave behind, with the error ([None] is nil) or the value popped.
    [Add] may panic, which is [None]. *)
Class Externals := {
  StackT : Type;
  Push : StackT → Value → StackT * option string;
  Pop : StackT → StackT * (string + Value);
  ValuePublic_Add : option Z → Value → option Value;
  ValuePrivate_Add : shamir.Share → Value → option Value;
}.

Section interpreter.
Context `{Externals}.

Record Program := {
  ID : list N;
  Stack : StackT;
  Memory : gmap N Value;
  Code : list Inst;
  PC : nat;
}.

Definition New (id : list N) (stack : StackT) (mem : gmap N Value)
    (code : list Inst) : Program :=
  {| ID := id; Stack := stack; Memory := mem; Code := code; PC := 0 |}.

(** The assignments the interpreter makes to the program. *)
Definition setStack (prog : Program) (stack : StackT) : Program :=
  {| ID := ID prog; Stack := stack; Memory := Memory prog;
     Code := Code prog; PC := PC prog |}.

(** [prog.Code[prog.PC] = inst] *)
Definition setInst (prog : Program) (inst : Inst) : Program :=
  {| ID := ID prog; Stack := Stack prog; Memory := Memory prog;
     Code := <[PC prog := inst]> (Code prog); PC := PC prog |}.

(** [prog.PC++] *)
Definition incPC (prog : Program) : Program :=
  {| ID := ID prog; Stack := Stack prog; Memory := Memory prog;
     Code := Code prog; PC := S (PC prog) |}.

(** The result of running an instruction: the channel store, the program
    and the [Return]; [None] is a panic. *)
Definition Outcome : Type := option (Chans * Program * Return).

Definition execInstPush (h : Chans) (prog : Program) (v : Value) : Outcome :=
  let '(stack, err) := Push (Stack prog) v in
  let prog := setStack prog stack in
  match err with
  | Some err => Some (h, prog, NotReady (Some (ErrorExecution (StackError err) (PC prog))))
  | None => Some (h, incPC prog, Ready)
  end.

Definition execInstAdd (h : Chans) (prog : Program) : Outcome :=
  let '(stack, r) := Pop (Stack prog) in
  let prog := setStack prog stack in
  match r with
  | inl err => Some (h, prog, NotReady (Some (ErrorExecution (StackError err) (PC prog))))
  | inr rhs =>
  let '(stack, r) := Pop (Stack prog) in
  let prog := setStack prog stack in
  match r with
  | inl err => Some (h, prog, NotReady (Some (ErrorExecution (StackError err) (PC prog))))
  | inr lhs =>
      ret ← match lhs with
            | ValuePublic i => ValuePublic_Add i rhs
            | ValuePrivate share => ValuePrivate_Add share rhs
            | _ => None (* panic("unimplemented") *)
            end;
      let '(stack, err) := Push (Stack prog) ret in
      let prog := setStack prog stack in
      match err with
      | Some err =>
          Some (h, prog, NotReady (Some (ErrorExecution (StackError err) (PC prog))))
      | None => Some (h, incPC prog, Ready)
      end
  end
  end.

Definition execInstRand (h : Chans) (prog : Program) (inst : InstRand) : Outcome :=
  match RhoCh inst, SigmaCh inst with
  | Some ρCh, Some σCh =>
      (* if !inst.RhoReady { select { case ρ := <-inst.RhoCh: ... default: ... } } *)
      let afterRho :=
        if RhoReady inst then Some (h, prog, inst)
        else match recvShare h ρCh with
             | Some (ρ, h) =>
                 let inst := {| RhoCh := RhoCh inst; SigmaCh := SigmaCh inst;
                                RhoReady := true; SigmaReady := SigmaReady inst;
                                Rho := ρ; Sigma := Sigma inst |} in
                 Some (h, setInst prog (IRand inst), inst)
             | None => None
             end in
      match afterRho with
      | None => Some (h, prog, NotReady None)
      | Some (h, prog, inst) =>
      let afterSigma :=
        if SigmaReady inst then Some (h, prog, inst)
        else match recvShare h σCh with
             | Some (σ, h) =>
                 let inst := {| RhoCh := RhoCh inst; SigmaCh := SigmaCh inst;
                                RhoReady := RhoReady inst; SigmaReady := true;
                                Rho := Rho inst; Sigma := σ |} in
                 Some (h, setInst prog (IRand inst), inst)
             | None => None
             end in
      match afterSigma with
      | None => Some (h, prog, NotReady None)
      | Some (h, prog, inst) =>
          (* the error of Push is dropped *)
          let '(stack, _) := Push (Stack prog) (ValuePrivateRn (Rho inst) (Sigma inst)) in
          Some (h, incPC (setStack prog stack), Ready)
      end
      end
  | _, _ =>
      let '(ρCh, h) := makeShareChan h in
      let '(σCh, h) := makeShareChan h in
      let inst := {| RhoCh := Some ρCh; SigmaCh := Some σCh;
                     RhoReady := RhoReady inst; SigmaReady := SigmaReady inst;
                     Rho := Rho inst; Sigma := Sigma inst |} in
      Some (h, setInst prog (IRand inst), NotReady (Some (GenRn ρCh σCh)))
  end.

Definition execInstMul (h : Chans) (prog : Program) (inst : InstMul) : Outcome :=
  match InstMul_RetCh inst with
  | None =>
      let '(stack, r) := Pop (Stack prog) in
      let prog := setStack prog stack in
      match r with
      | inl err => Some (h, prog, NotReady (Some (ErrorExecution (StackError err) (PC prog))))
      | inr rnValue =>
      match rnValue with
      | ValuePrivateRn rnRho rnSigma =>
          let '(stack, r) := Pop (Stack prog) in
          let prog := setStack prog stack in
          match r with
          | inl err =>
              Some (h, prog, NotReady (Some (ErrorExecution (StackError err) (PC prog))))
          | inr yValue =>
          match yValue with
          | ValuePrivate y =>
              let '(stack, r) := Pop (Stack prog) in
              let prog := setStack prog stack in
              match r with
              | inl err =>
                  Some (h, prog, NotReady (Some (ErrorExecution (StackError err) (PC prog))))
              | inr xValue =>
              match xValue with
              | ValuePrivate x =>
                  let '(retCh, h) := makeShareChan h in
                  let inst := {| InstMul_RetCh := Some retCh;
                                 InstMul_RetReady := InstMul_RetReady inst;
                                 InstMul_Ret := InstMul_Ret inst |} in
                  Some (h, setInst prog (IMul inst),
                        NotReady (Some (Multiply x y rnRho rnSigma retCh)))
              | _ =>
                  Some (h, prog, NotReady (Some (ErrorUnexpectedValue xValue
                          (ValuePrivate (shamir.New 0 0)) (PC prog))))
              end
              end
          | _ =>
              Some (h, prog, NotReady (Some (ErrorUnexpectedValue yValue
                      (ValuePrivate (shamir.New 0 0)) (PC prog))))
          end
          end
      | _ =>
          Some (h, prog, NotReady (Some (ErrorUnexpectedValue rnValue
                  (ValuePrivateRn (shamir.New 0 0) (shamir.New 0 0)) (PC prog))))
      end
      end
  | Some retCh =>
      let afterRet :=
        if InstMul_RetReady inst then Some (h, prog, inst)
        else match recvShare h retCh with
             | Some (ret, h) =>
                 let inst := {| InstMul_RetCh := InstMul_RetCh inst;
                                InstMul_RetReady := true;
                                InstMul_Ret := ret |} in
                 Some (h, setInst prog (IMul inst), inst)
             | None => None
             end in
      match afterRet with
      | None => Some (h, prog, NotReady None)
      | Some (h, prog, inst) =>
          (* the error of Push is dropped *)
          let '(stack, _) := Push (Stack prog) (ValuePrivate (InstMul_Ret inst)) in
          Some (h, incPC (setStack prog stack), Ready)
      end
  end.

Definition execInstOpen (h : Chans) (prog : Program) (inst : InstOpen) : Outcome :=
  match InstOpen_RetCh inst with
  | None =>
      let '(stack, r) := Pop (Stack prog) in
      let prog := setStack prog stack in
      match r with
      | inl err => Some (h, prog, NotReady (Some (ErrorExecution (StackError err) (PC prog))))
      | inr value =>
      match value with
      | ValuePrivate v =>
          let '(retCh, h) := makeIntChan h in
          let inst := {| InstOpen_RetCh := Some retCh;
                         InstOpen_RetReady := InstOpen_RetReady inst;
                         InstOpen_Ret := InstOpen_Ret inst |} in
          Some (h, setInst prog (IOpen inst), NotReady (Some (Open v retCh)))
      | _ =>
          Some (h, prog, NotReady (Some (ErrorUnexpectedValue value
                  (ValuePrivate (shamir.New 0 0)) (PC prog))))
      end
      end
  | Some retCh =>
      let afterRet :=
        if InstOpen_RetReady inst then Some (h, prog, inst)
        else match recvInt h retCh with
             | Some (ret, h) =>
                 let inst := {| InstOpen_RetCh := InstOpen_RetCh inst;
                                InstOpen_RetReady := true;
                                InstOpen_Ret := ret |} in
                 Some (h, setInst prog (IOpen inst), inst)
             | None => None
             end in
      match afterRet with
      | None => Some (h, prog, NotReady None)
      | Some (h, prog, inst) =>
          (* the error of Push is dropped *)
          let '(stack, _) := Push (Stack prog) (ValuePublic (InstOpen_Ret inst)) in
          Some (h, incPC (setStack prog stack), Ready)
      end
  end.

Definition Exec (h : Chans) (prog : Program) : Outcome :=
  if decide (length (Code prog) ≤ PC prog)%nat then
    Some (h, prog, NotReady (Some (ErrorCodeOverflow (PC prog))))
  else
    match Code prog !! PC prog with
    | Some (InstPush v) => execInstPush h prog v
    | Some InstAdd => execInstAdd h prog
    | Some (IRand inst) => execInstRand h prog inst
    | Some (IMul inst) => execInstMul h prog inst
    | Some (IOpen inst) => execInstOpen h prog inst
    | Some IOther => Some (h, prog, NotReady (Some (ErrorUnexpectedInst IOther (PC prog))))
    | None => None
    end.

End interpreter.

(** Modelled from the spec: a stack is a LIFO of values; here it has a
    limit, [Push] fails on a full stack and [Pop] on an empty one.  The
    sum of two values follows section 4.9 of the spec; a [PrivateRn]
    operand is not a summand.  This instance serves to run the
    interpreter on concrete programs. *)
Record ListStack := { values : list Value; limit : nat }.

Definition ListStack_Push (s : ListStack) (v : Value) : ListStack * option string :=
  if decide (length (values s) < limit s)%nat
  then ({| values := v :: values s; limit := limit s |}, None)
  else (s, Some "stack overflow"%string).

Definition ListStack_Pop (s : ListStack) : ListStack * (string + Value) :=
  match values s with
  | v :: vs => ({| values := vs; limit := limit s |}, inr v)
  | [] => (s, inl "stack underflow"%string)
  end.

Definition listExternals (q : Z) : Externals :=
  {| StackT := ListStack;
     Push := ListStack_Push;
     Pop := ListStack_Pop;
     ValuePublic_Add := λ i rhs,
       match rhs with
       | ValuePublic j => Some (ValuePublic (a ← i; b ← j; Some (a + b)))
       | ValuePrivate share =>
           Some (ValuePrivate (shamir.New (shamir.Index share)
                   (algebra.Add q (default 0 i) (shamir.Value share))))
       | ValuePrivateRn _ _ => None
       end;
     ValuePrivate_Add := λ share rhs,
       match rhs with
       | ValuePublic j =>
           Some (ValuePrivate (shamir.New (shamir.Index share)
                   (algebra.Add q (shamir.Value share) (default 0 j))))
       | ValuePrivate other => Some (ValuePrivate (shamir.Add q share other))
       | ValuePrivateRn _ _ => None
       end |}.

End program.

(** ** Package [vm]: the dispatcher (src/unnamed/part_000, second file) *)

Module vm.
Import task.

(** *** Channels of the intents

    The sinks of an intent are channels of capacity 1, shared with the
    process that made them: a slot that is empty or full, addressed by a
    number. *)
Record Chans := {
  sharesChans : gmap nat (option (list shamir.Share));
  valueChans : gmap nat (option Z);
}.

(** The send of a [select] with a [default] case: [None] is the default
    case, taken when the slot is full (or the channel is not there). *)
Definition sendShares (h : Chans) (c : nat) (v : list shamir.Share) : option Chans :=
  match sharesChans h !! c with
  | Some None => Some {| sharesChans := <[c := Some v]> (sharesChans h);
                         valueChans := valueChans h |}
  | _ => None
  end.

Definition sendValue (h : Chans) (c : nat) (v : Z) : option Chans :=
  match valueChans h !! c with
  | Some None => Some {| sharesChans := sharesChans h;
                         valueChans := <[c := Some v]> (valueChans h) |}
  | _ => None
  end.

(** *** What the dispatcher takes from package [process]

    Package [process] is not among the sources.  Its intents are known
    from their use in the dispatcher; a process is a parameter, with its
    id, its [Exec] and its zero value (what a map returns for a missing
    key). *)
Inductive Intent :=
| IntentToError (err : string)
| IntentToExit (Values : list Z)
| IntentToGenerateRn (iid : list N) (Batch : nat) (Sigmas : nat)
| IntentToGenerateRnZero (iid : list N) (Batch : nat) (Sigmas : nat)
| IntentToGenerateRnTuple (iid : list N) (Batch : nat) (Rhos Sigmas : nat)
| IntentToMultiply (iid : list N) (Xs Ys Rhos Sigmas : list shamir.Share) (Ret : nat)
| IntentToOpen (iid : list N) (Value : shamir.Share) (Ret : nat)
| IntentOther.

Record Return := { Return_Intent : option Intent; IsReady : bool }.

Record rng_Result := {
  rng_Result_MessageID : MessageID;
  Rhos : list shamir.Share;
  Sigmas : list shamir.Share;
}.

Record open_Result := {
  open_Result_MessageID : MessageID;
  open_Result_Value : Z;
}.

Inductive error :=
| ErrReadyAfterExecution (pid : list N)
| ErrNoIntentAfterExecution (pid : list N)
| ErrUnavailableIntent
| ErrUnexpectedIntentType (intent : Intent)
| ErrIntent (err : string).

(** [copy(id[:40], iid[:40])] into a zeroed array *)
Definition iidToMsgid (iid : list N) : MessageID := resize 40 0%N iid.
Definition msgidToIID (msgid : MessageID) : list N := resize 40 0%N msgid.
Definition msgidToPid (msgid : MessageID) : list N := resize 32 0%N msgid.

Section dispatcher.

Variable Process : Type.
Variable Process_ID : Process → list N.
Variable Process_Exec : Chans → Process → Chans * Process * Return.
Variable zeroProcess : Process.
(** The payloads of the rng and open messages between peers. *)
Variables RnShares ProposeRnShare OpenPayload : Type.

(** [task.Message], as far as the dispatcher meets it: what it receives,
    what it returns and what it sends to its children. *)
Inductive Message :=
| MNil
| Exec (proc : Process)
| RemoteProcedureCall (message : Message)
| rng_RnShares (message : RnShares)
| rng_ProposeRnShare (message : ProposeRnShare)
| rng_Result_ (message : rng_Result)
| mul_OpenMul (message : mul.OpenMul)
| mul_Result (message : mul.Result)
| open_Open (message : OpenPayload)
| open_Result_ (message : open_Result)
| task_Error (err : error)
| Result (Values : list Z)
| rng_GenerateRn (id : MessageID) (batch : nat)
| rng_GenerateRnZero (id : MessageID) (batch : nat)
| rng_GenerateRnTuple (id : MessageID) (batch : nat)
| mul_Mul (message : mul.Mul)
| open_Signal (id : MessageID) (value : shamir.Share)
| MOther.

(** The children are given by the messages sent to them so far. *)
Record VM := {
  index : N;
  procs : gmap (list N) Process;
  intents : gmap (list N) Intent;
  rng : list Message;
  mul : list Message;
  open : list Message;
}.

Definition newVM (index : N) (rng mul open : list Message) : VM :=
  {| index := index; rng := rng; mul := mul; open := open;
     procs := ∅; intents := ∅ |}.

(** The assignments the dispatcher makes to its state. *)
Definition setProc (vm : VM) (pid : list N) (proc : Process) : VM :=
  {| index := index vm; procs := <[pid := proc]> (procs vm);
     intents := intents vm; rng := rng vm; mul := mul vm; open := open vm |}.

Definition setIntents (vm : VM) (intents : gmap (list N) Intent) : VM :=
  {| index := index vm; procs := procs vm; intents := intents;
     rng := rng vm; mul := mul vm; open := open vm |}.

(** [vm.rng.Send], [vm.mul.Send] and [vm.open.Send] *)
Definition sendRng (vm : VM) (message : Message) : VM :=
  {| index := index vm; procs := procs vm; intents := intents vm;
     rng := rng vm ++ [message]; mul := mul vm; open := open vm |}.
Definition sendMul (vm : VM) (message : Message) : VM :=
  {| index := index vm; procs := procs vm; intents := intents vm;
     rng := rng vm; mul := mul vm ++ [message]; open := open vm |}.
Definition sendOpen (vm : VM) (message : Message) : VM :=
  {| index := index vm; procs := procs vm; intents := intents vm;
     rng := rng vm; mul := mul vm; open := open vm ++ [message] |}.

(** The result of a reduction: the channels, the dispatcher and the
    message returned ([MNil] is nil); [None] is a panic. *)
Definition Outcome : Type := option (Chans * VM * Message).

Definition execIntent (h : Chans) (vm : VM) (proc : Process) (intent : Intent)
    : Outcome :=
  match intent with
  | IntentToError err => Some (h, vm, task_Error (ErrIntent err))
  | IntentToExit values => Some (h, vm, Result values)
  | IntentToGenerateRn iid batch _ =>
      Some (h, sendRng (setIntents vm (<[iid := intent]> (intents vm)))
                 (rng_GenerateRn (iidToMsgid iid) batch), MNil)
  | IntentToGenerateRnZero iid batch _ =>
      Some (h, sendRng (setIntents vm (<[iid := intent]> (intents vm)))
                 (rng_GenerateRnZero (iidToMsgid iid) batch), MNil)
  | IntentToGenerateRnTuple iid batch _ _ =>
      Some (h, sendRng (setIntents vm (<[iid := intent]> (intents vm)))
                 (rng_GenerateRnTuple (iidToMsgid iid) batch), MNil)
  | IntentToMultiply iid xs ys ρs σs _ =>
      Some (h, sendMul (setIntents vm (<[iid := intent]> (intents vm)))
                 (mul_Mul (mul.NewMul (iidToMsgid iid) xs ys ρs σs)), MNil)
  | IntentToOpen iid value _ =>
      Some (h, sendOpen (setIntents vm (<[iid := intent]> (intents vm)))
                 (open_Signal (iidToMsgid iid) value), MNil)
  | IntentOther => None
  end.

Definition exec (h : Chans) (vm : VM) (proc : Process) : Outcome :=
  let vm := setProc vm (Process_ID proc) proc in
  let '(h, proc, ret) := Process_Exec h proc in
  let vm := setProc vm (Process_ID proc) proc in
  if IsReady ret then
    Some (h, vm, task_Error (ErrReadyAfterExecution (Process_ID proc)))
  else
    match Return_Intent ret with
    | None => Some (h, vm, task_Error (ErrNoIntentAfterExecution (Process_ID proc)))
    | Some intent => execIntent h vm proc intent
    end.

Definition invoke (h : Chans) (vm : VM) (message : Message) : Outcome :=
  match message with
  | rng_RnShares _ | rng_ProposeRnShare _ => Some (h, sendRng vm message, MNil)
  | mul_OpenMul _ => Some (h, sendMul vm message, MNil)
  | open_Open _ => Some (h, sendOpen vm message, MNil)
  | _ => None
  end.

(** The end of the three handlers of a result: the intent is dropped and
    the process of the message is executed again. *)
Definition resume (h : Chans) (vm : VM) (id : MessageID) : Outcome :=
  let vm := setIntents vm (delete (msgidToIID id) (intents vm)) in
  exec h vm (default zeroProcess (procs vm !! msgidToPid id)).

Definition recvInternalRngResult (h : Chans) (vm : VM) (message : rng_Result)
    : Outcome :=
  match intents vm !! msgidToIID (rng_Result_MessageID message) with
  | None => Some (h, vm, MNil)
  | Some intent =>
      match intent with
      | IntentToGenerateRn _ _ sigmas
      | IntentToGenerateRnZero _ _ sigmas =>
          match sendShares h sigmas (Sigmas message) with
          | Some h => resume h vm (rng_Result_MessageID message)
          | None => Some (h, vm, task_Error ErrUnavailableIntent)
          end
      | IntentToGenerateRnTuple _ _ rhos sigmas =>
          match sendShares h rhos (Rhos message) with
          | Some h =>
              match sendShares h sigmas (Sigmas message) with
              | Some h => resume h vm (rng_Result_MessageID message)
              | None => Some (h, vm, task_Error ErrUnavailableIntent)
              end
          | None => Some (h, vm, task_Error ErrUnavailableIntent)
          end
      | _ => None
      end
  end.

Definition recvInternalMulResult (h : Chans) (vm : VM) (message : mul.Result)
    : Outcome :=
  match intents vm !! msgidToIID (mul.Result_MessageID message) with
  | None => Some (h, vm, MNil)
  | Some intent =>
      match intent with
      | IntentToMultiply _ _ _ _ _ ret =>
          match sendShares h ret (mul.Result_Shares message) with
          | Some h => resume h vm (mul.Result_MessageID message)
          | None => Some (h, vm, task_Error ErrUnavailableIntent)
          end
      | _ => Some (h, vm, task_Error (ErrUnexpectedIntentType intent))
      end
  end.

Definition recvInternalOpenResult (h : Chans) (vm : VM) (message : open_Result)
    : Outcome :=
  match intents vm !! msgidToIID (open_Result_MessageID message) with
  | None => Some (h, vm, MNil)
  | Some intent =>
      match intent with
      | IntentToOpen _ _ ret =>
          match sendValue h ret (open_Result_Value message) with
          | Some h => resume h vm (open_Result_MessageID message)
          | None => Some (h, vm, task_Error ErrUnavailableIntent)
          end
      | _ => Some (h, vm, task_Error (ErrUnexpectedIntentType intent))
      end
  end.

Definition Reduce (h : Chans) (vm : VM) (message : Message) : Outcome :=
  match message with
  | Exec proc => exec h vm proc
  | RemoteProcedureCall message => invoke h vm message
  | rng_RnShares _ => Some (h, vm, RemoteProcedureCall message)
  | rng_ProposeRnShare _ => Some (h, vm, RemoteProcedureCall message)
  | rng_Result_ message => recvInternalRngResult h vm message
  | mul_OpenMul _ => Some (h, vm, RemoteProcedureCall message)
  | mul_Result message => recvInternalMulResult h vm message
  | open_Open _ => Some (h, vm, RemoteProcedureCall message)
  | open_Result_ message => recvInternalOpenResult h vm message
  | task_Error _ => Some (h, vm, message)
  | _ => None
  end.

End dispatcher.

End vm.

Definition ped503 : pedersen.Pedersen :=
  {| pedersen.p := 503; pedersen.q := 251; pedersen.g := 351; pedersen.h := 8 |}.

Example ped503_New :
  pedersen.New (Some 503) (Some 251) (Some 351) (Some 8) = inl ped503.
Proof. vm_compute. reflexivity. Qed.

Example vss_17 :
  vss.Verify ped503 <$>
    vss.Share ped503 17 5 3 100 (λ j, 3 + Z.of_nat j) (λ j, 200 + Z.of_nat j)
  = replicate 5 (Some true).
Proof. vm_compute. reflexivity. Qed.

(** ** Integer polynomials, used to reason about [algebra.Evaluate] *)

Module poly.

Definition peval (p : list Z) (x : Z) : Z := foldr (λ a acc, a + x * acc) 0 p.

Fixpoint padd (p1 p2 : list Z) : list Z :=
  match p1, p2 with
  | [], _ => p2
  | _, [] => p1
  | a :: p1', b :: p2' => (a + b) :: padd p1' p2'
  end.

Definition pscale (c : Z) (p : list Z) : list Z := Z.mul c <$> p.

(** [(a - X) * p] *)
Definition plin (a : Z) (p : list Z) : list Z :=
  padd (pscale a p) (0 :: pscale (-1) p).

(** The quotient of [p] by [X - a] (synthetic division). *)
Fixpoint pquot (a : Z) (p : list Z) : list Z :=
  match p with
  | [] => []
  | _ :: p' => match p' with [] => [] | _ => peval p' a :: pquot a p' end
  end.

(** The Lagrange interpolant of a list of shares, as a value at [X] and
    as a coefficient list.  [o] is the list of the other shares. *)
Definition basis_at (q : Z) (s : shamir.Share) (o : list shamir.Share) (X : Z) : Z :=
  foldr (λ t acc,
    (shamir.xcoord q t - X) *
    (Z.invmod (shamir.xcoord q t - shamir.xcoord q s) q * acc)) 1 o.

Definition basis_poly (q : Z) (s : shamir.Share) (o : list shamir.Share) : list Z :=
  foldr (λ t acc,
    plin (shamir.xcoord q t)
      (pscale (Z.invmod (shamir.xcoord q t - shamir.xcoord q s) q) acc)) [1] o.

Definition others (l : list shamir.Share) (s : shamir.Share) : list shamir.Share :=
  filter (λ t, shamir.Index t ≠ shamir.Index s) l.

Definition lagrange_sum (q : Z) (l l' : list shamir.Share) (X : Z) : Z :=
  foldr (λ s acc, shamir.Value s * basis_at q s (others l s) X + acc) 0 l'.

Definition lagrange_poly (q : Z) (l l' : list shamir.Share) : list Z :=
  foldr (λ s acc, padd (pscale (shamir.Value s) (basis_poly q s (others l s))) acc) [] l'.

End poly.

(* ================================================================== *)
(** * Part II: lemmas and theorems *)
(* ================================================================== *)

(** ** Congruences modulo q *)

Ltac to_eqm :=
  match goal with |- ?a mod ?q = ?b mod ?q => change (eqm q a b) end.

Module cong.

Local Existing Instances eqm_setoid Zplus_eqm Zminus_eqm Zmult_eqm Zopp_eqm.

Lemma eqm_mod q a : eqm q (a mod q) a.
Proof. apply Zmod_eqm. Qed.

Lemma eqm_Add q a b : eqm q (algebra.Add q a b) (a + b).
Proof. apply Zmod_eqm. Qed.

Lemma eqm_Sub q a b : eqm q (algebra.Sub q a b) (a - b).
Proof. apply Zmod_eqm. Qed.

Lemma eqm_Mul q a b : eqm q (algebra.Mul q a b) (a * b).
Proof. apply Zmod_eqm. Qed.

Lemma eqm_Sum q l : eqm q (algebra.Sum q l) (foldr Z.add 0 l).
Proof.
  induction l as [|a l IH]; simpl; [reflexivity|].
  rewrite eqm_Add, IH. reflexivity.
Qed.

Lemma eqm_Prod q l : eqm q (algebra.Prod q l) (foldr Z.mul 1 l).
Proof.
  induction l as [|a l IH]; simpl; [apply Zmod_eqm|].
  rewrite eqm_Mul, IH. reflexivity.
Qed.

Lemma Sum_canonical q l : 0 < q → algebra.Sum q l mod q = algebra.Sum q l.
Proof.
  intros Hq. destruct l as [|a l]; simpl.
  - apply Z.mod_0_l. lia.
  - unfold algebra.Add. apply Zmod_mod.
Qed.

(** In a prime field a product is zero only if a factor is. *)
Lemma prime_mul_zero q a b :
  Z.prime q → (a * b) mod q = 0 → a mod q = 0 ∨ b mod q = 0.
Proof.
  intros Hq H. pose proof (Z.prime_ge_2 _ Hq).
  apply Z.mod_divide in H; [|lia].
  apply Z.divide_prime_mul in H; [|done].
  destruct H as [H|H]; [left|right]; apply Z.mod_divide; (lia || done).
Qed.

Lemma invmod_r q a : Z.prime q → a mod q ≠ 0 → eqm q (a * Z.invmod a q) 1.
Proof.
  intros Hq Ha. unfold eqm. rewrite Z.mul_comm, Z.invmod_prime by done.
  pose proof (Z.prime_ge_2 _ Hq). rewrite Z.mod_1_l; lia.
Qed.

End cong.

(** ** Polynomials: evaluation, degree and roots *)

Module poly_facts.
Import poly.

Local Existing Instances eqm_setoid Zplus_eqm Zminus_eqm Zmult_eqm Zopp_eqm.

Lemma peval_padd p1 p2 x : peval (padd p1 p2) x = peval p1 x + peval p2 x.
Proof.
  revert p2. induction p1 as [|a p1 IH]; intros [|b p2]; simpl; try lia.
  rewrite IH. ring.
Qed.

Lemma length_padd p1 p2 :
  length (padd p1 p2) = (length p1 `max` length p2)%nat.
Proof.
  revert p2. induction p1 as [|a p1 IH]; intros [|b p2]; simpl; try lia.
  rewrite IH. lia.
Qed.

Lemma peval_pscale c p x : peval (pscale c p) x = c * peval p x.
Proof. induction p as [|a p IH]; simpl; [lia|]. rewrite IH. ring. Qed.

Lemma length_pscale c p : length (pscale c p) = length p.
Proof. apply length_fmap. Qed.

Lemma peval_plin a p x : peval (plin a p) x = (a - x) * peval p x.
Proof.
  unfold plin. rewrite peval_padd. simpl. rewrite !peval_pscale. ring.
Qed.

Lemma length_plin a p : length (plin a p) = S (length p).
Proof.
  unfold plin. rewrite length_padd. simpl. rewrite !length_pscale. lia.
Qed.

Lemma peval_pquot a p x :
  peval p x = (x - a) * peval (pquot a p) x + peval p a.
Proof.
  induction p as [|c p IH]; simpl; [lia|].
  destruct p as [|d p]; [simpl; lia|].
  change (peval (peval (d :: p) a :: pquot a (d :: p)) x)
    with (peval (d :: p) a + x * peval (pquot a (d :: p)) x).
  rewrite IH at 1. ring.
Qed.

Lemma length_pquot a p : length (pquot a p) = pred (length p).
Proof.
  induction p as [|c p IH]; simpl; [done|].
  destruct p as [|d p]; [done|]. simpl in *. rewrite IH. done.
Qed.

Lemma Evaluate_peval q p x : algebra.Evaluate q p x = peval p x mod q.
Proof.
  induction p as [|a p IH]; simpl; [by rewrite Zmod_0_l|].
  rewrite IH. unfold algebra.Add, algebra.Mul.
  to_eqm. rewrite !cong.eqm_mod. reflexivity.
Qed.

Lemma peval_mod q p x : eqm q (peval p (x mod q)) (peval p x).
Proof.
  induction p as [|a p IH]; simpl; [reflexivity|].
  rewrite IH, cong.eqm_mod. reflexivity.
Qed.

(** A polynomial with at most [m] coefficients and [m] roots that are
    distinct modulo the prime [q] vanishes everywhere modulo [q]. *)
Lemma roots_zero q (Hq : Z.prime q) (m : nat) :
  ∀ (p rs : list Z),
    (length p ≤ m)%nat → length rs = m →
    NoDup ((λ r, r mod q) <$> rs) →
    Forall (λ r, peval p r mod q = 0) rs →
    ∀ x, peval p x mod q = 0.
Proof.
  induction m as [|m IH]; intros p rs Hp Hrs Hnd Hroots x.
  - destruct p; simpl in *; [done|lia].
  - destruct rs as [|r rs]; simpl in *; [lia|].
    apply NoDup_cons in Hnd as [Hr Hnd].
    apply Forall_cons in Hroots as [Hr0 Hroots].
    assert (Hq' : ∀ y, peval (pquot r p) y mod q = 0).
    { apply (IH _ rs); [rewrite length_pquot; lia|lia|done|].
      rewrite Forall_forall in Hroots |- *. intros r' Hr'.
      specialize (Hroots r' Hr').
      rewrite (peval_pquot r p r') in Hroots.
      rewrite <- Zplus_mod_idemp_r, Hr0, Z.add_0_r in Hroots.
      apply cong.prime_mul_zero in Hroots as [H|H]; [|done|done].
      exfalso. apply Hr. apply list_elem_of_fmap. exists r'. split; [|done].
      rewrite Zminus_mod in H. 
      pose proof (Z.prime_ge_2 _ Hq).
      pose proof (Z.mod_pos_bound r q ltac:(lia)).
      pose proof (Z.mod_pos_bound r' q ltac:(lia)).
      destruct (decide (r' mod q = r mod q)) as [|Hne]; [done|].
      exfalso.
      assert (Hd : (q | r' mod q - r mod q)) by (apply Z.mod_divide; [lia|done]).
      destruct Hd as [c Hc].
      assert (c = 0) by nia. lia. }
    rewrite (peval_pquot r p x).
    rewrite <- Zplus_mod_idemp_r, Hr0, Z.add_0_r.
    rewrite <- Zmult_mod_idemp_r, Hq', Z.mul_0_r. apply Zmod_0_l.
Qed.

End poly_facts.

(** ** Lagrange interpolation and [shamir.Join] *)

Module shamir_facts.
Import poly poly_facts shamir.

Local Existing Instances eqm_setoid Zplus_eqm Zminus_eqm Zmult_eqm Zopp_eqm.

Lemma mapM_Some_fmap {A B} (f : A → option B) (g : A → B) (l : list A) :
  (∀ x, x ∈ l → f x = Some (g x)) → mapM f l = Some (g <$> l).
Proof.
  intros H. apply mapM_Some_2, Forall2_fmap_r, Forall_Forall2_diag.
  apply Forall_forall. intros x Hx. simpl. by apply H.
Qed.

Lemma peval_basis_poly q s o X : peval (basis_poly q s o) X = basis_at q s o X.
Proof.
  induction o as [|t o IH]; simpl; [lia|].
  rewrite peval_plin, peval_pscale, IH. done.
Qed.

Lemma length_basis_poly q s o : length (basis_poly q s o) = S (length o).
Proof.
  induction o as [|t o IH]; simpl; [done|].
  rewrite length_plin, length_pscale, IH. done.
Qed.

Lemma peval_lagrange_poly q l l' X :
  peval (lagrange_poly q l l') X = lagrange_sum q l l' X.
Proof.
  induction l' as [|s l' IH]; simpl; [done|].
  rewrite peval_padd, peval_pscale, peval_basis_poly, IH. done.
Qed.

Lemma length_lagrange_poly q l l' :
  l' ⊆ l → (length (lagrange_poly q l l') ≤ length l)%nat.
Proof.
  induction l' as [|s l' IH]; intros Hsub; simpl; [lia|].
  rewrite length_padd, length_pscale, length_basis_poly.
  assert (s ∈ l) by (apply Hsub; left).
  assert (l' ⊆ l) by (intros x Hx; apply Hsub; by right).
  pose proof (length_filter_lt (λ t, Index t ≠ Index s) l s) as Hlt.
  unfold others. specialize (IH ltac:(done)).
  specialize (Hlt ltac:(done) ltac:(naive_solver)). lia.
Qed.

(** The x-coordinates of distinct shares of [l] differ when they are
    pairwise distinct. *)
Lemma xcoord_inj_on q (l : list Share) s t :
  NoDup (xcoord q <$> l) → s ∈ l → t ∈ l → xcoord q s = xcoord q t → s = t.
Proof.
  induction l as [|a l IH]; intros Hnd Hs Ht Heq; [by apply elem_of_nil in Hs|].
  simpl in Hnd. apply NoDup_cons in Hnd as [Ha Hnd].
  apply elem_of_cons in Hs as [->|Hs]; apply elem_of_cons in Ht as [->|Ht];
    [done| | |by apply IH].
  - exfalso. apply Ha. rewrite Heq. by apply list_elem_of_fmap_2.
  - exfalso. apply Ha. rewrite <- Heq. by apply list_elem_of_fmap_2.
Qed.

Lemma xcoord_diff q s t :
  0 < q → xcoord q t ≠ xcoord q s → (xcoord q t - xcoord q s) mod q ≠ 0.
Proof.
  unfold xcoord. intros Hq Hne H.
  pose proof (Z.mod_pos_bound (Z.of_N (Index s)) q Hq).
  pose proof (Z.mod_pos_bound (Z.of_N (Index t)) q Hq).
  apply Z.mod_divide in H; [|lia]. destruct H as [c Hc].
  assert (c = 0) by nia. lia.
Qed.

Lemma others_diff q l s t :
  0 < q → NoDup (xcoord q <$> l) → s ∈ l → t ∈ others l s →
  (xcoord q t - xcoord q s) mod q ≠ 0.
Proof.
  intros Hq Hnd Hs Ht. apply list_elem_of_filter in Ht as [Hne Ht].
  apply xcoord_diff; [done|]. intros Heq.
  apply Hne. f_equal. by apply (xcoord_inj_on q l).
Qed.

(** The basis polynomial of [s] is 1 at the x-coordinate of [s] ... *)
Lemma basis_at_self q (Hq : Z.prime q) s o :
  (∀ t, t ∈ o → (xcoord q t - xcoord q s) mod q ≠ 0) →
  eqm q (basis_at q s o (xcoord q s)) 1.
Proof.
  induction o as [|t o IH]; intros Ho; simpl; [reflexivity|].
  rewrite IH by (intros; apply Ho; by right).
  rewrite Z.mul_1_r. apply cong.invmod_r; [done|]. apply Ho. by left.
Qed.

(** ... and 0 at the x-coordinate of every other share. *)
Lemma basis_at_other q s o t :
  t ∈ o → basis_at q s o (xcoord q t) = 0.
Proof.
  induction o as [|u o IH]; intros Ht; [by apply elem_of_nil in Ht|].
  simpl. apply elem_of_cons in Ht as [->|Ht]; [|rewrite IH by done]; lia.
Qed.

Lemma lagrange_sum_cons q l a l' X :
  lagrange_sum q l (a :: l') X =
  Value a * basis_at q a (others l a) X + lagrange_sum q l l' X.
Proof. reflexivity. Qed.

Lemma lagrange_sum_at q (Hq : Z.prime q) l l' s :
  NoDup (xcoord q <$> l) → NoDup l' → l' ⊆ l → s ∈ l →
  eqm q (lagrange_sum q l l' (xcoord q s)) (if decide (s ∈ l') then Value s else 0).
Proof.
  intros Hnd Hnd' Hsub Hs. pose proof (Z.prime_ge_2 _ Hq).
  induction l' as [|a l' IH].
  - rewrite decide_False by apply not_elem_of_nil. reflexivity.
  - rewrite lagrange_sum_cons.
    apply NoDup_cons in Hnd' as [Ha Hnd'].
    assert (a ∈ l) by (apply Hsub; left).
    rewrite IH; [|done|intros x Hx; apply Hsub; by right].
    destruct (decide (s = a)) as [->|Hne].
    + rewrite (decide_True (P := a ∈ a :: l')) by left.
      rewrite decide_False by done.
      rewrite basis_at_self; [|done|].
      * rewrite Z.mul_1_r, Z.add_0_r. reflexivity.
      * intros t Ht. apply (others_diff q l); (lia || done).
    + rewrite basis_at_other.
      * rewrite Z.mul_0_r, Z.add_0_l.
        destruct (decide (s ∈ l')) as [Hin|Hnin].
        -- rewrite decide_True by (by right). reflexivity.
        -- rewrite decide_False; [reflexivity|].
           intros [?|?]%elem_of_cons; done.
      * apply list_elem_of_filter. split; [|done].
        intros Heq. apply Hne. apply (xcoord_inj_on q l); [done..|].
        unfold xcoord. by rewrite Heq.
Qed.

(** Interpolation: the interpolant of shares that lie on a polynomial with
    no more coefficients than there are shares has the value of that
    polynomial at 0. *)
Lemma lagrange_interpolates q (Hq : Z.prime q) l f :
  NoDup (xcoord q <$> l) → (length f ≤ length l)%nat →
  (∀ s, s ∈ l → eqm q (Value s) (peval f (xcoord q s))) →
  eqm q (lagrange_sum q l l 0) (peval f 0).
Proof.
  intros Hnd Hlen Hf.
  pose (d := padd f (pscale (-1) (lagrange_poly q l l))).
  assert (Hd : ∀ x, peval d x mod q = 0).
  { apply (roots_zero q Hq (length l) d (xcoord q <$> l)).
    - unfold d. rewrite length_padd, length_pscale.
      pose proof (length_lagrange_poly q l l ltac:(done)). lia.
    - by rewrite length_fmap.
    - rewrite <- list_fmap_compose.
      erewrite list_fmap_ext; [exact Hnd|].
      intros i s _. simpl. unfold xcoord. apply Zmod_mod.
    - apply Forall_fmap, Forall_forall. intros s Hs. simpl.
      unfold d. rewrite peval_padd, peval_pscale, peval_lagrange_poly.
      rewrite <- (Zmod_0_l q). to_eqm.
      rewrite (lagrange_sum_at q Hq l l s); [|done|by eapply NoDup_fmap_1|done|done].
      rewrite decide_True by done. rewrite (Hf s Hs).
      match goal with |- eqm _ ?e _ => replace e with 0 by ring end.
      reflexivity. }
  specialize (Hd 0). unfold d in Hd.
  rewrite peval_padd, peval_pscale, peval_lagrange_poly in Hd.
  assert (HD : eqm q (peval f 0 + -1 * lagrange_sum q l l 0) 0)
    by (unfold eqm; by rewrite Hd, Zmod_0_l).
  transitivity (lagrange_sum q l l 0 + (peval f 0 + -1 * lagrange_sum q l l 0)).
  - rewrite HD, Z.add_0_r. reflexivity.
  - match goal with |- eqm _ ?e _ => replace e with (peval f 0) by ring end.
    reflexivity.
Qed.

Lemma Prod_basis_at q s o :
  eqm q
    (algebra.Prod q
       ((λ t, algebra.Mul q (xcoord q t)
                (Z.invmod (algebra.Sub q (xcoord q t) (xcoord q s)) q)) <$> o))
    (basis_at q s o 0).
Proof.
  induction o as [|t o IH]; simpl; [apply Zmod_eqm|].
  rewrite cong.eqm_Mul, IH, cong.eqm_Mul.
  unfold algebra.Sub. rewrite Z.invmod_mod_l, Z.sub_0_r.
  match goal with |- eqm _ ?a ?b => replace a with b by ring end. reflexivity.
Qed.

Lemma lagrange_term_Some q l s :
  0 < q → NoDup (xcoord q <$> l) → s ∈ l →
  ∃ v, lagrange_term q l s = Some v ∧
       eqm q v (Value s * basis_at q s (others l s) 0).
Proof.
  intros Hq Hnd Hs. unfold lagrange_term.
  erewrite (mapM_Some_fmap _ (λ t, algebra.Mul q (xcoord q t)
              (Z.invmod (algebra.Sub q (xcoord q t) (xcoord q s)) q))).
  - simpl. eexists; split; [done|].
    rewrite cong.eqm_Mul. fold (others l s). rewrite Prod_basis_at. reflexivity.
  - intros t Ht. unfold algebra.Div, algebra.Inv.
    rewrite decide_False; [done|].
    unfold algebra.Sub. rewrite Zmod_mod. by apply (others_diff q l).
Qed.

Lemma mapM_lagrange_term q l l' :
  0 < q → NoDup (xcoord q <$> l) → l' ⊆ l →
  ∃ vs, mapM (lagrange_term q l) l' = Some vs ∧
        eqm q (foldr Z.add 0 vs) (lagrange_sum q l l' 0).
Proof.
  intros Hq Hnd. induction l' as [|s l' IH]; intros Hsub.
  - exists []. split; [done|reflexivity].
  - destruct IH as (vs & Hvs & Hsum); [intros x Hx; apply Hsub; by right|].
    destruct (lagrange_term_Some q l s) as (v & Hv & Hveq);
      [done|done|apply Hsub; left|].
    exists (v :: vs). split.
    + rewrite mapM_Some. constructor; [done|]. by apply mapM_Some.
    + rewrite lagrange_sum_cons. simpl. rewrite Hveq, Hsum. reflexivity.
Qed.

(** [Join] on shares with pairwise distinct x-coordinates returns the
    value at 0 of the interpolant. *)
Lemma Join_lagrange q l :
  0 < q → l ≠ [] → NoDup (xcoord q <$> l) →
  Join q l = Some (lagrange_sum q l l 0 mod q).
Proof.
  intros Hq Hne Hnd. unfold Join.
  rewrite decide_False by done.
  rewrite decide_True.
  2:{ apply (NoDup_fmap_1 (λ i, Z.of_N i mod q)).
      by rewrite <- list_fmap_compose. }
  destruct (mapM_lagrange_term q l l Hq Hnd ltac:(done)) as (vs & -> & Hsum).
  simpl. f_equal. rewrite <- cong.Sum_canonical by done.
  to_eqm. rewrite cong.eqm_Sum. done.
Qed.

(** Reconstruction: shares with distinct x-coordinates that lie on the
    polynomial [f], at least as many as [f] has coefficients, join to
    f(0). *)
Lemma Join_correct q (Hq : Z.prime q) l f :
  l ≠ [] → NoDup (xcoord q <$> l) → (length f ≤ length l)%nat →
  (∀ s, s ∈ l → Value s = algebra.Evaluate q f (Z.of_N (Index s))) →
  Join q l = Some (algebra.Evaluate q f 0).
Proof.
  intros Hne Hnd Hlen Hf. pose proof (Z.prime_ge_2 _ Hq).
  rewrite Join_lagrange by (lia || done). f_equal.
  rewrite Evaluate_peval. to_eqm.
  apply lagrange_interpolates; [done..|].
  intros s Hs. rewrite (Hf s Hs), Evaluate_peval, cong.eqm_mod.
  unfold xcoord. symmetry. apply peval_mod.
Qed.

Lemma Evaluate_0 q c f : algebra.Evaluate q (c :: f) 0 = c mod q.
Proof.
  simpl. unfold algebra.Add, algebra.Mul. rewrite Z.mul_0_l.
  destruct (decide (q = 0)) as [->|?].
  - by rewrite !Z.mod_0_r, Z.add_0_r.
  - by rewrite Z.mod_0_l, Z.add_0_r.
Qed.

(** *** [Join] does not depend on the order of the shares *)

Lemma mapM_Permutation {A B} (f : A → option B) (l l' : list A) :
  l ≡ₚ l' →
  match mapM f l, mapM f l' with
  | Some r, Some r' => r ≡ₚ r'
  | None, None => True
  | _, _ => False
  end.
Proof.
  induction 1 as [|x l l' _ IH|x y l|l l' l'' _ IH1 _ IH2].
  - cbn. constructor.
  - cbn. destruct (f x); cbn; [|done].
    destruct (mapM f l), (mapM f l'); cbn; try done. by constructor.
  - cbn. destruct (f x), (f y); cbn; try done.
    destruct (mapM f l); cbn; [|done]. apply perm_swap.
  - destruct (mapM f l), (mapM f l'), (mapM f l''); try done.
    by etrans.
Qed.

Lemma Sum_Permutation q (r r' : list Z) :
  r ≡ₚ r' → algebra.Sum q r = algebra.Sum q r'.
Proof.
  apply (foldr_permutation_proper eq); [apply _|].
  intros a1 a2 b. unfold algebra.Add.
  rewrite !Zplus_mod_idemp_r. f_equal. lia.
Qed.

Lemma Prod_Permutation q (r r' : list Z) :
  r ≡ₚ r' → algebra.Prod q r = algebra.Prod q r'.
Proof.
  apply (foldr_permutation_proper eq); [apply _|].
  intros a1 a2 b. unfold algebra.Mul.
  rewrite !Zmult_mod_idemp_r. f_equal. lia.
Qed.

Lemma lagrange_term_Permutation q (l l' : list Share) s :
  l ≡ₚ l' → lagrange_term q l s = lagrange_term q l' s.
Proof.
  intros Hperm. unfold lagrange_term.
  pose proof (mapM_Permutation
    (λ t, algebra.Div q (xcoord q t) (algebra.Sub q (xcoord q t) (xcoord q s)))
    (filter (λ t, Index t ≠ Index s) l) (filter (λ t, Index t ≠ Index s) l')
    ltac:(by rewrite Hperm)) as Hm.
  destruct (mapM _ (filter _ l)), (mapM _ (filter _ l')); try done.
  cbn. by rewrite (Prod_Permutation q _ _ Hm).
Qed.

(** The iteration over a Go map has no fixed order: whatever the order
    in which the shares are handed to [Join], it returns the same. *)
Lemma Join_Permutation q (l l' : list Share) :
  l ≡ₚ l' → Join q l = Join q l'.
Proof.
  intros Hperm. unfold Join.
  destruct (decide (l = [])) as [->|Hne].
  { apply Permutation_nil in Hperm as ->. done. }
  rewrite (decide_False (P := l' = [])).
  2:{ intros ->. by apply Permutation_nil_r in Hperm. }
  destruct (decide (NoDup (Index <$> l))) as [Hnd|Hnd].
  - rewrite decide_True by (by rewrite <- Hperm).
    rewrite (mapM_ext _ (lagrange_term q l'))
      by (intros s; by apply lagrange_term_Permutation).
    pose proof (mapM_Permutation (lagrange_term q l') l l' Hperm) as Hm.
    destruct (mapM _ l), (mapM _ l'); try done.
    cbn. by rewrite (Sum_Permutation q _ _ Hm).
  - rewrite decide_False; [done|]. by rewrite <- Hperm.
Qed.

End shamir_facts.

(** ** Pedersen commitments *)

Module pedersen_facts.
Import pedersen.

Local Existing Instances eqm_setoid Zplus_eqm Zminus_eqm Zmult_eqm Zopp_eqm.

Lemma exp_bits_spec b e m : algebra.exp_bits b e m = b ^ Z.pos e mod m.
Proof.
  induction e as [e IH|e IH|]; simpl algebra.exp_bits.
  - rewrite IH, Pos2Z.inj_xI.
    replace (2 * Z.pos e + 1) with (Z.pos e + Z.pos e + 1) by lia.
    rewrite !Z.pow_add_r, Z.pow_1_r by lia.
    to_eqm. rewrite !cong.eqm_mod. reflexivity.
  - rewrite IH, Pos2Z.inj_xO.
    replace (2 * Z.pos e) with (Z.pos e + Z.pos e) by lia.
    rewrite !Z.pow_add_r by lia.
    to_eqm. rewrite !cong.eqm_mod. reflexivity.
  - by rewrite Z.pow_1_r.
Qed.

Lemma Exp_spec b e m : 0 ≤ e → algebra.Exp b e m = b ^ e mod m.
Proof.
  intros He. destruct e as [|e|e]; simpl; [done| |lia].
  apply exp_bits_spec.
Qed.

Lemma eqm_Exp b e m : 0 ≤ e → eqm m (algebra.Exp b e m) (b ^ e).
Proof. intros. rewrite Exp_spec by done. apply Zmod_eqm. Qed.

Lemma eqm_pow m a b e : eqm m a b → eqm m (a ^ e) (b ^ e).
Proof.
  unfold eqm. intros H.
  by rewrite <- (Z.mod_pow_l a), H, Z.mod_pow_l.
Qed.

(** An element of order dividing [q] may have its exponent reduced
    modulo [q]. *)
Lemma pow_mod_order m q b a :
  0 < q → 0 ≤ a → eqm m (b ^ q) 1 → eqm m (b ^ (a mod q)) (b ^ a).
Proof.
  intros Hq Ha Hb.
  rewrite (Z.div_mod a q) at 2 by lia.
  pose proof (Z.mod_pos_bound a q Hq).
  pose proof (Z.div_pos a q Ha Hq).
  rewrite Z.pow_add_r, Z.pow_mul_r by lia.
  rewrite (eqm_pow m _ _ _ Hb), Z.pow_1_l, Z.mul_1_l by done. reflexivity.
Qed.

Lemma eqm_commit ped s t :
  0 ≤ s → 0 ≤ t → eqm (p ped) (commit ped s t) (g ped ^ s * h ped ^ t).
Proof.
  intros. unfold commit. rewrite cong.eqm_mod, !eqm_Exp by done. reflexivity.
Qed.

Lemma commit_canonical ped s t : commit ped s t mod p ped = commit ped s t.
Proof. apply Zmod_mod. Qed.

(** What a successful [New] has checked. *)
Definition valid (ped : Pedersen) : Prop :=
  (p ped - 1) mod q ped = 0 ∧
  algebra.Exp (g ped) (q ped) (p ped) = 1 ∧
  algebra.Exp (h ped) (q ped) (p ped) = 1 ∧
  g ped ≠ 1 ∧ h ped ≠ 1.

Lemma New_valid p q g h ped : New p q g h = inl ped → valid ped.
Proof.
  unfold New. destruct p, q, g, h; try done.
  case_bool_decide as H; [|done]. intros [= <-]. exact H.
Qed.

Lemma valid_order ped :
  valid ped → 0 ≤ q ped →
  eqm (p ped) (g ped ^ q ped) 1 ∧ eqm (p ped) (h ped ^ q ped) 1.
Proof.
  intros (_ & Hg & Hh & _) Hq.
  rewrite Exp_spec in Hg, Hh by done.
  split; unfold eqm; [rewrite <- Hg|rewrite <- Hh]; by rewrite Zmod_mod.
Qed.

(** The commitment only depends on the exponents modulo [q]. *)
Lemma commit_mod ped a b :
  valid ped → 0 < q ped → 0 ≤ a → 0 ≤ b →
  commit ped (a mod q ped) (b mod q ped) = commit ped a b.
Proof.
  intros Hv Hq Ha Hb. destruct (valid_order ped Hv ltac:(lia)) as [Hg Hh].
  pose proof (Z.mod_pos_bound a (q ped) Hq).
  pose proof (Z.mod_pos_bound b (q ped) Hq).
  rewrite <- (commit_canonical ped a b), <- (commit_canonical ped (a mod _)).
  to_eqm. rewrite !eqm_commit by lia.
  rewrite (pow_mod_order _ _ (g ped)), (pow_mod_order _ _ (h ped)) by done.
  reflexivity.
Qed.

(** Commitments are multiplicatively homomorphic. *)
Lemma commit_mul ped s1 t1 s2 t2 :
  0 ≤ s1 → 0 ≤ t1 → 0 ≤ s2 → 0 ≤ t2 →
  algebra.Mul (p ped) (commit ped s1 t1) (commit ped s2 t2) =
  commit ped (s1 + s2) (t1 + t2).
Proof.
  intros. rewrite <- (commit_canonical ped (s1 + s2)).
  unfold algebra.Mul. to_eqm. rewrite !eqm_commit by lia.
  rewrite !Z.pow_add_r by lia.
  match goal with |- eqm _ ?a ?b => replace a with b by ring end. reflexivity.
Qed.

End pedersen_facts.

(** ** Verifiable shares *)

Module vss_facts.
Import poly poly_facts pedersen pedersen_facts.

Local Existing Instances eqm_setoid Zplus_eqm Zminus_eqm Zmult_eqm Zopp_eqm.

Lemma peval_nonneg f x : Forall (λ a, 0 ≤ a) f → 0 ≤ x → 0 ≤ peval f x.
Proof.
  induction 1 as [|a f Ha Hf IH]; intros Hx; simpl; [lia|].
  specialize (IH Hx). nia.
Qed.

Lemma Prod_canonical m l : algebra.Prod m l mod m = algebra.Prod m l.
Proof. destruct l; simpl; apply Zmod_mod. Qed.

(** The product of the commitments raised to the powers of the index is
    the commitment to the values of the two polynomials. *)
Lemma evaluate_poly ped i fa fb :
  0 ≤ i → length fa = length fb →
  Forall (λ a, 0 ≤ a) fa → Forall (λ a, 0 ≤ a) fb →
  ∀ off : nat,
  eqm (p ped)
    (algebra.Prod (p ped)
       (imap (λ j c, algebra.Exp c (i ^ Z.of_nat (off + j)) (p ped))
          (zip_with (commit ped) fa fb)))
    (g ped ^ (i ^ Z.of_nat off * peval fa i) *
     h ped ^ (i ^ Z.of_nat off * peval fb i)).
Proof.
  intros Hi Hlen Hfa. revert fb Hlen.
  induction Hfa as [|a fa Ha Hfa IH]; intros [|b fb] Hlen Hfb off;
    simpl in Hlen; try lia.
  - simpl. rewrite !Z.mul_0_r, !Z.pow_0_r. apply Zmod_eqm.
  - apply Forall_cons in Hfb as [Hb Hfb].
    cbn [zip_with]. rewrite imap_cons. cbn [algebra.Prod foldr].
    change (foldr (algebra.Mul (p ped)) (1 mod p ped)) with (algebra.Prod (p ped)).
    rewrite cong.eqm_Mul.
    erewrite (imap_ext _ (λ j c, algebra.Exp c (i ^ Z.of_nat (S off + j)) (p ped)));
      [|intros j c _; simpl; do 3 f_equal; lia].
    rewrite (IH fb ltac:(lia) Hfb (S off)).
    pose proof (peval_nonneg fa i Hfa Hi).
    pose proof (peval_nonneg fb i Hfb Hi).
    assert (0 ≤ i ^ Z.of_nat off) by (apply Z.pow_nonneg; lia).
    rewrite eqm_Exp by (rewrite Nat.add_0_r; done).
    rewrite (eqm_pow _ _ _ _ (eqm_commit ped a b Ha Hb)).
    rewrite Nat.add_0_r, Z.pow_mul_l, <- !Z.pow_mul_r by lia.
    rewrite Nat2Z.inj_succ, Z.pow_succ_r by lia. simpl peval.
    match goal with |- eqm _ ?x (?G ^ ?e1 * ?H ^ ?e2) =>
      replace e1 with (a * i ^ Z.of_nat off + i * i ^ Z.of_nat off * peval fa i) by ring;
      replace e2 with (b * i ^ Z.of_nat off + i * i ^ Z.of_nat off * peval fb i) by ring
    end.
    rewrite !Z.pow_add_r by nia.
    match goal with |- eqm _ ?x ?y => replace x with y by ring end. reflexivity.
Qed.

(** A share on the polynomials [fa] and [fb] with the commitments to their
    coefficients verifies. *)
Lemma Verify_poly ped idx idx' fa fb :
  valid ped → 0 < q ped →
  fa ≠ [] → length fa = length fb →
  Forall (λ a, 0 ≤ a) fa → Forall (λ a, 0 ≤ a) fb →
  vss.Verify ped
    {| vss.share := shamir.New idx (algebra.Evaluate (q ped) fa (Z.of_N idx));
       vss.t := shamir.New idx' (algebra.Evaluate (q ped) fb (Z.of_N idx));
       vss.commitments := zip_with (commit ped) fa fb |} = Some true.
Proof.
  intros Hv Hq Hne Hlen Hfa Hfb. unfold vss.Verify. simpl.
  destruct (zip_with (commit ped) fa fb) as [|c cs] eqn:Hz.
  { destruct fa, fb; simpl in *; done. }
  rewrite <- Hz. f_equal. apply bool_decide_eq_true.
  pose proof (N2Z.is_nonneg idx) as Hi.
  rewrite !Evaluate_peval, commit_mod
    by (try apply peval_nonneg; done).
  unfold vss.evaluate.
  rewrite <- commit_canonical, <- Prod_canonical. to_eqm.
  rewrite (evaluate_poly ped _ fa fb Hi Hlen Hfa Hfb 0).
  rewrite eqm_commit by (apply peval_nonneg; done).
  simpl. rewrite !Z.mul_1_l. reflexivity.
Qed.

Lemma Split_elem q f n s :
  s ∈ shamir.Split q f n →
  ∃ i : nat, (1 ≤ i ≤ n)%nat ∧
    s = shamir.New (N.of_nat i) (algebra.Evaluate q f (Z.of_nat i)).
Proof.
  unfold shamir.Split. intros (i & -> & Hi)%list_elem_of_fmap.
  apply elem_of_seq in Hi. exists i. split; [lia|done].
Qed.

(** Any selection of enough distinct shares of a split polynomial joins to
    its constant term, as long as the indices fit in the field. *)
Lemma Split_Join q (Hq : Z.prime q) f n l :
  f ≠ [] → Z.of_nat n < q → NoDup l → l ⊆ shamir.Split q f n →
  (length f ≤ length l)%nat →
  shamir.Join q l = Some (algebra.Evaluate q f 0).
Proof.
  intros Hf Hn Hnd Hsub Hlen.
  apply shamir_facts.Join_correct; [done| | |done|].
  - intros ->. destruct f; simpl in *; [done|lia].
  - apply NoDup_fmap_2_strong; [|done].
    intros x y Hx Hy Hxy.
    apply Hsub, Split_elem in Hx as (i & Hi & ->).
    apply Hsub, Split_elem in Hy as (j & Hj & ->).
    unfold shamir.xcoord in Hxy. simpl in Hxy.
    rewrite !nat_N_Z, !Z.mod_small in Hxy by lia.
    by replace j with i by lia.
  - intros s Hs. apply Hsub, Split_elem in Hs as (i & Hi & ->).
    simpl. by rewrite nat_N_Z.
Qed.

Lemma Share_fmap ped secret n k r drawS drawT :
  vss.Share ped secret n k r drawS drawT =
  (λ i, let poly := algebra.NewRandomPolynomial k secret drawS in
        let polyT := algebra.NewRandomPolynomial k r drawT in
        {| vss.share := shamir.New (N.of_nat i)
             (algebra.Evaluate (q ped) poly (Z.of_N (N.of_nat i)));
           vss.t := shamir.New (N.of_nat i)
             (algebra.Evaluate (q ped) polyT (Z.of_N (N.of_nat i)));
           vss.commitments := zip_with (commit ped) poly polyT |}) <$> seq 1 n.
Proof.
  unfold vss.Share, shamir.Split.
  rewrite zip_with_fmap_l, zip_with_fmap_r, zip_with_diag.
  apply list_fmap_ext. intros _ i _. simpl. by rewrite nat_N_Z.
Qed.

Lemma Share_shares ped secret n k r drawS drawT :
  vss.share <$> vss.Share ped secret n k r drawS drawT =
  shamir.Split (q ped) (algebra.NewRandomPolynomial k secret drawS) n.
Proof.
  rewrite Share_fmap, <- list_fmap_compose. unfold shamir.Split.
  apply list_fmap_ext. intros _ i _. simpl. by rewrite nat_N_Z.
Qed.

Lemma length_NewRandomPolynomial k c draw :
  (1 ≤ k)%nat → length (algebra.NewRandomPolynomial k c draw) = k.
Proof.
  intros. unfold algebra.NewRandomPolynomial. simpl.
  rewrite length_fmap, length_seq. lia.
Qed.

Lemma NewRandomPolynomial_nonneg q k c draw :
  algebra.Contains q c = true → (∀ j, algebra.Contains q (draw j) = true) →
  Forall (λ a, 0 ≤ a) (algebra.NewRandomPolynomial k c draw).
Proof.
  unfold algebra.Contains. intros Hc Hd. constructor.
  - apply bool_decide_eq_true in Hc. lia.
  - apply Forall_fmap, Forall_forall. intros j _. simpl.
    specialize (Hd j). apply bool_decide_eq_true in Hd. lia.
Qed.

(** *** Addition of verifiable shares *)

Lemma Evaluate_padd q f f' x :
  algebra.Evaluate q (padd f f') x =
  algebra.Add q (algebra.Evaluate q f x) (algebra.Evaluate q f' x).
Proof.
  rewrite !Evaluate_peval, peval_padd. unfold algebra.Add.
  apply Zplus_mod.
Qed.

Lemma padd_nonneg f f' :
  Forall (λ a, 0 ≤ a) f → Forall (λ a, 0 ≤ a) f' →
  Forall (λ a, 0 ≤ a) (padd f f').
Proof.
  intros Hf. revert f'. induction Hf as [|a f Ha Hf IH]; intros f' Hf'; [done|].
  destruct Hf' as [|b f' Hb Hf']; simpl; [by constructor|].
  constructor; [lia|by apply IH].
Qed.

(** Multiplying the commitment vectors of two sharings pointwise gives the
    commitments to the sums of the coefficients. *)
Lemma commitments_mul ped fa fb fa' fb' :
  length fa = length fb → length fa' = length fb' → length fa = length fa' →
  Forall (λ a, 0 ≤ a) fa → Forall (λ a, 0 ≤ a) fb →
  Forall (λ a, 0 ≤ a) fa' → Forall (λ a, 0 ≤ a) fb' →
  zip_with (algebra.Mul (p ped))
    (zip_with (commit ped) fa fb) (zip_with (commit ped) fa' fb') =
  zip_with (commit ped) (padd fa fa') (padd fb fb').
Proof.
  intros H1 H2 H3 Hfa. revert fb fa' fb' H1 H2 H3.
  induction Hfa as [|a fa Ha Hfa IH];
    intros [|b fb] [|a' fa'] [|b' fb'] H1 H2 H3 Hfb Hfa' Hfb';
    simpl in *; try lia; [done|].
  apply Forall_cons in Hfb as [? ?]. apply Forall_cons in Hfa' as [? ?].
  apply Forall_cons in Hfb' as [? ?].
  rewrite commit_mul by done. f_equal. apply IH; (lia || done).
Qed.

(** The verifiable share of index [i] on the polynomials [fa] and [fb]. *)
Definition poly_vshare (ped : Pedersen) (fa fb : list Z) (i : nat) : vss.VShare :=
  {| vss.share := shamir.New (N.of_nat i)
       (algebra.Evaluate (q ped) fa (Z.of_N (N.of_nat i)));
     vss.t := shamir.New (N.of_nat i)
       (algebra.Evaluate (q ped) fb (Z.of_N (N.of_nat i)));
     vss.commitments := zip_with (commit ped) fa fb |}.

Lemma Share_poly_vshare ped secret n k r drawS drawT :
  vss.Share ped secret n k r drawS drawT =
  poly_vshare ped (algebra.NewRandomPolynomial k secret drawS)
    (algebra.NewRandomPolynomial k r drawT) <$> seq 1 n.
Proof. apply Share_fmap. Qed.

Lemma Add_poly_vshare ped fa fb fa' fb' i :
  length fa = length fb → length fa' = length fb' → length fa = length fa' →
  Forall (λ a, 0 ≤ a) fa → Forall (λ a, 0 ≤ a) fb →
  Forall (λ a, 0 ≤ a) fa' → Forall (λ a, 0 ≤ a) fb' →
  vss.Add ped (poly_vshare ped fa fb i) (poly_vshare ped fa' fb' i) =
  poly_vshare ped (padd fa fa') (padd fb fb') i.
Proof.
  intros. unfold vss.Add, poly_vshare, shamir.Add. cbn [vss.share vss.t
    vss.commitments shamir.Index shamir.Value].
  rewrite commitments_mul, !Evaluate_padd by done. done.
Qed.

(** Primality by trial division, to run the theorems on concrete fields. *)
Lemma prime_by_trial q :
  1 < q → forallb (λ n, negb (q mod n =? 0)) (seqZ 2 (q - 2)) = true →
  Z.prime q.
Proof.
  intros Hq Hall. split; [done|]. intros n Hn Hdiv.
  rewrite forallb_forall in Hall.
  specialize (Hall n). rewrite <- list_elem_of_In, elem_of_seqZ in Hall.
  specialize (Hall ltac:(lia)).
  apply Z.mod_divide in Hdiv; [|lia].
  rewrite Hdiv in Hall. done.
Qed.

Lemma prime_251 : Z.prime 251.
Proof. apply prime_by_trial; [lia|]. vm_compute. reflexivity. Qed.

End vss_facts.

(** ** Claims on the cryptographic primitives *)

Module pedersen_props.
Import pedersen pedersen_facts.

(** C7.  [Verify(s, t, C)] returns the nil error exactly when all three
    arguments are present and C is [Commit(s, t)]; it returns
    [ErrUnacceptableCommitment] when they are present and C differs from
    [Commit(s, t)]; it returns [ErrNilArguments] when an argument is nil;
    and [Commit(s, t)] is g^s * h^t mod p. *)
Theorem Verify_spec (ped : Pedersen) (s t c : option Z) :
  (Verify ped s t c = None ↔
     is_Some s ∧ is_Some t ∧ is_Some c ∧ c = Commit ped s t) ∧
  (is_Some s ∧ is_Some t ∧ is_Some c ∧ c ≠ Commit ped s t →
     Verify ped s t c = Some ErrUnacceptableCommitment) ∧
  (s = None ∨ t = None ∨ c = None →
     Verify ped s t c = Some ErrNilArguments) ∧
  (∀ s' t', s = Some s' → t = Some t' → 0 ≤ s' → 0 ≤ t' →
     Commit ped s t = Some ((g ped ^ s' * h ped ^ t') mod p ped)).
Proof.
  split; [|split; [|split]].
  - split.
    + destruct s as [s|], t as [t|], c as [c|]; simpl; try done.
      case_decide; [|done]. intros _. subst. eauto 10.
    + intros ([s' ->] & [t' ->] & [c' ->] & Heq). simpl in *.
      case_decide; [done|]. congruence.
  - intros ([s' ->] & [t' ->] & [c' ->] & Hne). simpl in *.
    case_decide; [|done]. congruence.
  - intros [-> | [-> | ->]]; unfold Verify; repeat case_match; done.
  - intros s' t' -> -> Hs Ht. simpl. f_equal.
    unfold commit. rewrite !Exp_spec by done.
    by rewrite <- Zmult_mod.
Qed.

End pedersen_props.

Module vss_props.
Import poly poly_facts pedersen pedersen_facts vss_facts.

Lemma New_fields p q g h ped :
  New (Some p) (Some q) (Some g) (Some h) = inl ped →
  pedersen.p ped = p ∧ pedersen.q ped = q ∧ pedersen.g ped = g ∧ pedersen.h ped = h.
Proof. unfold New. case_bool_decide; [|done]. by intros [= <-]. Qed.

(** C3, amended by [n < q].  For a prime q, a scheme accepted by [New], a
    secret in F_q and n ≥ k ≥ 2 with n < q, [Share] produces n verifiable
    shares, [Verify] accepts each of them, and [shamir.Join] of any k
    distinct inner shares returns the secret.  The random draws are
    arbitrary elements of F_q. *)
Theorem Share_verifies_and_joins
    (ped : Pedersen) (p q g h secret : Z) (n k : nat)
    (r : Z) (drawS drawT : nat → Z) :
  New (Some p) (Some q) (Some g) (Some h) = inl ped →
  Z.prime q →
  algebra.Contains q secret = true →
  algebra.Contains q r = true →
  (∀ j, algebra.Contains q (drawS j) = true) →
  (∀ j, algebra.Contains q (drawT j) = true) →
  (2 ≤ k ≤ n)%nat →
  Z.of_nat n < q →
  let shares := vss.Share ped secret n k r drawS drawT in
  length shares = n ∧
  (∀ vs, vs ∈ shares → vss.Verify ped vs = Some true) ∧
  (∀ l, NoDup l → l ⊆ vss.share <$> shares → length l = k →
        shamir.Join q l = Some secret).
Proof.
  intros HNew Hq Hs Hr HdS HdT Hk Hn shares.
  pose proof (New_valid _ _ _ _ _ HNew) as Hv.
  destruct (New_fields _ _ _ _ _ HNew) as (_ & Hqq & _ & _).
  pose proof (Z.prime_ge_2 _ Hq).
  split; [|split].
  - unfold shares. by rewrite Share_fmap, length_fmap, length_seq.
  - intros vs Hvs. unfold shares in Hvs. rewrite Share_fmap in Hvs.
    apply list_elem_of_fmap in Hvs as (i & -> & _). cbv beta zeta.
    apply Verify_poly; [done|lia|done| | |].
    + by rewrite !length_NewRandomPolynomial by lia.
    + apply (NewRandomPolynomial_nonneg q); done.
    + apply (NewRandomPolynomial_nonneg q); done.
  - intros l Hnd Hsub Hlen. unfold shares in Hsub.
    rewrite Share_shares, Hqq in Hsub.
    rewrite (Split_Join q Hq (algebra.NewRandomPolynomial k secret drawS) n l);
      [|done|done|done|done|].
    + unfold algebra.NewRandomPolynomial.
      rewrite shamir_facts.Evaluate_0. f_equal.
      apply bool_decide_eq_true in Hs. apply Z.mod_small. lia.
    + rewrite length_NewRandomPolynomial by lia. lia.
Qed.

(** The theorem at the parameters of the spec's scenario: q = 251, the
    scheme (503, 251, 351, 8), secret 17, n = 5, k = 3. *)
Lemma Share_verifies_and_joins_witness :
  let draw := λ j : nat, match j with O => 3 | _ => 5 end in
  let shares := vss.Share ped503 17 5 3 100 draw draw in
  length shares = 5%nat ∧
  (∀ vs, vs ∈ shares → vss.Verify ped503 vs = Some true) ∧
  (∀ l, NoDup l → l ⊆ vss.share <$> shares → length l = 3%nat →
        shamir.Join 251 l = Some 17).
Proof.
  intros draw.
  apply (Share_verifies_and_joins ped503 503 251 351 8 17 5 3 100 draw draw).
  - vm_compute. reflexivity.
  - apply prime_251.
  - reflexivity.
  - reflexivity.
  - intros [|j]; reflexivity.
  - intros [|j]; reflexivity.
  - lia.
  - lia.
Defined.

Definition ped7 : Pedersen := {| p := 7; q := 3; g := 2; h := 4 |}.

(** C3 as stated, for all n ≥ k ≥ 2, fails: in F_3 with n = 4 the shares of
    index 1 and 4 are the same point, and [Join] cannot recover the
    secret from them. *)
Lemma Share_any_n_counterexample :
  ¬ (∀ (ped : Pedersen) (p q g h secret : Z) (n k : nat)
       (r : Z) (drawS drawT : nat → Z),
       New (Some p) (Some q) (Some g) (Some h) = inl ped →
       Z.prime q →
       algebra.Contains q secret = true →
       algebra.Contains q r = true →
       (∀ j, algebra.Contains q (drawS j) = true) →
       (∀ j, algebra.Contains q (drawT j) = true) →
       (2 ≤ k ≤ n)%nat →
       let shares := vss.Share ped secret n k r drawS drawT in
       length shares = n ∧
       (∀ vs, vs ∈ shares → vss.Verify ped vs = Some true) ∧
       (∀ l, NoDup l → l ⊆ vss.share <$> shares → length l = k →
             shamir.Join q l = Some secret)).
Proof.
  intros H.
  specialize (H ped7 7 3 2 4 1 4%nat 2%nat 0 (λ _, 1) (λ _, 1)).
  destruct H as (_ & _ & H);
    [vm_compute; reflexivity|apply Z.prime_3|reflexivity|reflexivity
    |intros; reflexivity|intros; reflexivity|lia|].
  specialize (H [shamir.New 1 2; shamir.New 4 2]).
  assert (Hj : shamir.Join 3 [shamir.New 1 2; shamir.New 4 2] = None)
    by (vm_compute; reflexivity).
  rewrite Hj in H. discriminate H.
  - apply NoDup_cons. split; [|apply NoDup_singleton].
    intros [=]%list_elem_of_singleton.
  - intros x Hx. vm_compute.
    apply elem_of_cons in Hx as [->|Hx];
      [|apply list_elem_of_singleton in Hx as ->].
    + left.
    + do 3 right. left.
  - reflexivity.
Qed.

(** C8.  Let A share a and B share b with the same scheme and the same
    n and k (2 ≤ k ≤ n < q).  Every componentwise sum A[i] + B[i] passes
    [Verify], and [shamir.Join] of any k distinct summed inner shares
    returns a + b mod q. *)
Theorem Add_verifies_and_joins
    (ped : Pedersen) (p q g h a b : Z) (n k : nat)
    (rA rB : Z) (drawA drawTA drawB drawTB : nat → Z) :
  New (Some p) (Some q) (Some g) (Some h) = inl ped →
  Z.prime q →
  algebra.Contains q a = true → algebra.Contains q b = true →
  algebra.Contains q rA = true → algebra.Contains q rB = true →
  (∀ j, algebra.Contains q (drawA j) = true) →
  (∀ j, algebra.Contains q (drawTA j) = true) →
  (∀ j, algebra.Contains q (drawB j) = true) →
  (∀ j, algebra.Contains q (drawTB j) = true) →
  (2 ≤ k ≤ n)%nat →
  Z.of_nat n < q →
  let sharesA := vss.Share ped a n k rA drawA drawTA in
  let sharesB := vss.Share ped b n k rB drawB drawTB in
  let added := zip_with (vss.Add ped) sharesA sharesB in
  length added = n ∧
  (∀ vs, vs ∈ added → vss.Verify ped vs = Some true) ∧
  (∀ l, NoDup l → l ⊆ vss.share <$> added → length l = k →
        shamir.Join q l = Some (algebra.Add q a b)).
Proof.
  intros HNew Hq Ha Hb HrA HrB HdA HdTA HdB HdTB Hk Hn sharesA sharesB added.
  pose proof (New_valid _ _ _ _ _ HNew) as Hv.
  destruct (New_fields _ _ _ _ _ HNew) as (_ & Hqq & _ & _).
  pose proof (Z.prime_ge_2 _ Hq).
  set (fa := algebra.NewRandomPolynomial k a drawA).
  set (fta := algebra.NewRandomPolynomial k rA drawTA).
  set (fb := algebra.NewRandomPolynomial k b drawB).
  set (ftb := algebra.NewRandomPolynomial k rB drawTB).
  assert (Hlfa : length fa = k) by (apply length_NewRandomPolynomial; lia).
  assert (Hlfta : length fta = k) by (apply length_NewRandomPolynomial; lia).
  assert (Hlfb : length fb = k) by (apply length_NewRandomPolynomial; lia).
  assert (Hlftb : length ftb = k) by (apply length_NewRandomPolynomial; lia).
  assert (Hnfa : Forall (λ a, 0 ≤ a) fa) by by apply (NewRandomPolynomial_nonneg q).
  assert (Hnfta : Forall (λ a, 0 ≤ a) fta) by by apply (NewRandomPolynomial_nonneg q).
  assert (Hnfb : Forall (λ a, 0 ≤ a) fb) by by apply (NewRandomPolynomial_nonneg q).
  assert (Hnftb : Forall (λ a, 0 ≤ a) ftb) by by apply (NewRandomPolynomial_nonneg q).
  assert (Hadded : added = poly_vshare ped (padd fa fb) (padd fta ftb) <$> seq 1 n).
  { unfold added, sharesA, sharesB. rewrite !Share_poly_vshare.
    rewrite zip_with_fmap_l, zip_with_fmap_r, zip_with_diag.
    apply list_fmap_ext. intros _ i _.
    apply Add_poly_vshare; (congruence || done). }
  split; [|split].
  - by rewrite Hadded, length_fmap, length_seq.
  - intros vs Hvs. rewrite Hadded in Hvs.
    apply list_elem_of_fmap in Hvs as (i & -> & _).
    apply Verify_poly; [done|lia| | | |].
    + intros Hnil. apply (f_equal length) in Hnil.
      rewrite length_padd in Hnil. simpl in Hnil. lia.
    + rewrite !length_padd. lia.
    + by apply padd_nonneg.
    + by apply padd_nonneg.
  - intros l Hnd Hsub Hlen.
    assert (Hsh : vss.share <$> added = shamir.Split q (padd fa fb) n).
    { rewrite Hadded, <- list_fmap_compose. unfold shamir.Split.
      apply list_fmap_ext. intros _ i _. simpl. by rewrite nat_N_Z, Hqq. }
    rewrite Hsh in Hsub.
    rewrite (Split_Join q Hq (padd fa fb) n l); [|  |done|done|done|].
    + unfold fa, fb, algebra.NewRandomPolynomial. cbn [padd].
      by rewrite shamir_facts.Evaluate_0.
    + intros Hnil. apply (f_equal length) in Hnil.
      rewrite length_padd in Hnil. simpl in Hnil. lia.
    + rewrite length_padd. lia.
Qed.

(** The theorem at the scheme (503, 251, 351, 8) with a = 17, b = 240,
    n = 5 and k = 3: the sums reconstruct 6 = 257 mod 251. *)
Lemma Add_verifies_and_joins_witness :
  let dA := λ j : nat, match j with O => 3 | _ => 5 end in
  let dB := λ j : nat, match j with O => 250 | _ => 0 end in
  let added := zip_with (vss.Add ped503)
                 (vss.Share ped503 17 5 3 100 dA dB)
                 (vss.Share ped503 240 5 3 200 dB dA) in
  length added = 5%nat ∧
  (∀ vs, vs ∈ added → vss.Verify ped503 vs = Some true) ∧
  (∀ l, NoDup l → l ⊆ vss.share <$> added → length l = 3%nat →
        shamir.Join 251 l = Some 6).
Proof.
  intros dA dB.
  apply (Add_verifies_and_joins ped503 503 251 351 8 17 240 5 3 100 200 dA dB dB dA).
  - vm_compute. reflexivity.
  - apply prime_251.
  - reflexivity.
  - reflexivity.
  - reflexivity.
  - reflexivity.
  - intros [|j]; reflexivity.
  - intros [|j]; reflexivity.
  - intros [|j]; reflexivity.
  - intros [|j]; reflexivity.
  - lia.
  - lia.
Defined.

(** C8 as stated, for every output of [Share], fails for the same reason
    as C3: in F_3 with n = 4 the summed shares of index 1 and 4 are the
    same point, and [Join] cannot recover a + b from them. *)
Lemma Add_any_n_counterexample :
  ¬ (∀ (ped : Pedersen) (p q g h a b : Z) (n k : nat)
       (rA rB : Z) (drawA drawTA drawB drawTB : nat → Z),
       New (Some p) (Some q) (Some g) (Some h) = inl ped →
       Z.prime q →
       algebra.Contains q a = true → algebra.Contains q b = true →
       algebra.Contains q rA = true → algebra.Contains q rB = true →
       (∀ j, algebra.Contains q (drawA j) = true) →
       (∀ j, algebra.Contains q (drawTA j) = true) →
       (∀ j, algebra.Contains q (drawB j) = true) →
       (∀ j, algebra.Contains q (drawTB j) = true) →
       (2 ≤ k ≤ n)%nat →
       let sharesA := vss.Share ped a n k rA drawA drawTA in
       let sharesB := vss.Share ped b n k rB drawB drawTB in
       let added := zip_with (vss.Add ped) sharesA sharesB in
       length added = n ∧
       (∀ vs, vs ∈ added → vss.Verify ped vs = Some true) ∧
       (∀ l, NoDup l → l ⊆ vss.share <$> added → length l = k →
             shamir.Join q l = Some (algebra.Add q a b))).
Proof.
  intros H.
  specialize (H ped7 7 3 2 4 1 1 4%nat 2%nat 0 0
                (λ _, 1) (λ _, 1) (λ _, 2) (λ _, 1)).
  destruct H as (_ & _ & H);
    [vm_compute; reflexivity|apply Z.prime_3|reflexivity..
    |intros; reflexivity|intros; reflexivity|intros; reflexivity
    |intros; reflexivity|lia|].
  specialize (H [shamir.New 1 2; shamir.New 4 2]).
  assert (Hj : shamir.Join 3 [shamir.New 1 2; shamir.New 4 2] = None)
    by (vm_compute; reflexivity).
  rewrite Hj in H. discriminate H.
  - apply NoDup_cons. split; [|apply NoDup_singleton].
    intros [=]%list_elem_of_singleton.
  - intros x Hx. vm_compute.
    apply elem_of_cons in Hx as [->|Hx];
      [|apply list_elem_of_singleton in Hx as ->].
    + left.
    + do 3 right. left.
  - reflexivity.
Qed.

End vss_props.

(** ** The multiplication task *)

Module mul_examples.
Import mul.

(** k = 2, n = 3, this player has index 1.  x and y are shared on the line
    1 + t, ρ and σ share 0 on the zero polynomial, so the opened shares
    are the points of (1 + t)^2: 4, 9 and 16 at the indices 1, 2 and 3. *)
Definition id0 : task.MessageID := replicate 40 0%N.
Definition m0 : multiplier := newMultiplier 1 3 2 8.
(** The runtime of the examples makes slices of up to 2^32 shares. *)
Definition alloc0 : N := 2 ^ 32.
Definition mul0 : Mul :=
  NewMul id0 [shamir.New 1 2] [shamir.New 1 2] [shamir.New 1 0] [shamir.New 1 0].
Definition open2 : OpenMul := NewOpenMul id0 2 [shamir.New 2 9].
Definition open3 : OpenMul := NewOpenMul id0 3 [shamir.New 3 16].

Example run_mul_first :
  emitted id0 ∘ snd <$> run 251 alloc0 m0 [MMul mul0; MOpenMul open2; MOpenMul open3]
  = Some [NewResult id0 [shamir.New 1 250]].
Proof. vm_compute. reflexivity. Qed.

Example run_mul_between :
  emitted id0 ∘ snd <$> run 251 alloc0 m0 [MOpenMul open3; MMul mul0; MOpenMul open2]
  = Some [NewResult id0 [shamir.New 1 249]].
Proof. vm_compute. reflexivity. Qed.

Example run_mul_twice :
  emitted id0 ∘ snd <$> run 251 alloc0 m0 [MMul mul0; MOpenMul open2; MMul mul0]
  = Some [NewResult id0 [shamir.New 1 250]; NewResult id0 [shamir.New 1 250]].
Proof. vm_compute. reflexivity. Qed.

End mul_examples.

Module mul_facts.
Import mul.

(** The openings stored for [id] once [message] is recorded. *)
Definition stored (m : multiplier) (message : OpenMul) : gmap N OpenMul :=
  <[From message := message]> (default ∅ (opens m !! OpenMul_MessageID message)).

(** The state after the first two statements of [tryOpenMul]. *)
Definition recorded (m : multiplier) (message : OpenMul) : multiplier :=
  {| index := index m; n := n m; k := k m; muls := muls m;
     opens := <[OpenMul_MessageID message := stored m message]> (opens m);
     results := results m |}.

(** The state after a result has been produced. *)
Definition completed (m : multiplier) (message : OpenMul) (result : Result)
    : multiplier :=
  {| index := index m; n := n m; k := k m;
     muls := delete (OpenMul_MessageID message) (muls m);
     opens := delete (OpenMul_MessageID message)
                (<[OpenMul_MessageID message := stored m message]> (opens m));
     results := <[OpenMul_MessageID message := result]> (results m) |}.

(** The share computed at a batch position does not depend on the order
    in which the iteration over the map hands out the stored openings. *)
Lemma openShare_Permutation q alloc nn (openings openings' : list OpenMul) σs b :
  openings ≡ₚ openings' →
  openShare q alloc nn openings σs b = openShare q alloc nn openings' σs b.
Proof.
  intros Hperm. unfold openShare.
  rewrite <- (Permutation_length Hperm).
  destruct (decide (nn ≤ alloc)%N); [|done].
  destruct (decide _); [|done].
  pose proof (shamir_facts.mapM_Permutation
    (λ opening, Shares opening !! b) openings openings' Hperm) as Hm.
  destruct (mapM _ openings), (mapM _ openings'); try done.
  cbn. by rewrite (shamir_facts.Join_Permutation q _ _ Hm).
Qed.

(** [tryOpenMul] either panics, records the opening and returns nil, or
    produces a result from the recorded openings. *)
Lemma tryOpenMul_cases q alloc m message :
  tryOpenMul q alloc m message = None ∨
  tryOpenMul q alloc m message = Some (recorded m message, MNil) ∨
  ∃ signal shares,
    (k m ≤ N.of_nat (size (stored m message)))%N ∧
    muls m !! OpenMul_MessageID message = Some signal ∧
    results m !! OpenMul_MessageID message = None ∧
    mapM (openShare q alloc (n m) (map_to_list (stored m message)).*2 (σs signal))
      (seq 0 (length (Shares message))) = Some shares ∧
    tryOpenMul q alloc m message =
      Some (completed m message (NewResult (OpenMul_MessageID message) shares),
            MResult (NewResult (OpenMul_MessageID message) shares)).
Proof.
  unfold tryOpenMul. fold (stored m message). cbn [muls results].
  case_decide as Hk; [right; left; done|].
  destruct (muls m !! _) as [signal|] eqn:Hs; [|right; left; done].
  destruct (results m !! _) as [r|] eqn:Hr; [right; left; done|].
  destruct (mapM _ _) as [shares|] eqn:Hm; [|left; done].
  right; right. exists signal, shares. simpl. repeat split; try done. lia.
Qed.

(** Once the result for [id] is cached, [tryOpenMul] only records. *)
Lemma tryOpenMul_cached q alloc m message r :
  results m !! OpenMul_MessageID message = Some r →
  tryOpenMul q alloc m message = Some (recorded m message, MNil).
Proof.
  intros Hr. unfold tryOpenMul. fold (stored m message). cbn [muls results].
  case_decide; [done|]. destruct (muls m !! _); [|done]. by rewrite Hr.
Qed.

Lemma openShare_Some q alloc nn openings σs b share :
  openShare q alloc nn openings σs b = Some share →
  ∃ sharesCache value σ,
    mapM (λ opening, Shares opening !! b) openings = Some sharesCache ∧
    shamir.Join q sharesCache = Some value ∧
    σs !! b = Some σ ∧
    share = shamir.Sub q (shamir.New (shamir.Index σ) value) σ.
Proof.
  unfold openShare. case_decide; [|done]. case_decide; [|done].
  destruct (mapM _ openings) as [cache|] eqn:Hc; [|done]. simpl.
  destruct (shamir.Join q cache) as [value|] eqn:Hj; [|done]. simpl.
  destruct (σs !! b) as [σ|] eqn:Hσ; [|done]. simpl. intros [= <-].
  by exists cache, value, σ.
Qed.

Lemma Join_Some_NoDup q shares value :
  shamir.Join q shares = Some value →
  shares ≠ [] ∧ NoDup (shamir.Index <$> shares).
Proof.
  unfold shamir.Join. case_decide; [done|]. case_decide; done.
Qed.

(** *** Runs with consistent openings

    The openings of one multiplication are consistent when, at every
    batch position b, the share of the sender j is the point of index j on
    one polynomial P_b with at most k coefficients. *)

Section consistent.

Variable q : Z.
Variables index0 n0 k0 : N.
Variable id : task.MessageID.
(** The polynomials of the batch positions. *)
Variable P : list (list Z).
(** The [Mul] signal of this multiplication. *)
Variable signal : Mul.

(** The shares a sender opens. *)
Definition opening (from : N) : list shamir.Share :=
  (λ Pb, shamir.New from (algebra.Evaluate q Pb (Z.of_N from))) <$> P.

Definition consistentOpen (from : N) : OpenMul := NewOpenMul id from (opening from).

(** The result of the multiplication: at every batch position the share
    of P_b(0) at the index of σ_b, minus σ_b. *)
Definition expected : Result :=
  NewResult id
    (zip_with (λ Pb σ,
       shamir.Sub q (shamir.New (shamir.Index σ) (algebra.Evaluate q Pb 0)) σ)
       P (σs signal)).

(** A message of a consistent run: the signal for [id] is [signal], and an
    opening for [id] comes from a sender in 1..n with its shares on the
    polynomials.  Messages for other ids are not constrained. *)
Definition consistent (message : Message) : Prop :=
  match message with
  | MMul message => Mul_MessageID message = id → message = signal
  | MOpenMul message =>
      OpenMul_MessageID message = id →
      (1 ≤ From message ≤ n0)%N ∧ Shares message = opening (From message)
  | _ => False
  end.

Definition forId (message : Message) : Prop :=
  match message with
  | MMul message => Mul_MessageID message = id
  | MOpenMul message => OpenMul_MessageID message = id
  | _ => False
  end.

(** Whether the messages hold the signal for [id], how often, and the
    senders of the openings for [id], the multiplier's own included once
    the signal is there. *)
Fixpoint signals (messages : list Message) : nat :=
  match messages with
  | [] => 0
  | MMul message :: rest =>
      (if decide (Mul_MessageID message = id) then 1 else 0) + signals rest
  | _ :: rest => signals rest
  end.

Fixpoint senders (messages : list Message) : gset N :=
  match messages with
  | [] => ∅
  | MMul message :: rest =>
      (if decide (Mul_MessageID message = id) then {[ index0 ]} else ∅) ∪ senders rest
  | MOpenMul message :: rest =>
      (if decide (OpenMul_MessageID message = id) then {[ From message ]} else ∅)
      ∪ senders rest
  | _ :: rest => senders rest
  end.

(** Both conditions of a result: the signal and k distinct senders. *)
Definition quorum (signalled : bool) (S : gset N) : bool :=
  signalled && bool_decide (k0 ≤ N.of_nat (size S))%N.

End consistent.

End mul_facts.

Module mul_consistent.
Import mul mul_facts.

(** A set of indices in 1..n has at most n elements. *)
Lemma size_bounded (S : gset N) (n : N) :
  (∀ j, j ∈ S → (1 ≤ j ≤ n)%N) → (N.of_nat (size S) ≤ n)%N.
Proof.
  intros HS.
  assert (Hsub : S ⊆ list_to_set (N.of_nat <$> seq 1 (N.to_nat n))).
  { intros j Hj. apply elem_of_list_to_set, list_elem_of_fmap.
    exists (N.to_nat j). split; [lia|]. apply elem_of_seq.
    specialize (HS j Hj). lia. }
  apply subseteq_size in Hsub. rewrite size_list_to_set in Hsub.
  - rewrite length_fmap, length_seq in Hsub. lia.
  - apply NoDup_fmap_2; [intros x y; apply Nat2N.inj|apply NoDup_seq].
Qed.

(** The shares of the senders [keys] at the batch position of [Pb] join to
    Pb(0). *)
Lemma Join_opened (q : Z) (n0 : N) (keys : list N) (Pb : list Z) :
  Z.prime q → Z.of_N n0 < q →
  keys ≠ [] → NoDup keys → (∀ j, j ∈ keys → (1 ≤ j ≤ n0)%N) →
  (length Pb ≤ length keys)%nat →
  shamir.Join q ((λ j, shamir.New j (algebra.Evaluate q Pb (Z.of_N j))) <$> keys)
  = Some (algebra.Evaluate q Pb 0).
Proof.
  intros Hq Hn Hne Hnd Hrange Hlen.
  apply shamir_facts.Join_correct; [done| | |by rewrite length_fmap|].
  - by destruct keys.
  - rewrite <- list_fmap_compose.
    apply NoDup_fmap_2_strong; [|done].
    intros i j Hi Hj. unfold shamir.xcoord. simpl.
    pose proof (Hrange i Hi). pose proof (Hrange j Hj).
    rewrite !Z.mod_small by lia. lia.
  - intros s (j & -> & _)%list_elem_of_fmap. done.
Qed.

Lemma signals_cons (id : task.MessageID) message rest :
  signals id (message :: rest) = (signals id [message] + signals id rest)%nat.
Proof.
  destruct message; simpl; try done. lia.
Qed.

Lemma senders_cons (index0 : N) (id : task.MessageID) message rest :
  senders index0 id (message :: rest) =
  senders index0 id [message] ∪ senders index0 id rest.
Proof.
  destruct message; simpl; rewrite ?(right_id_L ∅ (∪)), ?(left_id_L ∅ (∪)); done.
Qed.

Lemma signals_Permutation (id : task.MessageID) trace trace' :
  trace ≡ₚ trace' → signals id trace = signals id trace'.
Proof.
  induction 1 as [|x l l' _ IH|x y l|l l' l'' _ IH1 _ IH2]; [done| | |congruence].
  - by rewrite (signals_cons id x l), (signals_cons id x l'), IH.
  - rewrite (signals_cons id y (x :: l)), (signals_cons id x l),
      (signals_cons id x (y :: l)), (signals_cons id y l). lia.
Qed.

Lemma senders_Permutation (index0 : N) (id : task.MessageID) trace trace' :
  trace ≡ₚ trace' → senders index0 id trace = senders index0 id trace'.
Proof.
  induction 1 as [|x l l' _ IH|x y l|l l' l'' _ IH1 _ IH2]; [done| | |congruence].
  - by rewrite (senders_cons _ _ x l), (senders_cons _ _ x l'), IH.
  - rewrite (senders_cons _ _ y (x :: l)), (senders_cons _ _ x l),
      (senders_cons _ _ x (y :: l)), (senders_cons _ _ y l).
    rewrite !(assoc_L (∪)). f_equal. apply (comm_L (∪)).
Qed.

Section consistent.

Variable q : Z.
Variable alloc : N.
Variables index0 n0 k0 : N.
Variable id : task.MessageID.
Variable P : list (list Z).
Variable signal : Mul.

Hypothesis Hq : Z.prime q.
Hypothesis Hn : Z.of_N n0 < q.
(** The cache of n shares can be made. *)
Hypothesis Halloc : (n0 ≤ alloc)%N.
Hypothesis Hdeg : Forall (λ Pb, (N.of_nat (length Pb) ≤ k0)%N) P.
Hypothesis Hσs : length (σs signal) = length P.

Abbreviation opening := (opening q P).
Abbreviation consistentOpen := (consistentOpen q id P).
Abbreviation expected := (expected q id P signal).

(** The body of the second loop of [tryOpenMul] on consistent openings. *)
Lemma openShare_consistent (keys : list N) (b : nat) (Pb : list Z) (σ : shamir.Share) :
  keys ≠ [] → NoDup keys → (∀ j, j ∈ keys → (1 ≤ j ≤ n0)%N) →
  (k0 ≤ N.of_nat (length keys))%N →
  P !! b = Some Pb → σs signal !! b = Some σ →
  openShare q alloc n0 (consistentOpen <$> keys) (σs signal) b =
  Some (shamir.Sub q (shamir.New (shamir.Index σ) (algebra.Evaluate q Pb 0)) σ).
Proof using All.
  intros Hne Hnd Hrange Hk HPb Hσ. unfold openShare.
  rewrite length_fmap.
  rewrite (decide_True (P := (n0 ≤ alloc)%N)) by done.
  rewrite decide_True.
  2:{ rewrite <- (size_list_to_set (C := gset N)) by done.
      apply size_bounded. intros j Hj. apply Hrange.
      by apply elem_of_list_to_set in Hj. }
  rewrite (shamir_facts.mapM_Some_fmap _
             (λ o, shamir.New (From o) (algebra.Evaluate q Pb (Z.of_N (From o))))).
  2:{ intros o (j & -> & _)%list_elem_of_fmap. simpl.
      unfold mul_facts.opening. by rewrite list_lookup_fmap, HPb. }
  simpl. rewrite <- list_fmap_compose.
  erewrite (list_fmap_ext _ (λ j, shamir.New j (algebra.Evaluate q Pb (Z.of_N j))));
    [|done].
  rewrite (Join_opened q n0); [|done..|].
  - simpl. by rewrite Hσ.
  - rewrite Forall_forall in Hdeg.
    pose proof (Hdeg Pb (list_elem_of_lookup_2 _ _ _ HPb)). lia.
Qed.

(** The openings stored for [id] are the consistent openings of the
    senders [S]. *)
Definition storedFor (st : gmap N OpenMul) (S : gset N) : Prop :=
  ∀ j, st !! j = if decide (j ∈ S) then Some (consistentOpen j) else None.

Lemma storedFor_dom st S : storedFor st S → dom st = S.
Proof using All.
  intros Hst. apply set_eq. intros j. rewrite elem_of_dom, (Hst j).
  destruct (decide (j ∈ S)); split; done.
Qed.

Lemma storedFor_size st S : storedFor st S → size st = size S.
Proof using All.
  intros Hst. by rewrite <- (storedFor_dom st S Hst), size_dom.
Qed.

Lemma storedFor_insert st S from :
  storedFor st S →
  storedFor (<[from := consistentOpen from]> st) ({[ from ]} ∪ S).
Proof using All.
  intros Hst j. destruct (decide (j = from)) as [->|Hne].
  - rewrite lookup_insert_eq, decide_True by set_solver. done.
  - rewrite lookup_insert_ne by done. rewrite (Hst j).
    destruct (decide (j ∈ S)).
    + rewrite decide_True; [done|set_solver].
    + rewrite decide_False; [done|].
      intros [?%elem_of_singleton|?]%elem_of_union; done.
Qed.

Lemma storedFor_openings st S :
  storedFor st S →
  (map_to_list st).*2 = consistentOpen <$> (map_to_list st).*1.
Proof using All.
  intros Hst.
  assert (Hall : Forall (λ jo, jo.2 = consistentOpen jo.1) (map_to_list st)).
  { apply Forall_forall. intros [j o] Hjo. apply elem_of_map_to_list in Hjo.
    rewrite (Hst j) in Hjo. case_decide; [|done]. simpl. congruence. }
  revert Hall. generalize (map_to_list st). intros l Hall.
  induction Hall as [|[j o] l Hjo _ IH]; [done|].
  rewrite !fmap_cons, IH. simpl in *. by rewrite Hjo.
Qed.

Lemma storedFor_keys st S :
  storedFor st S →
  NoDup (map_to_list st).*1 ∧
  (∀ j, j ∈ (map_to_list st).*1 → j ∈ S) ∧
  length (map_to_list st).*1 = size S.
Proof using All.
  intros Hst. split; [apply NoDup_fst_map_to_list|]. split.
  - intros j ([j' o] & -> & Hjo)%list_elem_of_fmap. simpl.
    apply elem_of_map_to_list in Hjo. rewrite (Hst j') in Hjo.
    by case_decide.
  - rewrite length_fmap, length_map_to_list. by apply storedFor_size.
Qed.

(** With the senders [S] stored, at least k of them, the second loop of
    [tryOpenMul] computes the shares of the expected result. *)
Lemma result_shares st S :
  storedFor st S → S ≠ ∅ → (∀ j, j ∈ S → (1 ≤ j ≤ n0)%N) →
  (k0 ≤ N.of_nat (size S))%N →
  mapM (openShare q alloc n0 (map_to_list st).*2 (σs signal)) (seq 0 (length P))
  = Some (Result_Shares expected).
Proof using All.
  intros Hst Hne Hrange Hk.
  destruct (storedFor_keys st S Hst) as (Hnd & Hin & Hlen).
  rewrite (storedFor_openings st S Hst).
  apply mapM_Some_2, Forall2_same_length_lookup_2.
  - simpl. rewrite length_seq, length_zip_with. lia.
  - intros b b' share Hb Hshare. apply lookup_seq in Hb as [-> _].
    simpl in Hshare. apply lookup_zip_with_Some in Hshare
      as (Pb & σ & -> & HPb & Hσ). simpl.
    apply openShare_consistent; try done.
    + intros Hnil. rewrite Hnil in Hlen. simpl in Hlen.
      symmetry in Hlen. apply size_empty_inv in Hlen. apply Hne.
      by apply leibniz_equiv.
    + intros j Hj. by apply Hrange, Hin.
    + by rewrite Hlen.
Qed.

Hypothesis Hindex : (1 ≤ index0 ≤ n0)%N.
Hypothesis Hsignal : Mul_MessageID signal = id.
Hypothesis Hown : mulShares q signal = Some (opening index0).

Abbreviation quorum := (quorum k0).

(** *** The invariant of a consistent run *)

Definition Base (m : multiplier) : Prop :=
  index m = index0 ∧ n m = n0 ∧ k m = k0 ∧
  ∀ id' r, results m !! id' = Some r → Result_MessageID r = id'.

(** No result yet: the signal is stored iff it was received, and the
    openings stored are those of the senders so far. *)
Definition Pending (m : multiplier) (signalled : bool) (S : gset N) : Prop :=
  results m !! id = None ∧
  muls m !! id = (if signalled then Some signal else None) ∧
  storedFor (default ∅ (opens m !! id)) S.

(** The result is cached exactly when both conditions have been met. *)
Definition Inv (m : multiplier) (signalled : bool) (S : gset N) : Prop :=
  Base m ∧ (∀ j, j ∈ S → (1 ≤ j ≤ n0)%N) ∧
  if quorum signalled S then results m !! id = Some expected
  else Pending m signalled S.

Lemma emitted_nil : emitted id [MNil] = [].
Proof using All. reflexivity. Qed.

Lemma emitted_expected : emitted id [MResult expected] = [expected].
Proof using All.
  unfold emitted. simpl. rewrite filter_cons, decide_True by done. done.
Qed.

Lemma emitted_other r : Result_MessageID r ≠ id → emitted id [MResult r] = [].
Proof using All.
  intros Hne. unfold emitted. simpl. by rewrite filter_cons, decide_False.
Qed.

Lemma emitted_batch out message :
  emitted id [MessageBatch [out; MOpenMul message]] = emitted id [out].
Proof using All.
  unfold emitted. simpl. by rewrite !app_nil_r.
Qed.

Lemma emitted_cons out outs :
  emitted id (out :: outs) = emitted id [out] ++ emitted id outs.
Proof using All.
  unfold emitted. simpl. by rewrite app_nil_r, filter_app.
Qed.

Lemma quorum_mono signalled signalled' S S' :
  quorum signalled S = true → (signalled = true → signalled' = true) → S ⊆ S' →
  quorum signalled' S' = true.
Proof using All.
  unfold mul_facts.quorum. intros [-> Hk%bool_decide_eq_true]%andb_true_iff Hs Hsub.
  rewrite Hs by done. simpl. apply bool_decide_eq_true.
  apply subseteq_size in Hsub. lia.
Qed.

(** An opening of a consistent sender, received while no result is
    cached: the result is produced exactly when the quorum is reached. *)
Lemma tryOpenMul_consistent m signalled S from :
  Base m → Pending m signalled S → (∀ j, j ∈ S → (1 ≤ j ≤ n0)%N) →
  (1 ≤ from ≤ n0)%N →
  ∃ m' out,
    tryOpenMul q alloc m (consistentOpen from) = Some (m', out) ∧
    Inv m' signalled ({[ from ]} ∪ S) ∧
    emitted id [out] =
      if quorum signalled ({[ from ]} ∪ S) then [expected] else [].
Proof using All.
  intros (Hi & Hn' & Hk & Hwf) (Hres & Hmuls & Hst) Hrange Hfrom.
  destruct m as [mi mn mk mmuls mopens mresults].
  simpl in Hi, Hn', Hk, Hwf, Hres, Hmuls, Hst. subst mi mn mk.
  set (m := {| index := index0; n := n0; k := k0; muls := mmuls;
               opens := mopens; results := mresults |}).
  set (S' := {[ from ]} ∪ S).
  assert (Hst' : storedFor (stored m (consistentOpen from)) S')
    by (by apply storedFor_insert).
  assert (Hrange' : ∀ j, j ∈ S' → (1 ≤ j ≤ n0)%N).
  { intros j [->%elem_of_singleton|Hj]%elem_of_union; [done|by apply Hrange]. }
  pose proof (storedFor_size _ _ Hst') as Hsize.
  assert (Hrec : Pending (recorded m (consistentOpen from)) signalled S').
  { split; [done|]. split; [done|]. simpl. by rewrite lookup_insert_eq. }
  assert (HbaseR : Base (recorded m (consistentOpen from))) by done.
  unfold tryOpenMul. fold (stored m (consistentOpen from)).
  cbn [OpenMul_MessageID mul_facts.consistentOpen muls results Shares k n index m].
  fold m. fold (recorded m (consistentOpen from)).
  rewrite Hsize, Hmuls, Hres.
  unfold mul_facts.quorum.
  case_decide as Hlt.
  { exists (recorded m (consistentOpen from)), MNil. split; [done|].
    rewrite bool_decide_eq_false_2, andb_false_r by lia.
    split; [|done]. split; [done|]. split; [done|].
    unfold mul_facts.quorum. by rewrite bool_decide_eq_false_2, andb_false_r by lia. }
  rewrite bool_decide_eq_true_2 by lia. rewrite andb_true_r.
  destruct signalled.
  2:{ exists (recorded m (consistentOpen from)), MNil. split; [done|].
      split; [|done]. split; [done|]. split; [done|]. done. }
  unfold mul_facts.opening. rewrite length_fmap.
  rewrite (result_shares _ S' Hst');
    [|apply (non_empty_inhabited_L from), elem_of_union; left;
      by apply elem_of_singleton|done|lia].
  simpl. eexists _, _. split; [done|]. split; [|apply emitted_expected].
  split; [|split; [done|]].
  - repeat split; try done. simpl. intros id' r.
    destruct (decide (id = id')) as [<-|Hne].
    + rewrite lookup_insert_eq. by intros [= <-].
    + rewrite lookup_insert_ne by done. apply Hwf.
  - unfold mul_facts.quorum. rewrite bool_decide_eq_true_2 by lia.
    simpl. by rewrite lookup_insert_eq.
Qed.

(** A state that agrees with [m] on [id] satisfies what [m] satisfies. *)
Lemma Inv_frame m m' signalled S :
  Inv m signalled S → Base m' →
  results m' !! id = results m !! id →
  muls m' !! id = muls m !! id →
  opens m' !! id = opens m !! id →
  Inv m' signalled S.
Proof using All.
  intros (_ & Hrange & Hm) Hbase Hr Hmu Ho. split; [done|]. split; [done|].
  destruct (quorum signalled S).
  - by rewrite Hr.
  - destruct Hm as (? & ? & ?). unfold Pending. by rewrite Hr, Hmu, Ho.
Qed.

(** An opening for another id leaves the multiplication [id] alone. *)
Lemma tryOpenMul_other m message m' out signalled S :
  OpenMul_MessageID message ≠ id →
  Inv m signalled S →
  tryOpenMul q alloc m message = Some (m', out) →
  Inv m' signalled S ∧ emitted id [out] = [].
Proof using All.
  intros Hne HInv Htry. pose proof HInv as ((Hi & Hn' & Hk & Hwf) & _).
  destruct (tryOpenMul_cases q alloc m message)
    as [H|[H|(sg & shares & _ & _ & _ & _ & H)]];
    rewrite H in Htry; [done|..]; injection Htry as <- <-.
  - split; [|done]. apply (Inv_frame m); [done|done|done|done|].
    simpl. by rewrite lookup_insert_ne.
  - split; [|by apply emitted_other].
    apply (Inv_frame m); [done| | | |].
    + repeat split; try done. simpl. intros id' r.
      destruct (decide (OpenMul_MessageID message = id')) as [<-|Hne'].
      * rewrite lookup_insert_eq. by intros [= <-].
      * rewrite lookup_insert_ne by done. apply Hwf.
    + simpl. by rewrite lookup_insert_ne.
    + simpl. by rewrite lookup_delete_ne.
    + simpl. by rewrite lookup_delete_ne, lookup_insert_ne.
Qed.

(** The signal of another multiplication leaves [id] alone. *)
Lemma mul_other m message m' out signalled S :
  Mul_MessageID message ≠ id →
  Inv m signalled S →
  mul q alloc m message = Some (m', out) →
  Inv m' signalled S ∧ emitted id [out] = [].
Proof using All.
  intros Hne HInv Hmul. pose proof HInv as (Hbase & _).
  pose proof Hbase as (Hi & Hn' & Hk & Hwf).
  unfold mul in Hmul.
  destruct (results m !! Mul_MessageID message) as [r|] eqn:Hr.
  - injection Hmul as <- <-. split; [done|].
    apply emitted_other. by rewrite (Hwf _ _ Hr).
  - destruct (mulShares q message) as [shares|]; [|done]. simpl in Hmul.
    match type of Hmul with
    | context [tryOpenMul q alloc ?m1 ?o] =>
        destruct (tryOpenMul q alloc m1 o) as [[m2 out2]|] eqn:Htry; [|done];
        assert (HInv1 : Inv m1 signalled S)
    end.
    { apply (Inv_frame m); [done|done|done| |done].
      simpl. by rewrite lookup_insert_ne. }
    simpl in Hmul. injection Hmul as <- <-.
    destruct (tryOpenMul_other _ (NewOpenMul (Mul_MessageID message) (index m) shares)
                _ _ signalled S Hne HInv1 Htry) as [HInv2 Hem].
    split; [done|]. by rewrite emitted_batch.
Qed.

(** The signal of [id], received for the first time. *)
Lemma mul_consistent m S :
  Inv m false S →
  ∃ m' out,
    mul q alloc m signal = Some (m', out) ∧
    Inv m' true ({[ index0 ]} ∪ S) ∧
    emitted id [out] = if quorum true ({[ index0 ]} ∪ S) then [expected] else [].
Proof using All.
  intros (Hbase & Hrange & Hm). simpl in Hm. destruct Hm as (Hres & Hmuls & Hst).
  pose proof Hbase as (Hi & Hn' & Hk & Hwf).
  unfold mul. rewrite Hsignal, Hres, Hown. simpl. rewrite Hi.
  match goal with
  | |- context [tryOpenMul q alloc ?m1 _] =>
      destruct (tryOpenMul_consistent m1 true S index0) as (m' & out & Htry & HInv & Hem)
  end.
  - done.
  - split; [done|]. split; [|done]. simpl. by rewrite lookup_insert_eq.
  - done.
  - done.
  - unfold mul_facts.consistentOpen in Htry. rewrite Htry. simpl.
    exists m', (MessageBatch [out; MOpenMul (NewOpenMul id index0 (opening index0))]).
    split; [done|]. split; [done|]. by rewrite emitted_batch.
Qed.

Abbreviation consistent := (mul_facts.consistent q n0 id P signal).
Abbreviation forId := (mul_facts.forId id).
Abbreviation signals := (mul_facts.signals id).
Abbreviation senders := (mul_facts.senders index0 id).

(** One message of a consistent run. *)
Lemma Reduce_consistent m signalled S message :
  Inv m signalled S → consistent message →
  (signals [message] + (if signalled then 1 else 0) ≤ 1)%nat →
  (forId message → is_Some (Reduce q alloc m message)) ∧
  (∀ m' out, Reduce q alloc m message = Some (m', out) →
     Inv m' (signalled || bool_decide (0 < signals [message])%nat)
            (senders [message] ∪ S) ∧
     emitted id [out] =
       if quorum (signalled || bool_decide (0 < signals [message])%nat)
                 (senders [message] ∪ S) && negb (quorum signalled S)
       then [expected] else []).
Proof using All.
  intros HInv Hcons Hcount.
  destruct message as [|message|message| |]; try done; simpl in *.
  - (* the signal *)
    destruct (decide (Mul_MessageID message = id)) as [Hid|Hid].
    + rewrite (Hcons Hid). destruct signalled; [simpl in Hcount; lia|].
      simpl. rewrite (right_id_L ∅ (∪)).
      destruct (mul_consistent m S HInv) as (m1 & out1 & Hmul & HInv1 & Hem).
      split; [by rewrite Hmul|]. intros m' out. rewrite Hmul. intros [= <- <-].
      split; [done|]. rewrite Hem. by rewrite andb_true_r.
    + rewrite (left_id_L ∅ (∪)), (left_id_L ∅ (∪)), orb_false_r.
      split; [done|]. intros m' out Hmul.
      destruct (mul_other _ _ _ _ signalled S Hid HInv Hmul) as [HInv' Hem].
      split; [done|]. rewrite Hem. by destruct (quorum signalled S).
  - (* an opening *)
    rewrite orb_false_r.
    destruct (decide (OpenMul_MessageID message = id)) as [Hid|Hid].
    + destruct (Hcons Hid) as [Hfrom Hshares].
      assert (Hmsg : message = consistentOpen (From message)).
      { destruct message. simpl in *. by subst. }
      rewrite (right_id_L ∅ (∪)).
      pose proof HInv as (Hbase & Hrange & Hm).
      destruct (quorum signalled S) eqn:Hquorum.
      * rewrite (tryOpenMul_cached q alloc m message expected) by (by rewrite Hid).
        split; [done|]. intros m' out [= <- <-].
        rewrite andb_false_r. split; [|done].
        split; [done|]. split.
        { intros j [->%elem_of_singleton|Hj]%elem_of_union; [done|by apply Hrange]. }
        rewrite (quorum_mono signalled signalled S); [done|done|done|].
        intros x Hx. apply elem_of_union. by right.
      * rewrite Hmsg.
        destruct (tryOpenMul_consistent m signalled S (From message))
          as (m1 & out1 & Htry & HInv1 & Hem); [done..|].
        rewrite Htry. split; [done|]. intros m' out [= <- <-].
        split; [done|]. by rewrite andb_true_r.
    + rewrite (left_id_L ∅ (∪)), (left_id_L ∅ (∪)).
      split; [done|]. intros m' out Htry.
      destruct (tryOpenMul_other _ _ _ _ signalled S Hid HInv Htry) as [HInv' Hem].
      split; [done|]. rewrite Hem. by destruct (quorum signalled S).
Qed.

(** A consistent run from a state that satisfies the invariant. *)
Lemma run_consistent trace : ∀ m signalled S,
  Inv m signalled S → Forall consistent trace →
  (signals trace + (if signalled then 1 else 0) ≤ 1)%nat →
  (Forall forId trace → is_Some (run q alloc m trace)) ∧
  (∀ m' outs, run q alloc m trace = Some (m', outs) →
     emitted id outs =
       if quorum (signalled || bool_decide (0 < signals trace)%nat)
                 (senders trace ∪ S) && negb (quorum signalled S)
       then [expected] else []).
Proof using All.
  induction trace as [|message rest IH]; intros m signalled S HInv Hcons Hcount.
  - split; [done|]. intros m' outs [= <- <-]. simpl.
    rewrite orb_false_r, (left_id_L ∅ (∪)).
    by destruct (quorum signalled S).
  - apply Forall_cons in Hcons as [Hmsg Hrest].
    rewrite signals_cons in Hcount.
    destruct (Reduce_consistent m signalled S message HInv Hmsg ltac:(lia))
      as [Hprog Hstep].
    set (signalled1 := signalled || bool_decide (0 < signals [message])%nat) in *.
    set (S1 := senders [message] ∪ S) in *.
    assert (Hcount1 : (signals rest + (if signalled1 then 1 else 0) ≤ 1)%nat).
    { unfold signalled1. destruct signalled; cbn [orb]; [lia|].
      destruct (bool_decide_reflect (0 < signals [message])%nat); lia. }
    assert (Hghost :
      quorum (signalled || bool_decide (0 < signals (message :: rest))%nat)
             (senders (message :: rest) ∪ S) =
      quorum (signalled1 || bool_decide (0 < signals rest)%nat) (senders rest ∪ S1)).
    { f_equal.
      - unfold signalled1. rewrite signals_cons.
        destruct signalled; cbn [orb]; [done|].
        destruct (bool_decide_reflect (0 < signals [message])%nat);
          destruct (bool_decide_reflect (0 < signals rest)%nat);
          destruct (bool_decide_reflect (0 < signals [message] + signals rest)%nat);
          cbn [orb]; (done || lia).
      - unfold S1. rewrite senders_cons.
        rewrite (comm_L (∪) (senders [message])), <- (assoc_L (∪)). done. }
    split.
    + intros [Hfor Hforrest]%Forall_cons. simpl.
      destruct (Hprog Hfor) as [[m1 out] Hred]. rewrite Hred. simpl.
      destruct (Hstep m1 out Hred) as [HInv1 _].
      destruct (IH m1 signalled1 S1 HInv1 Hrest Hcount1) as [Hprog' _].
      destruct (Hprog' Hforrest) as [[m2 outs] Hrun]. by rewrite Hrun.
    + intros m' outs Hrun. simpl in Hrun.
      destruct (Reduce q alloc m message) as [[m1 out]|] eqn:Hred; [|done].
      simpl in Hrun.
      destruct (run q alloc m1 rest) as [[m2 outs2]|] eqn:Hrun2; [|done].
      simpl in Hrun. injection Hrun as <- <-.
      destruct (Hstep m1 out eq_refl) as [HInv1 Hem1].
      destruct (IH m1 signalled1 S1 HInv1 Hrest Hcount1) as [_ Hem2].
      rewrite emitted_cons, Hem1, (Hem2 m2 outs2 Hrun2), Hghost.
      destruct (quorum signalled S) eqn:Hq0.
      * rewrite (quorum_mono signalled signalled1 S S1 Hq0).
        -- by rewrite !andb_false_r.
        -- unfold signalled1. by intros ->.
        -- intros x Hx. apply elem_of_union. by right.
      * rewrite !andb_true_r.
        destruct (quorum signalled1 S1) eqn:Hq1;
          [|cbn [negb app]; by rewrite andb_true_r].
        rewrite (quorum_mono signalled1
                   (signalled1 || bool_decide (0 < signals rest)%nat)
                   S1 (senders rest ∪ S1) Hq1); [done| |].
        -- by intros ->.
        -- intros x Hx. apply elem_of_union. by right.
Qed.

Lemma Inv_new cap : Inv (newMultiplier index0 n0 k0 cap) false ∅.
Proof using All.
  split; [|split].
  - repeat split. intros id' r. simpl. by rewrite lookup_empty.
  - intros j Hj. by apply not_elem_of_empty in Hj.
  - simpl. split; [done|]. split; [done|]. intros j. simpl.
    rewrite lookup_empty. simpl. rewrite lookup_empty.
    by rewrite decide_False by apply not_elem_of_empty.
Qed.

End consistent.

End mul_consistent.

Module mul_props.
Import mul mul_facts.

(** C10.  When the result for [id] is cached, a [Mul] message for [id]
    returns exactly the cached [Result] and leaves the whole state as it
    is; an [OpenMul] message for [id] returns nil, so no second [Result]
    is produced, and it leaves the cache and the signals as they are. *)
Theorem cached_result_is_final (q : Z) (alloc : N) (m : multiplier)
    (id : task.MessageID) (r : Result) :
  results m !! id = Some r →
  (∀ message, Mul_MessageID message = id →
     Reduce q alloc m (MMul message) = Some (m, MResult r)) ∧
  (∀ message, OpenMul_MessageID message = id →
     ∃ m', Reduce q alloc m (MOpenMul message) = Some (m', MNil) ∧
           results m' = results m ∧ muls m' = muls m).
Proof.
  intros Hr. split.
  - intros message <-. simpl. unfold mul. by rewrite Hr.
  - intros message <-. exists (recorded m message). simpl.
    by rewrite (tryOpenMul_cached q alloc m message r).
Qed.

(** The theorem on the state reached after the signal and one opening. *)
Lemma cached_result_is_final_witness :
  ∃ m r,
    run 251 mul_examples.alloc0 mul_examples.m0
      [MMul mul_examples.mul0; MOpenMul mul_examples.open2] =
      Some (m, [MessageBatch [MNil; MOpenMul (NewOpenMul mul_examples.id0 1 [shamir.New 1 4])];
                MResult r]) ∧
    Reduce 251 mul_examples.alloc0 m (MMul mul_examples.mul0) = Some (m, MResult r) ∧
    ∃ m', Reduce 251 mul_examples.alloc0 m (MOpenMul mul_examples.open3) = Some (m', MNil) ∧
          results m' = results m ∧ muls m' = muls m.
Proof.
  destruct (run 251 mul_examples.alloc0 mul_examples.m0
              [MMul mul_examples.mul0; MOpenMul mul_examples.open2])
    as [[m outs]|] eqn:Hrun; [|by vm_compute in Hrun].
  exists m, (NewResult mul_examples.id0 [shamir.New 1 250]).
  assert (Hres : results m !! mul_examples.id0 =
                 Some (NewResult mul_examples.id0 [shamir.New 1 250])).
  { vm_compute in Hrun. injection Hrun as <- _. vm_compute. reflexivity. }
  split; [|split].
  - vm_compute in Hrun. injection Hrun as _ <-. reflexivity.
  - apply (cached_result_is_final 251 mul_examples.alloc0 m mul_examples.id0 _ Hres). reflexivity.
  - apply (cached_result_is_final 251 mul_examples.alloc0 m mul_examples.id0 _ Hres). reflexivity.
Defined.

(** C4.  For every state and every [OpenMul] message (so also one whose
    [From] is the index of a sender already stored, whatever share indices
    it carries).

    If [tryOpenMul] returns a [Result], the openings stored for the id,
    one per distinct [From], the incoming one included, are at least k;
    the signal for the id is stored; the result has one share for each
    share of the message; and the share at every batch position b is the
    [shamir.Join] of the shares at b of all the stored openings, at least
    k shares with pairwise distinct indices, put at the index of the σ of
    the stored signal at b, minus that σ.

    If [tryOpenMul] returns nil, the returned state holds the message
    under its [From] among the openings of the id, and nothing else has
    changed.  A second [OpenMul] from the same sender then replaces the
    first in the returned state (last wins) with the senders and their
    number as they were, and the task answers as if only the second had
    been received. *)
Theorem forged_OpenMul_quorum (q : Z) (alloc : N) (m : multiplier) (message : OpenMul) :
  (∀ m' result,
     tryOpenMul q alloc m message = Some (m', MResult result) →
     (k m ≤ N.of_nat (size (stored m message)))%N ∧
     ∃ signal,
       muls m !! OpenMul_MessageID message = Some signal ∧
       Result_MessageID result = OpenMul_MessageID message ∧
       length (Result_Shares result) = length (Shares message) ∧
       ∀ b, (b < length (Shares message))%nat →
         ∃ sharesCache value σ,
           mapM (λ opening, Shares opening !! b)
             (map_to_list (stored m message)).*2 = Some sharesCache ∧
           length sharesCache = size (stored m message) ∧
           (k m ≤ N.of_nat (length sharesCache))%N ∧
           NoDup (shamir.Index <$> sharesCache) ∧
           shamir.Join q sharesCache = Some value ∧
           σs signal !! b = Some σ ∧
           Result_Shares result !! b =
             Some (shamir.Sub q (shamir.New (shamir.Index σ) value) σ)) ∧
  (∀ m1,
     tryOpenMul q alloc m message = Some (m1, MNil) →
     opens m1 !! OpenMul_MessageID message =
       Some (<[From message := message]>
               (default ∅ (opens m !! OpenMul_MessageID message))) ∧
     (∀ id, id ≠ OpenMul_MessageID message → opens m1 !! id = opens m !! id) ∧
     muls m1 = muls m ∧ results m1 = results m ∧
     ∀ message',
       OpenMul_MessageID message' = OpenMul_MessageID message →
       From message' = From message →
       tryOpenMul q alloc m1 message' = tryOpenMul q alloc m message' ∧
       ∀ m2,
         tryOpenMul q alloc m1 message' = Some (m2, MNil) →
         ∃ st1 st2,
           opens m1 !! OpenMul_MessageID message = Some st1 ∧
           opens m2 !! OpenMul_MessageID message = Some st2 ∧
           st1 !! From message = Some message ∧
           st2 !! From message = Some message' ∧
           (∀ from, from ≠ From message → st2 !! from = st1 !! from) ∧
           dom st2 = dom st1 ∧ size st2 = size st1).
Proof.
  split.
  - intros m' result Htry.
    destruct (tryOpenMul_cases q alloc m message)
      as [H|[H|(signal & shares & Hk & Hs & Hr & Hm & H)]];
      rewrite H in Htry; try done.
    injection Htry as _ <-. split; [done|].
    exists signal. split; [done|]. split; [done|].
    pose proof (length_mapM _ _ _ Hm) as Hlen.
    rewrite length_seq in Hlen. split; [done|].
    intros b Hb. cbn [Result_Shares].
    apply mapM_Some_1 in Hm.
    destruct (Forall2_lookup_l _ _ _ b b Hm) as (share & Hshare & Hopen).
    { by apply lookup_seq. }
    apply openShare_Some in Hopen as (cache & value & σ & Hc & Hj & Hσ & ->).
    exists cache, value, σ.
    assert (Hlc : length cache = size (stored m message)).
    { apply length_mapM in Hc. by rewrite <- Hc, length_fmap, length_map_to_list. }
    repeat split; try done.
    + by rewrite Hlc.
    + by apply (Join_Some_NoDup q cache value).
  - intros m1 Htry.
    destruct (tryOpenMul_cases q alloc m message)
      as [H|[H|(signal & shares & _ & _ & _ & _ & H)]];
      rewrite H in Htry; try done.
    injection Htry as <-.
    split; [apply lookup_insert_eq|].
    split; [intros id Hne; cbn [recorded opens]; by rewrite lookup_insert_ne|].
    split; [done|]. split; [done|].
    intros message' Hid Hfrom.
    assert (Hst : stored (recorded m message) message' = stored m message').
    { unfold stored, recorded. cbn [opens]. rewrite Hid, Hfrom.
      rewrite lookup_insert_eq. simpl. fold (stored m message).
      unfold stored. by rewrite insert_insert_eq. }
    assert (Hst' : stored (recorded m message) message' =
                   <[From message := message']> (stored m message)).
    { unfold stored at 1. unfold recorded. cbn [opens]. rewrite Hid, Hfrom.
      by rewrite lookup_insert_eq. }
    split.
    + unfold tryOpenMul. fold (stored (recorded m message) message').
      fold (stored m message'). rewrite Hst.
      cbn [recorded muls results k n index opens].
      rewrite Hid. by rewrite !insert_insert_eq.
    + intros m2 Htry2.
      destruct (tryOpenMul_cases q alloc (recorded m message) message')
        as [H2|[H2|(signal & shares & _ & _ & _ & _ & H2)]];
        rewrite H2 in Htry2; try done.
      injection Htry2 as <-.
      exists (stored m message), (<[From message := message']> (stored m message)).
      assert (Hin : stored m message !! From message = Some message)
        by apply lookup_insert_eq.
      split; [apply lookup_insert_eq|].
      split; [cbn [recorded opens]; rewrite <- Hid, lookup_insert_eq;
              by rewrite Hst'|].
      split; [done|]. split; [apply lookup_insert_eq|].
      split; [intros from Hne; by rewrite lookup_insert_ne|].
      split.
      * rewrite dom_insert_L. apply elem_of_dom_2 in Hin.
        apply set_eq. intros j. rewrite elem_of_union, elem_of_singleton.
        split; [intros [->|?]; done|by right].
      * by erewrite map_size_insert_Some.
Qed.

(** A state waiting for its quorum in which the sender 2 is stored, and a
    forged opening under the name of the sender 2. *)
Definition waiting : multiplier :=
  {| index := 1; n := 3; k := 3;
     muls := {[ mul_examples.id0 := mul_examples.mul0 ]};
     opens := {[ mul_examples.id0 :=
                   {[ 1%N := NewOpenMul mul_examples.id0 1 [shamir.New 1 4];
                      2%N := mul_examples.open2 ]} ]};
     results := ∅ |}.

Definition ready : multiplier :=
  {| index := 1; n := 3; k := 2;
     muls := {[ mul_examples.id0 := mul_examples.mul0 ]};
     opens := {[ mul_examples.id0 :=
                   {[ 1%N := NewOpenMul mul_examples.id0 1 [shamir.New 1 4];
                      2%N := mul_examples.open2 ]} ]};
     results := ∅ |}.

Definition forged : OpenMul := NewOpenMul mul_examples.id0 2 [shamir.New 7 100].

Lemma forged_OpenMul_quorum_witness :
  (∃ m' result,
     tryOpenMul 251 mul_examples.alloc0 ready forged = Some (m', MResult result) ∧
     (k ready ≤ N.of_nat (size (stored ready forged)))%N ∧
     ∃ signal,
       muls ready !! OpenMul_MessageID forged = Some signal ∧
       Result_MessageID result = OpenMul_MessageID forged ∧
       length (Result_Shares result) = length (Shares forged) ∧
       ∀ b, (b < length (Shares forged))%nat →
         ∃ sharesCache value σ,
           mapM (λ opening, Shares opening !! b)
             (map_to_list (stored ready forged)).*2 = Some sharesCache ∧
           length sharesCache = size (stored ready forged) ∧
           (k ready ≤ N.of_nat (length sharesCache))%N ∧
           NoDup (shamir.Index <$> sharesCache) ∧
           shamir.Join 251 sharesCache = Some value ∧
           σs signal !! b = Some σ ∧
           Result_Shares result !! b =
             Some (shamir.Sub 251 (shamir.New (shamir.Index σ) value) σ)) ∧
  (∃ m1 m2,
     tryOpenMul 251 mul_examples.alloc0 waiting forged = Some (m1, MNil) ∧
     tryOpenMul 251 mul_examples.alloc0 m1 mul_examples.open2 = Some (m2, MNil) ∧
     tryOpenMul 251 mul_examples.alloc0 m1 mul_examples.open2 =
       tryOpenMul 251 mul_examples.alloc0 waiting mul_examples.open2 ∧
     ∃ st1 st2,
       opens m1 !! OpenMul_MessageID forged = Some st1 ∧
       opens m2 !! OpenMul_MessageID forged = Some st2 ∧
       st1 !! From forged = Some forged ∧
       st2 !! From forged = Some mul_examples.open2 ∧
       (∀ from, from ≠ From forged → st2 !! from = st1 !! from) ∧
       dom st2 = dom st1 ∧ size st2 = size st1).
Proof.
  split.
  - destruct (tryOpenMul 251 mul_examples.alloc0 ready forged)
      as [[m' [| | |result|]]|] eqn:Htry; try (by vm_compute in Htry).
    exists m', result. split; [done|].
    destruct (forged_OpenMul_quorum 251 mul_examples.alloc0 ready forged) as [H _].
    apply (H m' result Htry).
  - destruct (tryOpenMul 251 mul_examples.alloc0 waiting forged)
      as [[m1 [| | | |]]|] eqn:Htry; try (by vm_compute in Htry).
    destruct (forged_OpenMul_quorum 251 mul_examples.alloc0 waiting forged)
      as [_ H].
    destruct (H m1 Htry) as (_ & _ & _ & _ & H').
    destruct (H' mul_examples.open2 eq_refl eq_refl) as [Hsame Hlast].
    destruct (tryOpenMul 251 mul_examples.alloc0 m1 mul_examples.open2)
      as [[m2 [| | | |]]|] eqn:Htry2.
    2-6: vm_compute in Htry; injection Htry as <-; vm_compute in Htry2;
      discriminate Htry2.
    exists m1, m2. split; [done|]. split; [done|].
    split; [by rewrite Htry2|]. by apply Hlast.
Defined.


(** The theorem on the line 3 + t over F_251 with k = 2, n = 3 and this
    player at index 1: the signal comes between the openings of the
    players 3 and 2, and the result is the share of 3 minus σ. *)
Definition signal1 : Mul :=
  NewMul mul_examples.id0
    [shamir.New 1 2] [shamir.New 1 2] [shamir.New 1 0] [shamir.New 1 1].

Definition trace1 : list Message :=
  [MOpenMul (NewOpenMul mul_examples.id0 3 [shamir.New 3 6]);
   MMul signal1;
   MOpenMul (NewOpenMul mul_examples.id0 2 [shamir.New 2 5])].



End mul_props.

(** ** The program interpreter *)

Module program_facts.
Import program.

Section interpreter.
Context `{Externals}.

Lemma makeShareChan_fresh h c h' :
  makeShareChan h = (c, h') →
  shareChans h !! c = None ∧
  shareChans h' = <[c := None]> (shareChans h) ∧
  intChans h' = intChans h.
Proof.
  unfold makeShareChan. intros [= <- <-]. simpl. split; [|done].
  apply not_elem_of_dom, is_fresh.
Qed.

Lemma makeIntChan_fresh h c h' :
  makeIntChan h = (c, h') →
  intChans h !! c = None ∧
  intChans h' = <[c := None]> (intChans h) ∧
  shareChans h' = shareChans h.
Proof.
  unfold makeIntChan. intros [= <- <-]. simpl. split; [|done].
  apply not_elem_of_dom, is_fresh.
Qed.

Lemma Exec_inst h prog inst :
  Code prog !! PC prog = Some inst →
  Exec h prog =
    match inst with
    | InstPush v => execInstPush h prog v
    | InstAdd => execInstAdd h prog
    | IRand inst => execInstRand h prog inst
    | IMul inst => execInstMul h prog inst
    | IOpen inst => execInstOpen h prog inst
    | IOther => Some (h, prog, NotReady (Some (ErrorUnexpectedInst IOther (PC prog))))
    end.
Proof using Type.
  intros Hinst. unfold Exec. apply lookup_lt_Some in Hinst as Hlt.
  rewrite decide_False by lia. by rewrite Hinst.
Qed.

End interpreter.
End program_facts.

Module program_props.
Import program program_facts.

Section interpreter.
Context `{Externals}.

(** *** Rand *)

Lemma execInstRand_first h prog inst :
  RhoCh inst = None ∨ SigmaCh inst = None →
  ∃ ρCh σCh h',
    execInstRand h prog inst =
      Some (h',
            setInst prog (IRand {| RhoCh := Some ρCh; SigmaCh := Some σCh;
                                   RhoReady := RhoReady inst;
                                   SigmaReady := SigmaReady inst;
                                   Rho := Rho inst; Sigma := Sigma inst |}),
            NotReady (Some (GenRn ρCh σCh))) ∧
    shareChans h !! ρCh = None ∧ shareChans h !! σCh = None ∧ ρCh ≠ σCh ∧
    shareChans h' = <[σCh := None]> (<[ρCh := None]> (shareChans h)) ∧
    intChans h' = intChans h.
Proof using Type.
  intros Hnil. unfold execInstRand.
  destruct (makeShareChan h) as [ρCh h1] eqn:H1.
  destruct (makeShareChan h1) as [σCh h2] eqn:H2.
  apply makeShareChan_fresh in H1 as (Hρ & Hh1 & Hi1).
  apply makeShareChan_fresh in H2 as (Hσ & Hh2 & Hi2).
  exists ρCh, σCh, h2.
  assert (ρCh ≠ σCh).
  { intros ->. rewrite Hh1, lookup_insert_eq in Hσ. done. }
  repeat split.
  - destruct Hnil as [-> | Hs]; [done|].
    rewrite Hs. by destruct (RhoCh inst).
  - done.
  - rewrite Hh1 in Hσ. by rewrite lookup_insert_ne in Hσ.
  - done.
  - by rewrite Hh2, Hh1.
  - congruence.
Qed.

Lemma execInstRand_empty h prog inst ρCh σCh :
  RhoCh inst = Some ρCh → SigmaCh inst = Some σCh →
  RhoReady inst = false →
  shareChans h !! ρCh = None ∨ shareChans h !! ρCh = Some None →
  execInstRand h prog inst = Some (h, prog, NotReady None).
Proof using Type.
  intros Hρ Hσ HρR Hempty. unfold execInstRand. rewrite Hρ, Hσ, HρR.
  unfold recvShare. by destruct Hempty as [-> | ->].
Qed.

Lemma execInstRand_taken h prog inst ρCh σCh ρ h1 inst1 prog1 :
  RhoCh inst = Some ρCh → SigmaCh inst = Some σCh →
  (RhoReady inst = false ∧ shareChans h !! ρCh = Some (Some ρ) ∧
   h1 = {| shareChans := <[ρCh := None]> (shareChans h);
           intChans := intChans h |} ∧
   inst1 = {| RhoCh := RhoCh inst; SigmaCh := SigmaCh inst;
              RhoReady := true; SigmaReady := SigmaReady inst;
              Rho := ρ; Sigma := Sigma inst |} ∧
   prog1 = setInst prog (IRand inst1)) ∨
  (RhoReady inst = true ∧ ρ = Rho inst ∧ h1 = h ∧ inst1 = inst ∧ prog1 = prog) →
  (SigmaReady inst = false →
   shareChans h1 !! σCh = None ∨ shareChans h1 !! σCh = Some None →
   execInstRand h prog inst = Some (h1, prog1, NotReady None)) ∧
  (SigmaReady inst = false → ∀ σ,
   shareChans h1 !! σCh = Some (Some σ) →
   execInstRand h prog inst =
     Some ({| shareChans := <[σCh := None]> (shareChans h1);
              intChans := intChans h1 |},
           incPC (setStack
                    (setInst prog1
                       (IRand {| RhoCh := RhoCh inst1; SigmaCh := SigmaCh inst1;
                                 RhoReady := RhoReady inst1; SigmaReady := true;
                                 Rho := Rho inst1; Sigma := σ |}))
                    (Push (Stack prog) (ValuePrivateRn ρ σ)).1),
           Ready)) ∧
  (SigmaReady inst = true →
   execInstRand h prog inst =
     Some (h1,
           incPC (setStack prog1
                    (Push (Stack prog) (ValuePrivateRn ρ (Sigma inst))).1),
           Ready)).
Proof using Type.
  intros Hρ Hσ [(HρR & Hfull & -> & -> & ->)|(HρR & -> & -> & -> & ->)];
    unfold execInstRand, recvShare; rewrite Hρ, Hσ, HρR.
  - rewrite Hfull. cbn [SigmaReady shareChans intChans].
    split; [|split].
    + intros -> Hempty. cbn [shareChans] in Hempty.
      by destruct Hempty as [-> | ->].
    + intros -> σ Hσfull. cbn [shareChans] in Hσfull. rewrite Hσfull.
      cbn [Rho Sigma setInst Stack RhoCh SigmaCh RhoReady shareChans intChans].
      by destruct (Push _ _).
    + intros ->. cbn [Rho Sigma setInst Stack]. by destruct (Push _ _).
  - split; [|split].
    + intros -> Hempty. by destruct Hempty as [-> | ->].
    + intros -> σ Hσfull. rewrite Hσfull.
      cbn [Rho Sigma setInst Stack RhoCh SigmaCh RhoReady].
      rewrite ?Hρ, ?Hσ, ?HρR. by destruct (Push _ _).
    + intros ->. by destruct (Push _ _).
Qed.

(** *** Mul *)

Lemma execInstMul_first h prog inst s1 s2 s3 ρ σ y x :
  InstMul_RetCh inst = None →
  Pop (Stack prog) = (s1, inr (ValuePrivateRn ρ σ)) →
  Pop s1 = (s2, inr (ValuePrivate y)) →
  Pop s2 = (s3, inr (ValuePrivate x)) →
  ∃ retCh h',
    execInstMul h prog inst =
      Some (h',
            setInst (setStack prog s3)
              (IMul {| InstMul_RetCh := Some retCh;
                       InstMul_RetReady := InstMul_RetReady inst;
                       InstMul_Ret := InstMul_Ret inst |}),
            NotReady (Some (Multiply x y ρ σ retCh))) ∧
    shareChans h !! retCh = None ∧
    shareChans h' = <[retCh := None]> (shareChans h) ∧
    intChans h' = intChans h.
Proof using Type.
  intros Hnil H1 H2 H3. unfold execInstMul. rewrite Hnil, H1.
  cbn [setStack Stack]. rewrite H2. cbn [setStack Stack]. rewrite H3.
  destruct (makeShareChan h) as [retCh h'] eqn:Hmk.
  apply makeShareChan_fresh in Hmk as (? & ? & ?).
  exists retCh, h'. done.
Qed.

Lemma execInstMul_first_error h prog inst :
  InstMul_RetCh inst = None →
  (∀ s1 s2 s3 ρ σ y x,
     ¬ (Pop (Stack prog) = (s1, inr (ValuePrivateRn ρ σ)) ∧
        Pop s1 = (s2, inr (ValuePrivate y)) ∧
        Pop s2 = (s3, inr (ValuePrivate x)))) →
  ∃ prog' err,
    execInstMul h prog inst =
      Some (h, prog', NotReady (Some (ErrorExecution err (PC prog)))) ∧
    Code prog' = Code prog.
Proof using Type.
  intros Hnil Hnot. unfold execInstMul. rewrite Hnil.
  repeat case_match; simplify_eq;
    try (eexists _, _; split; reflexivity).
  exfalso. eapply Hnot. repeat split; eassumption.
Qed.

Lemma execInstMul_reentry h prog inst retCh :
  InstMul_RetCh inst = Some retCh →
  (InstMul_RetReady inst = false →
   shareChans h !! retCh = None ∨ shareChans h !! retCh = Some None →
   execInstMul h prog inst = Some (h, prog, NotReady None)) ∧
  (InstMul_RetReady inst = false → ∀ ret,
   shareChans h !! retCh = Some (Some ret) →
   execInstMul h prog inst =
     Some ({| shareChans := <[retCh := None]> (shareChans h);
              intChans := intChans h |},
           incPC (setStack
                    (setInst prog
                       (IMul {| InstMul_RetCh := InstMul_RetCh inst;
                                InstMul_RetReady := true;
                                InstMul_Ret := ret |}))
                    (Push (Stack prog) (ValuePrivate ret)).1),
           Ready)) ∧
  (InstMul_RetReady inst = true →
   execInstMul h prog inst =
     Some (h,
           incPC (setStack prog
                    (Push (Stack prog) (ValuePrivate (InstMul_Ret inst))).1),
           Ready)).
Proof using Type.
  intros Hch. unfold execInstMul. rewrite Hch. split; [|split].
  - intros -> Hempty. unfold recvShare. by destruct Hempty as [-> | ->].
  - intros -> ret Hfull. unfold recvShare. rewrite Hfull.
    cbn [InstMul_Ret setInst Stack]. by destruct (Push _ _).
  - intros ->. by destruct (Push _ _).
Qed.

(** *** Open *)

Lemma execInstOpen_first h prog inst s1 v :
  InstOpen_RetCh inst = None →
  Pop (Stack prog) = (s1, inr (ValuePrivate v)) →
  ∃ retCh h',
    execInstOpen h prog inst =
      Some (h',
            setInst (setStack prog s1)
              (IOpen {| InstOpen_RetCh := Some retCh;
                        InstOpen_RetReady := InstOpen_RetReady inst;
                        InstOpen_Ret := InstOpen_Ret inst |}),
            NotReady (Some (Open v retCh))) ∧
    intChans h !! retCh = None ∧
    intChans h' = <[retCh := None]> (intChans h) ∧
    shareChans h' = shareChans h.
Proof using Type.
  intros Hnil H1. unfold execInstOpen. rewrite Hnil, H1.
  destruct (makeIntChan h) as [retCh h'] eqn:Hmk.
  apply makeIntChan_fresh in Hmk as (? & ? & ?).
  exists retCh, h'. done.
Qed.

Lemma execInstOpen_first_error h prog inst :
  InstOpen_RetCh inst = None →
  (∀ s1 v, Pop (Stack prog) ≠ (s1, inr (ValuePrivate v))) →
  ∃ prog' err,
    execInstOpen h prog inst =
      Some (h, prog', NotReady (Some (ErrorExecution err (PC prog)))) ∧
    Code prog' = Code prog.
Proof using Type.
  intros Hnil Hnot. unfold execInstOpen. rewrite Hnil.
  repeat case_match; simplify_eq;
    try (eexists _, _; split; reflexivity).
  exfalso. by eapply Hnot.
Qed.

Lemma execInstOpen_reentry h prog inst retCh :
  InstOpen_RetCh inst = Some retCh →
  (InstOpen_RetReady inst = false →
   intChans h !! retCh = None ∨ intChans h !! retCh = Some None →
   execInstOpen h prog inst = Some (h, prog, NotReady None)) ∧
  (InstOpen_RetReady inst = false → ∀ ret,
   intChans h !! retCh = Some (Some ret) →
   execInstOpen h prog inst =
     Some ({| shareChans := shareChans h;
              intChans := <[retCh := None]> (intChans h) |},
           incPC (setStack
                    (setInst prog
                       (IOpen {| InstOpen_RetCh := InstOpen_RetCh inst;
                                 InstOpen_RetReady := true;
                                 InstOpen_Ret := ret |}))
                    (Push (Stack prog) (ValuePublic ret)).1),
           Ready)) ∧
  (InstOpen_RetReady inst = true →
   execInstOpen h prog inst =
     Some (h,
           incPC (setStack prog
                    (Push (Stack prog) (ValuePublic (InstOpen_Ret inst))).1),
           Ready)).
Proof using Type.
  intros Hch. unfold execInstOpen. rewrite Hch. split; [|split].
  - intros -> Hempty. unfold recvInt. by destruct Hempty as [-> | ->].
  - intros -> ret Hfull. unfold recvInt. rewrite Hfull.
    cbn [InstOpen_Ret setInst Stack]. by destruct (Push _ _).
  - intros ->. by destruct (Push _ _).
Qed.

(** C6, amended.  For a suspending instruction at the current pc.

    First entry (a sink of the instruction is still nil).  [Rand] makes
    two fresh, distinct, empty single-slot sinks, stores them into the
    instruction in place and returns NotReady with the intent that
    carries them.  [Mul] and [Open] do the same with one sink when their
    operands pop with the right types; when they do not, [Exec] returns
    an error intent, stores no sink and leaves the code and the channels
    as they are.

    Re-entry (the sinks are stored).  [Exec] polls, without blocking and
    in their order, the sinks whose value it has not taken yet.  If such
    a sink is empty it returns NotReady(nil) with pc and stack as they
    are; a ρ just taken out of its sink stays recorded in the
    instruction.  If it holds a value, the value is taken out of the sink
    and recorded.  Once every sink has delivered, [Exec] pushes the
    result, increments pc and returns Ready. *)
Theorem suspend_resume (h : Chans) (prog : Program) :
  (∀ inst, Code prog !! PC prog = Some (IRand inst) →
     (RhoCh inst = None ∨ SigmaCh inst = None →
      ∃ ρCh σCh h',
        Exec h prog =
          Some (h',
                setInst prog (IRand {| RhoCh := Some ρCh; SigmaCh := Some σCh;
                                       RhoReady := RhoReady inst;
                                       SigmaReady := SigmaReady inst;
                                       Rho := Rho inst; Sigma := Sigma inst |}),
                NotReady (Some (GenRn ρCh σCh))) ∧
        shareChans h !! ρCh = None ∧ shareChans h !! σCh = None ∧ ρCh ≠ σCh ∧
        shareChans h' = <[σCh := None]> (<[ρCh := None]> (shareChans h)) ∧
        intChans h' = intChans h) ∧
     (∀ ρCh σCh, RhoCh inst = Some ρCh → SigmaCh inst = Some σCh →
      (* ρ has not been taken and its sink is empty *)
      (RhoReady inst = false →
       shareChans h !! ρCh = None ∨ shareChans h !! ρCh = Some None →
       Exec h prog = Some (h, prog, NotReady None)) ∧
      (* ρ is taken out of its sink now, or has been taken before *)
      (∀ ρ h1 inst1 prog1,
         (RhoReady inst = false ∧ shareChans h !! ρCh = Some (Some ρ) ∧
          h1 = {| shareChans := <[ρCh := None]> (shareChans h);
                  intChans := intChans h |} ∧
          inst1 = {| RhoCh := RhoCh inst; SigmaCh := SigmaCh inst;
                     RhoReady := true; SigmaReady := SigmaReady inst;
                     Rho := ρ; Sigma := Sigma inst |} ∧
          prog1 = setInst prog (IRand inst1)) ∨
         (RhoReady inst = true ∧ ρ = Rho inst ∧ h1 = h ∧ inst1 = inst ∧
          prog1 = prog) →
         (SigmaReady inst = false →
          shareChans h1 !! σCh = None ∨ shareChans h1 !! σCh = Some None →
          Exec h prog = Some (h1, prog1, NotReady None)) ∧
         (SigmaReady inst = false → ∀ σ,
          shareChans h1 !! σCh = Some (Some σ) →
          Exec h prog =
            Some ({| shareChans := <[σCh := None]> (shareChans h1);
                     intChans := intChans h1 |},
                  incPC (setStack
                           (setInst prog1
                              (IRand {| RhoCh := RhoCh inst1;
                                        SigmaCh := SigmaCh inst1;
                                        RhoReady := RhoReady inst1;
                                        SigmaReady := true;
                                        Rho := Rho inst1; Sigma := σ |}))
                           (Push (Stack prog) (ValuePrivateRn ρ σ)).1),
                  Ready)) ∧
         (SigmaReady inst = true →
          Exec h prog =
            Some (h1,
                  incPC (setStack prog1
                           (Push (Stack prog) (ValuePrivateRn ρ (Sigma inst))).1),
                  Ready))))) ∧
  (∀ inst, Code prog !! PC prog = Some (IMul inst) →
     (InstMul_RetCh inst = None →
      (∀ s1 s2 s3 ρ σ y x,
         Pop (Stack prog) = (s1, inr (ValuePrivateRn ρ σ)) →
         Pop s1 = (s2, inr (ValuePrivate y)) →
         Pop s2 = (s3, inr (ValuePrivate x)) →
         ∃ retCh h',
           Exec h prog =
             Some (h',
                   setInst (setStack prog s3)
                     (IMul {| InstMul_RetCh := Some retCh;
                              InstMul_RetReady := InstMul_RetReady inst;
                              InstMul_Ret := InstMul_Ret inst |}),
                   NotReady (Some (Multiply x y ρ σ retCh))) ∧
           shareChans h !! retCh = None ∧
           shareChans h' = <[retCh := None]> (shareChans h) ∧
           intChans h' = intChans h) ∧
      ((∀ s1 s2 s3 ρ σ y x,
          ¬ (Pop (Stack prog) = (s1, inr (ValuePrivateRn ρ σ)) ∧
             Pop s1 = (s2, inr (ValuePrivate y)) ∧
             Pop s2 = (s3, inr (ValuePrivate x)))) →
       ∃ prog' err,
         Exec h prog =
           Some (h, prog', NotReady (Some (ErrorExecution err (PC prog)))) ∧
         Code prog' = Code prog)) ∧
     (∀ retCh, InstMul_RetCh inst = Some retCh →
      (InstMul_RetReady inst = false →
       shareChans h !! retCh = None ∨ shareChans h !! retCh = Some None →
       Exec h prog = Some (h, prog, NotReady None)) ∧
      (InstMul_RetReady inst = false → ∀ ret,
       shareChans h !! retCh = Some (Some ret) →
       Exec h prog =
         Some ({| shareChans := <[retCh := None]> (shareChans h);
                  intChans := intChans h |},
               incPC (setStack
                        (setInst prog
                           (IMul {| InstMul_RetCh := InstMul_RetCh inst;
                                    InstMul_RetReady := true;
                                    InstMul_Ret := ret |}))
                        (Push (Stack prog) (ValuePrivate ret)).1),
               Ready)) ∧
      (InstMul_RetReady inst = true →
       Exec h prog =
         Some (h,
               incPC (setStack prog
                        (Push (Stack prog) (ValuePrivate (InstMul_Ret inst))).1),
               Ready)))) ∧
  (∀ inst, Code prog !! PC prog = Some (IOpen inst) →
     (InstOpen_RetCh inst = None →
      (∀ s1 v,
         Pop (Stack prog) = (s1, inr (ValuePrivate v)) →
         ∃ retCh h',
           Exec h prog =
             Some (h',
                   setInst (setStack prog s1)
                     (IOpen {| InstOpen_RetCh := Some retCh;
                               InstOpen_RetReady := InstOpen_RetReady inst;
                               InstOpen_Ret := InstOpen_Ret inst |}),
                   NotReady (Some (Open v retCh))) ∧
           intChans h !! retCh = None ∧
           intChans h' = <[retCh := None]> (intChans h) ∧
           shareChans h' = shareChans h) ∧
      ((∀ s1 v, Pop (Stack prog) ≠ (s1, inr (ValuePrivate v))) →
       ∃ prog' err,
         Exec h prog =
           Some (h, prog', NotReady (Some (ErrorExecution err (PC prog)))) ∧
         Code prog' = Code prog)) ∧
     (∀ retCh, InstOpen_RetCh inst = Some retCh →
      (InstOpen_RetReady inst = false →
       intChans h !! retCh = None ∨ intChans h !! retCh = Some None →
       Exec h prog = Some (h, prog, NotReady None)) ∧
      (InstOpen_RetReady inst = false → ∀ ret,
       intChans h !! retCh = Some (Some ret) →
       Exec h prog =
         Some ({| shareChans := shareChans h;
                  intChans := <[retCh := None]> (intChans h) |},
               incPC (setStack
                        (setInst prog
                           (IOpen {| InstOpen_RetCh := InstOpen_RetCh inst;
                                     InstOpen_RetReady := true;
                                     InstOpen_Ret := ret |}))
                        (Push (Stack prog) (ValuePublic ret)).1),
               Ready)) ∧
      (InstOpen_RetReady inst = true →
       Exec h prog =
         Some (h,
               incPC (setStack prog
                        (Push (Stack prog) (ValuePublic (InstOpen_Ret inst))).1),
               Ready)))).
Proof using Type.
  split; [|split]; intros inst Hinst; rewrite (Exec_inst h prog _ Hinst).
  - split; [apply execInstRand_first|].
    intros ρCh σCh Hρ Hσ. split.
    + by apply (execInstRand_empty h prog inst ρCh σCh).
    + intros ρ h1 inst1 prog1 Htaken.
      by apply (execInstRand_taken h prog inst ρCh σCh ρ h1 inst1 prog1).
  - split.
    + intros Hnil. split.
      * intros s1 s2 s3 ρ σ y x. by apply execInstMul_first.
      * by apply execInstMul_first_error.
    + apply execInstMul_reentry.
  - split.
    + intros Hnil. split.
      * intros s1 v. by apply execInstOpen_first.
      * by apply execInstOpen_first_error.
    + apply execInstOpen_reentry.
Qed.

(** *** Errors of the operands *)

(** An error intent at the pc of the program. *)
Definition isError (prog : Program) (ret : Return) : Prop :=
  ∃ err, ret = NotReady (Some (ErrorExecution err (PC prog))).

(** On first entry [Mul] does not panic: it returns an error intent (a
    stack error or a value of the wrong type) or suspends on the intent to
    multiply. *)
Lemma execInstMul_first_total h prog inst :
  InstMul_RetCh inst = None →
  ∃ h' prog' ret,
    execInstMul h prog inst = Some (h', prog', ret) ∧ PC prog' = PC prog ∧
    (isError prog ret ∨ ∃ x y ρ σ retCh, ret = NotReady (Some (Multiply x y ρ σ retCh))).
Proof using Type.
  intros Hnil. unfold execInstMul, isError. rewrite Hnil.
  repeat case_match; simplify_eq;
    (eexists _, _, _; split; [reflexivity|]; split; [reflexivity|]);
    solve [left; eexists; reflexivity | right; by eexists _, _, _, _, _].
Qed.

(** The value popped first by [Mul] must be a PrivateRn, the second and
    the third a Private. *)
Lemma execInstMul_wrong_type h prog inst s1 rn :
  InstMul_RetCh inst = None →
  Pop (Stack prog) = (s1, inr rn) →
  (∀ ρ σ, rn ≠ ValuePrivateRn ρ σ) →
  execInstMul h prog inst =
    Some (h, setStack prog s1,
          NotReady (Some (ErrorUnexpectedValue rn
            (ValuePrivateRn (shamir.New 0 0) (shamir.New 0 0)) (PC prog)))).
Proof using Type.
  intros Hnil Hpop Hrn. unfold execInstMul. rewrite Hnil, Hpop.
  destruct rn; try done. by destruct (Hrn Rho0 Sigma0).
Qed.

(** On first entry [Open] does not panic either. *)
Lemma execInstOpen_first_total h prog inst :
  InstOpen_RetCh inst = None →
  ∃ h' prog' ret,
    execInstOpen h prog inst = Some (h', prog', ret) ∧ PC prog' = PC prog ∧
    (isError prog ret ∨ ∃ v retCh, ret = NotReady (Some (Open v retCh))).
Proof using Type.
  intros Hnil. unfold execInstOpen, isError. rewrite Hnil.
  repeat case_match; simplify_eq;
    (eexists _, _, _; split; [reflexivity|]; split; [reflexivity|]);
    solve [left; eexists; reflexivity | right; by eexists _, _].
Qed.

(** [Add] is different: whatever the stack and the sums of the package
    are, it panics when the value popped second is a PrivateRn. *)
Lemma execInstAdd_PrivateRn h prog s1 rhs s2 ρ σ :
  Pop (Stack prog) = (s1, inr rhs) →
  Pop s1 = (s2, inr (ValuePrivateRn ρ σ)) →
  execInstAdd h prog = None.
Proof using Type.
  intros H1 H2. unfold execInstAdd. rewrite H1. cbn. by rewrite H2.
Qed.

(** The stack errors of [Add] are error intents. *)
Lemma execInstAdd_stack_error h prog s1 err :
  Pop (Stack prog) = (s1, inl err) →
  execInstAdd h prog =
    Some (h, setStack prog s1,
          NotReady (Some (ErrorExecution (StackError err) (PC prog)))).
Proof using Type.
  intros H1. unfold execInstAdd. by rewrite H1.
Qed.

(** C2, amended.  When pc has reached or passed the end of the code,
    [Exec] returns NotReady with the error intent "code overflow" for that
    pc, whatever the stack holds, and leaves the program and the channels
    as they are.  The interpreter has no intent to exit. *)
Theorem Exec_code_overflow (h : Chans) (prog : Program) :
  (length (Code prog) ≤ PC prog)%nat →
  Exec h prog = Some (h, prog, NotReady (Some (ErrorCodeOverflow (PC prog)))).
Proof using Type.
  intros Hpc. unfold Exec. by rewrite decide_True.
Qed.

End interpreter.
End program_props.

(** *** The interpreter on concrete programs *)

Module program_examples.
Import program program_facts program_props.

Definition E : Externals := listExternals 251.
Definition h0 : Chans := {| shareChans := ∅; intChans := ∅ |}.
Definition zeroShare : shamir.Share := shamir.New 0 0.

Definition progOf (code : list Inst) (pc : nat) (vs : list Value) (lim : nat)
    : @Program E :=
  {| ID := replicate 32 0%N; Stack := {| values := vs; limit := lim |} : @StackT E;
     Memory := ∅; Code := code; PC := pc |}.

Definition freshRand : InstRand :=
  {| RhoCh := None; SigmaCh := None; RhoReady := false; SigmaReady := false;
     Rho := zeroShare; Sigma := zeroShare |}.

Definition freshMul : InstMul :=
  {| InstMul_RetCh := None; InstMul_RetReady := false; InstMul_Ret := zeroShare |}.

(** The program has run to its end with a value left on the stack. *)
Definition progEnd : @Program E :=
  progOf [InstPush (ValuePublic (Some 7))] 1 [ValuePublic (Some 7)] 8.

Lemma Exec_code_overflow_witness :
  Exec h0 progEnd = Some (h0, progEnd, NotReady (Some (ErrorCodeOverflow 1))).
Proof.
  apply (Exec_code_overflow (H := E) h0 progEnd). simpl. lia.
Defined.

(** C2 as stated fails: with pc at the end of the code and a value on the
    stack, the intent of [Exec] is an error intent. *)
Lemma Exec_exit_counterexample :
  ¬ (∀ (E : Externals) (h : Chans) (prog : @Program E),
       (length (Code prog) ≤ PC prog)%nat →
       (∃ s v, Pop (Stack prog) = (s, inr v)) →
       ∀ h' prog' err pc,
         Exec h prog ≠ Some (h', prog', NotReady (Some (IntentToError err pc)))).
Proof.
  intros Hclaim.
  apply (Hclaim E h0 progEnd ltac:(simpl; lia)
           ltac:(eexists _, _; reflexivity) h0 progEnd CodeOverflow 1%nat).
  reflexivity.
Qed.

(** C5, the failing inputs.  [Add] with a PrivateRn as its left operand
    panics instead of returning an error intent; and when the stack is
    full the resumed [Mul] drops the error of [Push]: it returns Ready
    with pc incremented and the result not on the stack. *)
Theorem Add_panics_and_Push_error_dropped :
  Exec h0 (progOf [InstAdd] 0
             [ValuePublic (Some 1); ValuePrivateRn (shamir.New 1 2) (shamir.New 1 3)] 8)
    = None ∧
  let full := [ValuePublic (Some 1)] in
  let h := {| shareChans := {[ 0%nat := Some (shamir.New 1 42) ]}; intChans := ∅ |} in
  let waiting := {| InstMul_RetCh := Some 0%nat; InstMul_RetReady := false;
                    InstMul_Ret := zeroShare |} in
  ∃ h' code',
    Exec h (progOf [IMul waiting] 0 full 1) = Some (h', progOf code' 1 full 1, Ready).
Proof.
  split; [reflexivity|]. intros full h waiting.
  eexists _, _. vm_compute. reflexivity.
Qed.

(** *** Suspension on concrete programs *)

Definition freshOpening : InstOpen :=
  {| InstOpen_RetCh := None; InstOpen_RetReady := false; InstOpen_Ret := None |}.

(** The instructions after their first entry, with the sinks 0 and 1. *)
Definition suspendedRand : InstRand :=
  {| RhoCh := Some 0%nat; SigmaCh := Some 1%nat;
     RhoReady := false; SigmaReady := false;
     Rho := zeroShare; Sigma := zeroShare |}.

Definition suspendedMul : InstMul :=
  {| InstMul_RetCh := Some 0%nat; InstMul_RetReady := false;
     InstMul_Ret := zeroShare |}.

Definition suspendedOpen : InstOpen :=
  {| InstOpen_RetCh := Some 0%nat; InstOpen_RetReady := false;
     InstOpen_Ret := None |}.

(** The sinks of the shares: ρ is there and σ is not; both are there; the
    one sink is empty; the one sink is filled. *)
Definition rhoOnly : Chans :=
  {| shareChans := {[ 0%nat := Some (shamir.New 1 5); 1%nat := None ]};
     intChans := ∅ |}.

Definition rhoAndSigma : Chans :=
  {| shareChans := {[ 0%nat := Some (shamir.New 1 5);
                      1%nat := Some (shamir.New 1 6) ]};
     intChans := ∅ |}.

Definition emptyShare : Chans :=
  {| shareChans := {[ 0%nat := None ]}; intChans := ∅ |}.

Definition filledShare : Chans :=
  {| shareChans := {[ 0%nat := Some (shamir.New 1 42) ]}; intChans := ∅ |}.

(** The sink of the integer, empty and filled. *)
Definition emptyInt : Chans :=
  {| shareChans := ∅; intChans := {[ 0%nat := None ]} |}.

Definition filledInt : Chans :=
  {| shareChans := ∅; intChans := {[ 0%nat := Some (Some 9) ]} |}.

(** C6 on concrete programs.  [Rand]: the first entry; a re-entry with ρ
    in its sink and σ missing, which takes ρ and waits; a re-entry with
    both, which pushes the pair.  [Mul]: the first entry on a stack x, y,
    rn; the first entry on an empty stack, an error; the re-entry on the
    empty and on the filled sink.  [Open]: the first entry, and the
    re-entry on the empty and on the filled sink. *)
Lemma suspend_resume_witness :
  let rn := ValuePrivateRn (shamir.New 1 5) (shamir.New 1 6) in
  let x := shamir.New 1 2 in
  let y := shamir.New 1 3 in
  let progRand := progOf [IRand suspendedRand] 0 [] 8 in
  let progMul := progOf [IMul freshMul] 0 [rn; ValuePrivate y; ValuePrivate x] 8 in
  let progMul1 := progOf [IMul suspendedMul] 0 [] 8 in
  let progOpen := progOf [IOpen freshOpening] 0 [ValuePrivate x] 8 in
  let progOpen1 := progOf [IOpen suspendedOpen] 0 [] 8 in
  (* Rand *)
  (∃ ρCh σCh h',
     Exec h0 (progOf [IRand freshRand] 0 [] 8) =
       Some (h',
             progOf [IRand {| RhoCh := Some ρCh; SigmaCh := Some σCh;
                              RhoReady := false; SigmaReady := false;
                              Rho := zeroShare; Sigma := zeroShare |}] 0 [] 8,
             NotReady (Some (GenRn ρCh σCh))) ∧ ρCh ≠ σCh) ∧
  Exec rhoOnly progRand =
    Some ({| shareChans := {[ 0%nat := None; 1%nat := None ]}; intChans := ∅ |},
          progOf [IRand {| RhoCh := Some 0%nat; SigmaCh := Some 1%nat;
                           RhoReady := true; SigmaReady := false;
                           Rho := shamir.New 1 5; Sigma := zeroShare |}] 0 [] 8,
          NotReady None) ∧
  Exec rhoAndSigma progRand =
    Some ({| shareChans := {[ 0%nat := None; 1%nat := None ]}; intChans := ∅ |},
          progOf [IRand {| RhoCh := Some 0%nat; SigmaCh := Some 1%nat;
                           RhoReady := true; SigmaReady := true;
                           Rho := shamir.New 1 5; Sigma := shamir.New 1 6 |}] 1
            [rn] 8,
          Ready) ∧
  (* Mul *)
  (∃ retCh h',
     Exec h0 progMul =
       Some (h',
             progOf [IMul {| InstMul_RetCh := Some retCh;
                             InstMul_RetReady := false;
                             InstMul_Ret := zeroShare |}] 0 [] 8,
             NotReady (Some (Multiply x y (shamir.New 1 5) (shamir.New 1 6) retCh)))) ∧
  (∃ prog' err,
     Exec h0 (progOf [IMul freshMul] 0 [] 8) =
       Some (h0, prog', NotReady (Some (ErrorExecution err 0))) ∧
     Code prog' = [IMul freshMul]) ∧
  Exec emptyShare progMul1 = Some (emptyShare, progMul1, NotReady None) ∧
  Exec filledShare progMul1 =
    Some (emptyShare,
          progOf [IMul {| InstMul_RetCh := Some 0%nat; InstMul_RetReady := true;
                          InstMul_Ret := shamir.New 1 42 |}] 1
            [ValuePrivate (shamir.New 1 42)] 8,
          Ready) ∧
  (* Open *)
  (∃ retCh h',
     Exec h0 progOpen =
       Some (h',
             progOf [IOpen {| InstOpen_RetCh := Some retCh;
                              InstOpen_RetReady := false;
                              InstOpen_Ret := None |}] 0 [] 8,
             NotReady (Some (Open x retCh)))) ∧
  Exec emptyInt progOpen1 = Some (emptyInt, progOpen1, NotReady None) ∧
  Exec filledInt progOpen1 =
    Some (emptyInt,
          progOf [IOpen {| InstOpen_RetCh := Some 0%nat; InstOpen_RetReady := true;
                           InstOpen_Ret := Some 9 |}] 1
            [ValuePublic (Some 9)] 8,
          Ready).
Proof.
  intros rn x y progRand progMul progMul1 progOpen progOpen1.
  repeat apply conj.
  - destruct (suspend_resume (H := E) h0 (progOf [IRand freshRand] 0 [] 8))
      as [HR _].
    destruct (HR freshRand eq_refl) as [Hfirst _].
    destruct (Hfirst (or_introl eq_refl)) as (ρCh & σCh & h' & Hex & _ & _ & Hne & _).
    exists ρCh, σCh, h'. split; [exact Hex|exact Hne].
  - destruct (suspend_resume (H := E) rhoOnly progRand) as [HR _].
    destruct (HR suspendedRand eq_refl) as [_ Hre].
    destruct (Hre 0%nat 1%nat eq_refl eq_refl) as [_ Htaken].
    destruct (Htaken (shamir.New 1 5) _ _ _
                (or_introl (conj eq_refl (conj eq_refl
                   (conj eq_refl (conj eq_refl eq_refl))))))
      as (Hwait & _ & _).
    rewrite (Hwait eq_refl (or_intror eq_refl)). vm_compute. reflexivity.
  - destruct (suspend_resume (H := E) rhoAndSigma progRand) as [HR _].
    destruct (HR suspendedRand eq_refl) as [_ Hre].
    destruct (Hre 0%nat 1%nat eq_refl eq_refl) as [_ Htaken].
    destruct (Htaken (shamir.New 1 5) _ _ _
                (or_introl (conj eq_refl (conj eq_refl
                   (conj eq_refl (conj eq_refl eq_refl))))))
      as (_ & Hpush & _).
    rewrite (Hpush eq_refl (shamir.New 1 6) eq_refl). vm_compute. reflexivity.
  - destruct (suspend_resume (H := E) h0 progMul) as (_ & HM & _).
    destruct (HM freshMul eq_refl) as [Hfirst _].
    destruct (Hfirst eq_refl) as [Hok _].
    destruct (Hok _ _ _ _ _ _ _ eq_refl eq_refl eq_refl)
      as (retCh & h' & Hex & _).
    exists retCh, h'. exact Hex.
  - destruct (suspend_resume (H := E) h0 (progOf [IMul freshMul] 0 [] 8))
      as (_ & HM & _).
    destruct (HM freshMul eq_refl) as [Hfirst _].
    destruct (Hfirst eq_refl) as [_ Herr].
    apply Herr. intros s1 s2 s3 ρ σ y0 x0 [Hpop _]. discriminate Hpop.
  - destruct (suspend_resume (H := E) emptyShare progMul1) as (_ & HM & _).
    destruct (HM suspendedMul eq_refl) as [_ Hre].
    destruct (Hre 0%nat eq_refl) as (Hwait & _ & _).
    exact (Hwait eq_refl (or_intror eq_refl)).
  - destruct (suspend_resume (H := E) filledShare progMul1) as (_ & HM & _).
    destruct (HM suspendedMul eq_refl) as [_ Hre].
    destruct (Hre 0%nat eq_refl) as (_ & Hpush & _).
    rewrite (Hpush eq_refl (shamir.New 1 42) eq_refl). vm_compute. reflexivity.
  - destruct (suspend_resume (H := E) h0 progOpen) as (_ & _ & HO).
    destruct (HO freshOpening eq_refl) as [Hfirst _].
    destruct (Hfirst eq_refl) as [Hok _].
    destruct (Hok _ _ eq_refl) as (retCh & h' & Hex & _).
    exists retCh, h'. exact Hex.
  - destruct (suspend_resume (H := E) emptyInt progOpen1) as (_ & _ & HO).
    destruct (HO suspendedOpen eq_refl) as [_ Hre].
    destruct (Hre 0%nat eq_refl) as (Hwait & _ & _).
    exact (Hwait eq_refl (or_intror eq_refl)).
  - destruct (suspend_resume (H := E) filledInt progOpen1) as (_ & _ & HO).
    destruct (HO suspendedOpen eq_refl) as [_ Hre].
    destruct (Hre 0%nat eq_refl) as (_ & Hpush & _).
    rewrite (Hpush eq_refl (Some 9) eq_refl). vm_compute. reflexivity.
Defined.

(** C6 as stated fails on the first entry: a fresh [Mul] on an empty
    stack, and one whose top of the stack is not a PrivateRn, return an
    error intent, not the intent to multiply, and store no sink. *)
Lemma first_entry_error_counterexample :
  ¬ (∀ (E : Externals) (h : Chans) (prog : @Program E) (inst : InstMul),
       Code prog !! PC prog = Some (IMul inst) →
       InstMul_RetCh inst = None →
       ∃ h' prog' x y ρ σ retCh,
         Exec h prog = Some (h', prog', NotReady (Some (Multiply x y ρ σ retCh)))) ∧
  Exec h0 (progOf [IMul freshMul] 0 [ValuePublic (Some 1)] 8) =
    Some (h0, progOf [IMul freshMul] 0 [] 8,
          NotReady (Some (ErrorUnexpectedValue (ValuePublic (Some 1))
                            (ValuePrivateRn zeroShare zeroShare) 0))).
Proof.
  split; [|reflexivity].
  intros Hclaim.
  destruct (Hclaim E h0 (progOf [IMul freshMul] 0 [] 8) freshMul eq_refl eq_refl)
    as (h' & prog' & x & y & ρ & σ & retCh & Hex).
  discriminate Hex.
Qed.

End program_examples.

(** ** The VM dispatcher *)

Module vm_props.
Import vm.

Section dispatcher.

Variable Process : Type.
Variable Process_ID : Process → list N.
Variable Process_Exec : Chans → Process → Chans * Process * Return.
Variable zeroProcess : Process.
Variables RnShares ProposeRnShare OpenPayload : Type.

Abbreviation VM := (VM Process RnShares ProposeRnShare OpenPayload).
Abbreviation Reduce :=
  (Reduce Process Process_ID Process_Exec zeroProcess
          RnShares ProposeRnShare OpenPayload).

(** C9.  A result of the rng, mul or open task whose id is not the id of a
    registered intent makes [Reduce] return nil and leaves the
    dispatcher, with its map of processes and its map of intents, and the
    channels as they are. *)
Theorem unregistered_result_ignored (h : Chans) (vm : VM) :
  (∀ message : rng_Result,
     intents _ _ _ _ vm !! msgidToIID (rng_Result_MessageID message) = None →
     Reduce h vm (rng_Result_ _ _ _ _ message) = Some (h, vm, MNil _ _ _ _)) ∧
  (∀ message : mul.Result,
     intents _ _ _ _ vm !! msgidToIID (mul.Result_MessageID message) = None →
     Reduce h vm (mul_Result _ _ _ _ message) = Some (h, vm, MNil _ _ _ _)) ∧
  (∀ message : open_Result,
     intents _ _ _ _ vm !! msgidToIID (open_Result_MessageID message) = None →
     Reduce h vm (open_Result_ _ _ _ _ message) = Some (h, vm, MNil _ _ _ _)).
Proof using Type.
  split; [|split]; intros message Hnone; simpl.
  - unfold recvInternalRngResult. by rewrite Hnone.
  - unfold recvInternalMulResult. by rewrite Hnone.
  - unfold recvInternalOpenResult. by rewrite Hnone.
Qed.

End dispatcher.

(** The theorem on a dispatcher with one registered intent, for results
    with another id. *)
Definition idle (h : Chans) (proc : nat) : Chans * nat * Return :=
  (h, proc, {| Return_Intent := None; IsReady := false |}).

Definition vm1 : vm.VM nat unit unit unit :=
  {| index := 1; procs := {[ replicate 32 1%N := 7%nat ]};
     intents := {[ replicate 40 1%N := IntentToOpen (replicate 40 1%N) (shamir.New 1 5) 0 ]};
     rng := []; mul := []; open := [] |}.

Lemma unregistered_result_ignored_witness :
  let h := {| sharesChans := ∅; valueChans := {[ 0%nat := None ]} |} in
  let other := replicate 40 2%N in
  vm.Reduce nat (λ _, replicate 32 1%N) idle 0%nat unit unit unit h vm1
    (rng_Result_ _ _ _ _ {| rng_Result_MessageID := other; Rhos := []; Sigmas := [] |})
    = Some (h, vm1, MNil _ _ _ _) ∧
  vm.Reduce nat (λ _, replicate 32 1%N) idle 0%nat unit unit unit h vm1
    (mul_Result _ _ _ _ (mul.NewResult other [shamir.New 1 3]))
    = Some (h, vm1, MNil _ _ _ _) ∧
  vm.Reduce nat (λ _, replicate 32 1%N) idle 0%nat unit unit unit h vm1
    (open_Result_ _ _ _ _ {| open_Result_MessageID := other; open_Result_Value := 9 |})
    = Some (h, vm1, MNil _ _ _ _).
Proof.
  intros h other.
  destruct (unregistered_result_ignored nat (λ _, replicate 32 1%N) idle 0%nat
              unit unit unit h vm1) as (Hrng & Hmul & Hopen).
  split; [|split].
  - apply Hrng. reflexivity.
  - apply Hmul. reflexivity.
  - apply Hopen. reflexivity.
Defined.

End vm_props.

(** * Part III: further properties of the multiplier, the interpreter and
      the dispatcher *)

(** ** The multiplication task under arbitrary traffic *)

Module mul_invariants.
Import mul mul_facts.

(** The id a message of the task is about. *)
Definition idOf (message : Message) : option task.MessageID :=
  match message with
  | MMul message => Some (Mul_MessageID message)
  | MOpenMul message => Some (OpenMul_MessageID message)
  | _ => None
  end.

(** The maps are keyed by what they hold: a signal, an opening and a
    result are filed under their own id, an opening under its own sender;
    no id has both a signal and a result; no empty map of openings is kept. *)
Record wf (m : multiplier) : Prop := {
  wf_muls : ∀ id s, muls m !! id = Some s → Mul_MessageID s = id;
  wf_opens : ∀ id st from o,
    opens m !! id = Some st → st !! from = Some o →
    OpenMul_MessageID o = id ∧ From o = from;
  wf_results : ∀ id r, results m !! id = Some r → Result_MessageID r = id;
  wf_disjoint : ∀ id, is_Some (muls m !! id) → results m !! id = None;
  wf_nonempty : ∀ id, opens m !! id ≠ Some ∅;
}.

Lemma wf_new index n k cap : wf (newMultiplier index n k cap).
Proof.
  split; simpl; intros *; rewrite ?lookup_empty; done.
Qed.

Lemma stored_lookup m message from o :
  stored m message !! from = Some o →
  o = message ∧ from = From message ∨
  ∃ st, opens m !! OpenMul_MessageID message = Some st ∧ st !! from = Some o.
Proof.
  unfold stored. intros Hl.
  destruct (decide (from = From message)) as [->|Hne].
  - rewrite lookup_insert_eq in Hl. left. by injection Hl as <-.
  - rewrite lookup_insert_ne in Hl by done. right.
    destruct (opens m !! OpenMul_MessageID message) as [st|]; [by exists st|].
    simpl in Hl. by rewrite lookup_empty in Hl.
Qed.

Lemma wf_recorded m message : wf m → wf (recorded m message).
Proof.
  intros [Hm Ho Hr Hd Hn]. split; cbn [recorded muls opens results]; try done.
  - intros id st from o Hst Hl.
    destruct (decide (id = OpenMul_MessageID message)) as [->|Hne].
    + rewrite lookup_insert_eq in Hst. injection Hst as <-.
      apply stored_lookup in Hl as [[-> ->]|(st & Hst & Hl)]; [done|eauto].
    + rewrite lookup_insert_ne in Hst by done. eauto.
  - intros id Hst.
    destruct (decide (id = OpenMul_MessageID message)) as [->|Hne].
    + rewrite lookup_insert_eq in Hst. injection Hst as Hst.
      unfold stored in Hst. by apply insert_non_empty in Hst.
    + rewrite lookup_insert_ne in Hst by done. by apply (Hn id).
Qed.

Lemma wf_completed m message shares :
  wf m →
  wf (completed m message (NewResult (OpenMul_MessageID message) shares)).
Proof.
  intros [Hm Ho Hr Hd Hn]. split; cbn [completed muls opens results].
  - intros id s Hs. apply lookup_delete_Some in Hs as [_ Hs]. eauto.
  - intros id st from o Hst Hl.
    apply lookup_delete_Some in Hst as [Hne Hst].
    rewrite lookup_insert_ne in Hst by done. eauto.
  - intros id r Hl.
    destruct (decide (id = OpenMul_MessageID message)) as [->|Hne].
    + rewrite lookup_insert_eq in Hl. by injection Hl as <-.
    + rewrite lookup_insert_ne in Hl by done. eauto.
  - intros id [s Hs]. apply lookup_delete_Some in Hs as [Hne Hs].
    rewrite lookup_insert_ne by done. eauto.
  - intros id Hst. apply lookup_delete_Some in Hst as [Hne Hst].
    rewrite lookup_insert_ne in Hst by done. by apply (Hn id).
Qed.

Lemma tryOpenMul_wf q alloc m message m' out :
  wf m → tryOpenMul q alloc m message = Some (m', out) → wf m'.
Proof.
  intros Hwf Htry.
  destruct (tryOpenMul_cases q alloc m message)
    as [H|[H|(signal & shares & _ & _ & _ & _ & H)]];
    rewrite H in Htry; [done| |]; injection Htry as <- <-.
  - by apply wf_recorded.
  - by apply wf_completed.
Qed.

(** The state [mul] hands to [tryOpenMul]. *)
Definition signalled (m : multiplier) (message : Mul) : multiplier :=
  {| index := index m; n := n m; k := k m;
     muls := <[Mul_MessageID message := message]> (muls m);
     opens := opens m; results := results m |}.

Lemma wf_signalled m message :
  wf m → results m !! Mul_MessageID message = None → wf (signalled m message).
Proof.
  intros [Hm Ho Hr Hd Hn] Hnone. split; cbn [signalled muls opens results]; try done.
  - intros id s Hs.
    destruct (decide (id = Mul_MessageID message)) as [->|Hne].
    + rewrite lookup_insert_eq in Hs. by injection Hs as <-.
    + rewrite lookup_insert_ne in Hs by done. eauto.
  - intros id [s Hs].
    destruct (decide (id = Mul_MessageID message)) as [->|Hne]; [done|].
    rewrite lookup_insert_ne in Hs by done. eauto.
Qed.

(** [mul] returns the cached result, or panics, or hands its own opening
    to [tryOpenMul]. *)
Lemma mul_cases q alloc m message :
  (∃ r, results m !! Mul_MessageID message = Some r ∧
        mul q alloc m message = Some (m, MResult r)) ∨
  results m !! Mul_MessageID message = None ∧
  (mul q alloc m message = None ∨
   ∃ shares m' out,
     mulShares q message = Some shares ∧
     tryOpenMul q alloc (signalled m message)
       (NewOpenMul (Mul_MessageID message) (index m) shares) = Some (m', out) ∧
     mul q alloc m message =
       Some (m', MessageBatch
                   [out; MOpenMul (NewOpenMul (Mul_MessageID message) (index m) shares)])).
Proof.
  unfold mul. fold (signalled m message).
  destruct (results m !! _) as [r|]; [left; eauto|right; split; [done|]].
  destruct (mulShares q message) as [shares|] eqn:Hs; simpl; [|by left].
  destruct (tryOpenMul _ _ _) as [[m' out]|] eqn:Htry; simpl; [|by left].
  right. by exists shares, m', out.
Qed.

Lemma Reduce_wf q alloc m message m' out :
  wf m → Reduce q alloc m message = Some (m', out) → wf m'.
Proof.
  intros Hwf HR. destruct message as [|s|o| |]; try done; simpl in HR.
  - destruct (mul_cases q alloc m s)
      as [(r & _ & H)|[Hnone [H|(shares & m1 & out1 & _ & Htry & H)]]];
      rewrite H in HR; [|done|]; injection HR as <- <-; [done|].
    eapply tryOpenMul_wf; [|done]. by apply wf_signalled.
  - by eapply tryOpenMul_wf.
Qed.

Lemma run_wf q alloc trace : ∀ m m' outs,
  wf m → run q alloc m trace = Some (m', outs) → wf m'.
Proof.
  induction trace as [|message rest IH]; intros m m' outs Hwf Hrun; simpl in Hrun.
  - by injection Hrun as <- _.
  - destruct (Reduce q alloc m message) as [[m1 out]|] eqn:HR; [|done]. simpl in Hrun.
    destruct (run q alloc m1 rest) as [[m2 outs2]|] eqn:Hrest; [|done].
    injection Hrun as <- _. eapply IH; [|done]. by eapply Reduce_wf.
Qed.

(** *** What a step leaves alone *)

Lemma tryOpenMul_frame q alloc m message m' out :
  tryOpenMul q alloc m message = Some (m', out) →
  index m' = index m ∧ n m' = n m ∧ k m' = k m ∧
  (∀ id, id ≠ OpenMul_MessageID message →
     muls m' !! id = muls m !! id ∧ opens m' !! id = opens m !! id ∧
     results m' !! id = results m !! id) ∧
  (∀ r, r ∈ resultsOf out → Result_MessageID r = OpenMul_MessageID message).
Proof.
  intros Htry.
  destruct (tryOpenMul_cases q alloc m message)
    as [H|[H|(signal & shares & _ & _ & _ & _ & H)]];
    rewrite H in Htry; [done| |]; injection Htry as <- <-;
    (split; [done|]; split; [done|]; split; [done|]; split).
  - intros id Hne. cbn [recorded muls opens results].
    by rewrite lookup_insert_ne.
  - intros r Hr. by apply elem_of_nil in Hr.
  - intros id Hne. cbn [completed muls opens results].
    by rewrite !lookup_delete_ne, !lookup_insert_ne.
  - intros r Hr. simpl in Hr. by apply list_elem_of_singleton in Hr as ->.
Qed.

Lemma Reduce_frame q alloc m message m' out :
  wf m → Reduce q alloc m message = Some (m', out) →
  index m' = index m ∧ n m' = n m ∧ k m' = k m ∧
  (∀ id, idOf message ≠ Some id →
     muls m' !! id = muls m !! id ∧ opens m' !! id = opens m !! id ∧
     results m' !! id = results m !! id) ∧
  (∀ r, r ∈ flat_map resultsOf [out] → idOf message = Some (Result_MessageID r)).
Proof.
  intros Hwf HR. destruct message as [|s|o| |]; try done; simpl in HR.
  - destruct (mul_cases q alloc m s)
      as [(r & Hr & H)|[Hnone [H|(shares & m1 & out1 & _ & Htry & H)]]];
      rewrite H in HR; [|done|]; injection HR as <- <-.
    + repeat (split; [done|]). intros r' Hr'. simpl in Hr'.
      apply list_elem_of_singleton in Hr' as ->. simpl. f_equal.
      symmetry. by apply (wf_results m Hwf).
    + apply tryOpenMul_frame in Htry as (Hi & Hn & Hk & Hother & Hres).
      cbn [OpenMul_MessageID signalled index n k muls opens results] in *.
      repeat (split; [done|]). split.
      * intros id Hne. simpl in Hne.
        destruct (Hother id) as (-> & -> & ->); [congruence|].
        rewrite lookup_insert_ne by congruence. done.
      * intros r Hr. simpl in Hr. rewrite !app_nil_r in Hr.
        simpl. f_equal. symmetry. by apply Hres.
  - apply tryOpenMul_frame in HR as (Hi & Hn & Hk & Hother & Hres).
    repeat (split; [done|]). split.
    + intros id Hne. apply Hother. simpl in Hne. congruence.
    + intros r Hr. simpl in Hr. rewrite app_nil_r in Hr.
      simpl. f_equal. symmetry. by apply Hres.
Qed.

Lemma emitted_split id out outs :
  emitted id (out :: outs) = emitted id [out] ++ emitted id outs.
Proof.
  unfold emitted. simpl. by rewrite app_nil_r, filter_app.
Qed.

Lemma emitted_no_id id out :
  (∀ r, r ∈ flat_map resultsOf [out] → Result_MessageID r ≠ id) →
  emitted id [out] = [].
Proof.
  intros Hall. unfold emitted.
  induction (flat_map resultsOf [out]) as [|r l IH]; [done|].
  rewrite filter_cons_False; [|by apply Hall; left].
  apply IH. intros r' Hr'. apply Hall. by right.
Qed.

Lemma emitted_nil_out id out outs :
  (∀ r, r ∈ flat_map resultsOf [out] → Result_MessageID r ≠ id) →
  emitted id (out :: outs) = emitted id outs.
Proof.
  intros Hall. by rewrite emitted_split, (emitted_no_id id out Hall).
Qed.

Lemma senders_other index0 id message rest :
  idOf message ≠ Some id →
  senders index0 id (message :: rest) = senders index0 id rest.
Proof.
  intros Hne. destruct message as [|s|o| |]; simpl in *; try done.
  - rewrite decide_False by congruence. by rewrite (left_id_L ∅ (∪)).
  - rewrite decide_False by congruence. by rewrite (left_id_L ∅ (∪)).
Qed.

Lemma signals_other id message rest :
  idOf message ≠ Some id → signals id (message :: rest) = signals id rest.
Proof.
  intros Hne. destruct message as [|s|o| |]; simpl in *; try done.
  by rewrite decide_False by congruence.
Qed.

(** *** When [tryOpenMul] only records *)

Lemma tryOpenMul_no_signal q alloc m message :
  muls m !! OpenMul_MessageID message = None →
  tryOpenMul q alloc m message = Some (recorded m message, MNil).
Proof.
  intros Hs. unfold tryOpenMul. fold (stored m message). cbn [muls results].
  case_decide; [done|]. by rewrite Hs.
Qed.

Lemma tryOpenMul_below q alloc m message :
  (N.of_nat (size (stored m message)) < k m)%N →
  tryOpenMul q alloc m message = Some (recorded m message, MNil).
Proof.
  intros Hk. unfold tryOpenMul. fold (stored m message). by rewrite decide_True.
Qed.

Lemma tryOpenMul_results_kept q alloc m message m' out :
  tryOpenMul q alloc m message = Some (m', out) → results m ⊆ results m'.
Proof.
  intros Htry.
  destruct (tryOpenMul_cases q alloc m message)
    as [H|[H|(signal & shares & _ & _ & Hr & _ & H)]];
    rewrite H in Htry; [done| |]; injection Htry as <- <-.
  - done.
  - by apply insert_subseteq.
Qed.

Lemma Reduce_results_kept q alloc m message m' out :
  Reduce q alloc m message = Some (m', out) → results m ⊆ results m'.
Proof.
  intros HR. destruct message as [|s|o| |]; try done; simpl in HR.
  - destruct (mul_cases q alloc m s)
      as [(r & _ & H)|[Hnone [H|(shares & m1 & out1 & _ & Htry & H)]]];
      rewrite H in HR; [|done|]; injection HR as <- <-; [done|].
    by apply tryOpenMul_results_kept in Htry.
  - by eapply tryOpenMul_results_kept.
Qed.

Lemma results_run_kept q alloc trace : ∀ m m' outs,
  run q alloc m trace = Some (m', outs) → results m ⊆ results m'.
Proof.
  induction trace as [|message rest IH]; intros m m' outs Hrun; simpl in Hrun.
  - by injection Hrun as <- _.
  - destruct (Reduce q alloc m message) as [[m1 out]|] eqn:HR; [|done]. simpl in Hrun.
    destruct (run q alloc m1 rest) as [[m2 outs2]|] eqn:Hrest; [|done].
    injection Hrun as <- _.
    etrans; [by eapply Reduce_results_kept|by eapply IH].
Qed.

(** The states of the task: those a run from a new multiplier ends in. *)
Definition reachable (q : Z) (alloc : N) (m : multiplier) : Prop :=
  ∃ index n k cap trace outs,
    run q alloc (newMultiplier index n k cap) trace = Some (m, outs).

Lemma reachable_is_wf q alloc m : reachable q alloc m → wf m.
Proof.
  intros (index & n & k & cap & trace & outs & Hrun).
  eapply run_wf; [apply wf_new|done].
Qed.

(** A second id, for the examples. *)
Definition id1 : task.MessageID := replicate 40 1%N.

(** X1.  The multiplications do not interfere: a message about one id
    leaves the signal, the openings and the result stored for every other
    id as they are, returns no result for another id, and never changes
    the index, n or k of the task. *)
Theorem Reduce_other_ids (q : Z) (alloc : N) (m : multiplier) (message : Message)
    (m' : multiplier) (out : Message) (id : task.MessageID) :
  reachable q alloc m → Reduce q alloc m message = Some (m', out) →
  idOf message ≠ Some id →
  muls m' !! id = muls m !! id ∧ opens m' !! id = opens m !! id ∧
  results m' !! id = results m !! id ∧ emitted id [out] = [] ∧
  index m' = index m ∧ n m' = n m ∧ k m' = k m.
Proof.
  intros Hm%reachable_is_wf HR Hne.
  destruct (Reduce_frame q alloc m message m' out Hm HR) as (Hi & Hn & Hk & Hother & Hres).
  destruct (Hother id Hne) as (-> & -> & ->).
  repeat (split; [done|]). split; [|done].
  apply emitted_no_id. intros r Hr Hid. apply Hne. by rewrite (Hres r Hr), Hid.
Qed.

Lemma Reduce_other_ids_witness :
  ∃ m', Reduce 251 mul_examples.alloc0 mul_examples.m0 (MOpenMul mul_examples.open2) = Some (m', MNil) ∧
    (muls m' !! id1 = muls mul_examples.m0 !! id1 ∧
     opens m' !! id1 = opens mul_examples.m0 !! id1 ∧
     results m' !! id1 = results mul_examples.m0 !! id1 ∧
     emitted id1 [MNil] = [] ∧
     index m' = index mul_examples.m0 ∧ n m' = n mul_examples.m0 ∧
     k m' = k mul_examples.m0).
Proof.
  eexists. split; [vm_compute; reflexivity|].
  apply (Reduce_other_ids 251 mul_examples.alloc0 mul_examples.m0 (MOpenMul mul_examples.open2)).
  - exists 1%N, 3%N, 2%N, 8, [], []. reflexivity.
  - vm_compute. reflexivity.
  - vm_compute. intros [=].
Defined.

(** X2.  In every state a run from a new multiplier reaches, each signal,
    opening and result is filed under its own id and each opening under
    its own sender; no id has both a stored signal and a cached result;
    and no empty map of openings is kept. *)
Theorem reachable_wf (q : Z) (alloc : N) (m : multiplier) : reachable q alloc m → wf m.
Proof.
  intros (index & n & k & cap & trace & outs & Hrun).
  eapply run_wf; [apply wf_new|done].
Qed.

Lemma reachable_wf_witness :
  ∃ m outs,
    run 251 mul_examples.alloc0 mul_examples.m0
      [MOpenMul mul_examples.open3; MMul mul_examples.mul0] = Some (m, outs) ∧
    wf m.
Proof.
  destruct (run 251 mul_examples.alloc0 mul_examples.m0
              [MOpenMul mul_examples.open3; MMul mul_examples.mul0])
    as [[m outs]|] eqn:Hrun; [|by vm_compute in Hrun].
  exists m, outs. split; [reflexivity|].
  apply (reachable_wf 251 mul_examples.alloc0 m).
  exists 1%N, 3%N, 2%N, 8,
    [MOpenMul mul_examples.open3; MMul mul_examples.mul0], outs. exact Hrun.
Defined.

(** X3.  The cache only grows: whatever messages the task receives, a
    cached result is never removed and never replaced. *)
Theorem cache_only_grows (q : Z) (alloc : N) (trace : list Message) (m m' : multiplier)
    (outs : list Message) :
  run q alloc m trace = Some (m', outs) → results m ⊆ results m'.
Proof.
  revert m m' outs.
  induction trace as [|message rest IH]; intros m m' outs Hrun; simpl in Hrun.
  - by injection Hrun as <- _.
  - destruct (Reduce q alloc m message) as [[m1 out]|] eqn:HR; [|done]. simpl in Hrun.
    destruct (run q alloc m1 rest) as [[m2 outs2]|] eqn:Hrest; [|done].
    injection Hrun as <- _.
    etrans; [by eapply Reduce_results_kept|by eapply IH].
Qed.

Lemma cache_only_grows_witness :
  ∃ m1 m2 outs,
    run 251 mul_examples.alloc0 mul_examples.m0
      [MMul mul_examples.mul0; MOpenMul mul_examples.open2] = Some (m1, outs) ∧
    ∃ outs', run 251 mul_examples.alloc0 m1 [MOpenMul mul_examples.open3; MMul mul_examples.mul0]
               = Some (m2, outs') ∧
             results m1 ⊆ results m2.
Proof.
  destruct (run 251 mul_examples.alloc0 mul_examples.m0
              [MMul mul_examples.mul0; MOpenMul mul_examples.open2])
    as [[m1 outs]|] eqn:Hrun; [|by vm_compute in Hrun].
  destruct (run 251 mul_examples.alloc0 m1 [MOpenMul mul_examples.open3; MMul mul_examples.mul0])
    as [[m2 outs']|] eqn:Hrun2.
  - exists m1, m2, outs. split; [reflexivity|]. exists outs'. split; [exact Hrun2|].
    apply (cache_only_grows 251 mul_examples.alloc0 _ m1 m2 outs' Hrun2).
  - vm_compute in Hrun. injection Hrun as <- <-. by vm_compute in Hrun2.
Defined.

Lemma run_no_signal q alloc id trace : ∀ m m' outs,
  wf m → muls m !! id = None → results m !! id = None →
  signals id trace = 0%nat → run q alloc m trace = Some (m', outs) →
  emitted id outs = [] ∧ results m' !! id = None.
Proof.
  induction trace as [|message rest IH]; intros m m' outs Hwf Hs Hr Hsig Hrun;
    simpl in Hrun.
  - by injection Hrun as <- <-.
  - destruct (Reduce q alloc m message) as [[m1 out]|] eqn:HR; [|done]. simpl in Hrun.
    destruct (run q alloc m1 rest) as [[m2 outs2]|] eqn:Hrest; [|done].
    injection Hrun as <- <-.
    pose proof (Reduce_wf q alloc m message m1 out Hwf HR) as Hwf1.
    destruct (decide (idOf message = Some id)) as [Hid|Hne].
    + destruct message as [|s|o| |]; try done; simpl in Hid, Hsig.
      { rewrite decide_True in Hsig by congruence. done. }
      injection Hid as <-. simpl in HR.
      rewrite (tryOpenMul_no_signal q alloc m o Hs) in HR. injection HR as <- <-.
      rewrite emitted_nil_out by (intros r Hr'; by apply elem_of_nil in Hr').
      by eapply IH.
    + destruct (Reduce_frame q alloc m message m1 out Hwf HR) as (_ & _ & _ & Hother & Hres).
      destruct (Hother id Hne) as (Hs1 & _ & Hr1).
      rewrite emitted_nil_out.
      2:{ intros r Hr' Hrid. apply Hne. by rewrite (Hres r Hr'), Hrid. }
      rewrite signals_other in Hsig by done.
      eapply IH; [done| | |done|done]; congruence.
Qed.

(** X4.  No result without the signal: in a run from a new multiplier
    that holds no [Mul] message for [id], whatever openings arrive, from
    whomever and with whatever shares, no [Result] for [id] is returned
    and none is cached. *)
Theorem no_signal_no_result (q : Z) (alloc : N) (index0 n0 k0 : N) (cap : Z)
    (id : task.MessageID) (trace : list Message) (m' : multiplier)
    (outs : list Message) :
  run q alloc (newMultiplier index0 n0 k0 cap) trace = Some (m', outs) →
  signals id trace = 0%nat →
  emitted id outs = [] ∧ results m' !! id = None.
Proof.
  intros Hrun Hsig.
  by eapply (run_no_signal q alloc id trace); [apply wf_new| | | |done].
Qed.

Lemma no_signal_no_result_witness :
  ∃ m' outs,
    run 251 mul_examples.alloc0 mul_examples.m0
      [MOpenMul mul_examples.open2; MOpenMul mul_examples.open3] = Some (m', outs) ∧
    emitted mul_examples.id0 outs = [] ∧ results m' !! mul_examples.id0 = None.
Proof.
  destruct (run 251 mul_examples.alloc0 mul_examples.m0
              [MOpenMul mul_examples.open2; MOpenMul mul_examples.open3])
    as [[m' outs]|] eqn:Hrun; [|by vm_compute in Hrun].
  exists m', outs. split; [reflexivity|].
  apply (no_signal_no_result 251 mul_examples.alloc0 1 3 2 8 mul_examples.id0 _ m' outs Hrun).
  reflexivity.
Defined.

Lemma run_below_quorum q alloc id trace : ∀ m m' outs (S : gset N),
  wf m → results m !! id = None →
  dom (default ∅ (opens m !! id)) ⊆ S →
  (N.of_nat (size (S ∪ senders (index m) id trace)) < k m)%N →
  run q alloc m trace = Some (m', outs) →
  emitted id outs = [] ∧ results m' !! id = None.
Proof.
  induction trace as [|message rest IH]; intros m m' outs S Hwf Hr Hdom Hk Hrun;
    simpl in Hrun.
  - by injection Hrun as <- <-.
  - destruct (Reduce q alloc m message) as [[m1 out]|] eqn:HR; [|done]. simpl in Hrun.
    destruct (run q alloc m1 rest) as [[m2 outs2]|] eqn:Hrest; [|done].
    injection Hrun as <- <-.
    pose proof (Reduce_wf q alloc m message m1 out Hwf HR) as Hwf1.
    destruct (decide (idOf message = Some id)) as [Hid|Hne].
    + destruct message as [|s|o| |]; try done; simpl in Hid; injection Hid as <-.
      * (* the signal: the own opening is recorded *)
        simpl in HR, Hk. rewrite decide_True in Hk by done.
        destruct (mul_cases q alloc m s)
          as [(r & Hr' & H)|[_ [H|(shares & m1' & out1 & _ & Htry & H)]]];
          [congruence|congruence|].
        rewrite H in HR. injection HR as <- <-.
        set (own := NewOpenMul (Mul_MessageID s) (index m) shares) in *.
        assert (Hst : dom (stored (signalled m s) own) ⊆ S ∪ {[ index m ]}).
        { unfold stored. cbn [signalled opens own OpenMul_MessageID From].
          rewrite dom_insert_L, (comm_L (∪)). by apply union_mono_r. }
        rewrite tryOpenMul_below in Htry.
        2:{ cbn [signalled k]. apply subseteq_size in Hst.
            rewrite size_dom in Hst.
            assert (size (S ∪ {[index m]}) ≤
                    size (S ∪ ({[index m]} ∪ senders (index m) (Mul_MessageID s) rest)))%nat
              by (apply subseteq_size, union_mono_l, union_subseteq_l).
            lia. }
        injection Htry as <- <-.
        rewrite emitted_nil_out
          by (intros r Hr'; simpl in Hr'; by apply elem_of_nil in Hr').
        apply (IH (recorded (signalled m s) own) m2 outs2 (S ∪ {[ index m ]}));
          [done|done| | |done].
        -- cbn [recorded opens own OpenMul_MessageID].
           by rewrite lookup_insert_eq.
        -- cbn [recorded signalled index k].
           by rewrite <- (assoc_L (∪)).
      * (* an opening for the id: recorded *)
        simpl in HR, Hk. rewrite decide_True in Hk by done.
        assert (Hst : dom (stored m o) ⊆ S ∪ {[ From o ]}).
        { unfold stored. rewrite dom_insert_L, (comm_L (∪)). by apply union_mono_r. }
        rewrite tryOpenMul_below in HR.
        2:{ apply subseteq_size in Hst. rewrite size_dom in Hst.
            assert (size (S ∪ {[From o]}) ≤
                    size (S ∪ ({[From o]} ∪ senders (index m) (OpenMul_MessageID o) rest)))%nat
              by (apply subseteq_size, union_mono_l, union_subseteq_l).
            lia. }
        injection HR as <- <-.
        rewrite emitted_nil_out
          by (intros r Hr'; simpl in Hr'; by apply elem_of_nil in Hr').
        apply (IH (recorded m o) m2 outs2 (S ∪ {[ From o ]})); [done|done| | |done].
        -- cbn [recorded opens]. by rewrite lookup_insert_eq.
        -- cbn [recorded index k]. by rewrite <- (assoc_L (∪)).
    + destruct (Reduce_frame q alloc m message m1 out Hwf HR) as (Hi & _ & Hk1 & Hother & Hres).
      destruct (Hother id Hne) as (_ & Ho1 & Hr1).
      rewrite emitted_nil_out.
      2:{ intros r Hr' Hrid. apply Hne. by rewrite (Hres r Hr'), Hrid. }
      rewrite senders_other in Hk by done.
      apply (IH m1 m2 outs2 S); [done|congruence| | |done].
      * by rewrite Ho1.
      * by rewrite Hi, Hk1.
Qed.

(** X5.  No result below the quorum: in a run from a new multiplier in
    which the distinct senders of the openings for [id], the multiplier
    itself counted once its signal is there, are fewer than k, no
    [Result] for [id] is returned and none is cached, whatever the
    shares. *)
Theorem below_quorum_no_result (q : Z) (alloc : N) (index0 n0 k0 : N) (cap : Z)
    (id : task.MessageID) (trace : list Message) (m' : multiplier)
    (outs : list Message) :
  run q alloc (newMultiplier index0 n0 k0 cap) trace = Some (m', outs) →
  (N.of_nat (size (senders index0 id trace)) < k0)%N →
  emitted id outs = [] ∧ results m' !! id = None.
Proof.
  intros Hrun Hk.
  apply (run_below_quorum q alloc id trace (newMultiplier index0 n0 k0 cap) m' outs ∅);
    [apply wf_new|done| | |done].
  - simpl. rewrite lookup_empty. simpl. by rewrite dom_empty_L.
  - simpl. by rewrite (left_id_L ∅ (∪)).
Qed.

Lemma below_quorum_no_result_witness :
  ∃ m' outs,
    run 251 mul_examples.alloc0 (newMultiplier 1 3 3 8)
      [MMul mul_examples.mul0; MOpenMul mul_examples.open2;
       MOpenMul mul_examples.open2] = Some (m', outs) ∧
    emitted mul_examples.id0 outs = [] ∧ results m' !! mul_examples.id0 = None.
Proof.
  destruct (run 251 mul_examples.alloc0 (newMultiplier 1 3 3 8)
              [MMul mul_examples.mul0; MOpenMul mul_examples.open2;
               MOpenMul mul_examples.open2])
    as [[m' outs]|] eqn:Hrun; [|by vm_compute in Hrun].
  exists m', outs. split; [reflexivity|].
  apply (below_quorum_no_result 251 mul_examples.alloc0 1 3 3 8 mul_examples.id0 _ m' outs Hrun).
  vm_compute. reflexivity.
Defined.

(** *** Results and panics of [tryOpenMul] *)

(** The signal and the own opening are stored; the opening of the sender
    2 completes the quorum of k = 2. *)
Definition pending : multiplier :=
  {| index := 1; n := 3; k := 2;
     muls := {[ mul_examples.id0 := mul_examples.mul0 ]};
     opens := {[ mul_examples.id0 :=
                   {[ 1%N := NewOpenMul mul_examples.id0 1 [shamir.New 1 4] ]} ]};
     results := ∅ |}.

(** X6.  When [tryOpenMul] returns a [Result], the result carries the id
    of the message and one share for each share of the message that
    completed the quorum; it is cached under the id, and the signal and
    all the openings stored for the id are dropped. *)
Theorem tryOpenMul_completes (q : Z) (alloc : N) (m : multiplier) (message : OpenMul)
    (m' : multiplier) (result : Result) :
  tryOpenMul q alloc m message = Some (m', MResult result) →
  Result_MessageID result = OpenMul_MessageID message ∧
  length (Result_Shares result) = length (Shares message) ∧
  results m' !! OpenMul_MessageID message = Some result ∧
  muls m' !! OpenMul_MessageID message = None ∧
  opens m' !! OpenMul_MessageID message = None.
Proof.
  intros Htry.
  destruct (tryOpenMul_cases q alloc m message)
    as [H|[H|(signal & shares & _ & _ & _ & Hm & H)]];
    rewrite H in Htry; try done.
  injection Htry as <- <-. cbn [completed muls opens results].
  split; [done|]. split.
  - apply length_mapM in Hm. simpl. rewrite <- Hm. apply length_seq.
  - by rewrite lookup_insert_eq, !lookup_delete_eq.
Qed.

Lemma tryOpenMul_completes_witness :
  ∃ m' result,
    tryOpenMul 251 mul_examples.alloc0 pending mul_examples.open2 = Some (m', MResult result) ∧
    (Result_MessageID result = OpenMul_MessageID mul_examples.open2 ∧
     length (Result_Shares result) = length (Shares mul_examples.open2) ∧
     results m' !! OpenMul_MessageID mul_examples.open2 = Some result ∧
     muls m' !! OpenMul_MessageID mul_examples.open2 = None ∧
     opens m' !! OpenMul_MessageID mul_examples.open2 = None).
Proof.
  eexists _, _. split; [vm_compute; reflexivity|].
  apply (tryOpenMul_completes 251 mul_examples.alloc0 pending mul_examples.open2).
  vm_compute. reflexivity.
Defined.

Lemma tryOpenMul_panics q alloc m message signal b :
  muls m !! OpenMul_MessageID message = Some signal →
  results m !! OpenMul_MessageID message = None →
  (k m ≤ N.of_nat (size (stored m message)))%N →
  (b < length (Shares message))%nat →
  openShare q alloc (n m) (map_to_list (stored m message)).*2 (σs signal) b = None →
  tryOpenMul q alloc m message = None.
Proof.
  intros Hs Hr Hk Hb Hopen. unfold tryOpenMul. fold (stored m message).
  cbn [muls results n]. rewrite decide_False by lia. rewrite Hs, Hr.
  rewrite (mapM_None_2 _ (seq 0 (length (Shares message)))); [done|].
  apply Exists_exists. exists b. split; [|done].
  apply elem_of_seq. lia.
Qed.

(** Three senders are stored, more than k = 2, while the signal was
    missing; a fourth opening arrives after the signal. *)
Definition crowded : multiplier :=
  {| index := 1; n := 3; k := 2;
     muls := {[ mul_examples.id0 := mul_examples.mul0 ]};
     opens := {[ mul_examples.id0 :=
                   {[ 2%N := mul_examples.open2; 3%N := mul_examples.open3;
                      4%N := NewOpenMul mul_examples.id0 4 [shamir.New 4 25] ]} ]};
     results := ∅ |}.

(** X7.  The senders are not checked against n.  When the signal is
    there, no result is cached and the openings stored for the id, the
    incoming one included, are at least k but more than n, [tryOpenMul]
    panics on the overflow of its cache of n shares, unless the incoming
    message carries no share at all. *)
Theorem tryOpenMul_cache_overflow (q : Z) (alloc : N) (m : multiplier) (message : OpenMul)
    (signal : Mul) :
  muls m !! OpenMul_MessageID message = Some signal →
  results m !! OpenMul_MessageID message = None →
  (k m ≤ N.of_nat (size (stored m message)))%N →
  (n m < N.of_nat (size (stored m message)))%N →
  Shares message ≠ [] →
  tryOpenMul q alloc m message = None.
Proof.
  intros Hs Hr Hk Hn Hne.
  apply (tryOpenMul_panics q alloc m message signal 0 Hs Hr Hk).
  - destruct (Shares message); [done|simpl; lia].
  - unfold openShare. case_decide; [|done]. rewrite decide_False; [done|].
    rewrite length_fmap, length_map_to_list. lia.
Qed.

Lemma tryOpenMul_cache_overflow_witness :
  tryOpenMul 251 mul_examples.alloc0 crowded (NewOpenMul mul_examples.id0 1 [shamir.New 1 4]) = None.
Proof.
  apply (tryOpenMul_cache_overflow 251 mul_examples.alloc0 crowded _ mul_examples.mul0);
    vm_compute; congruence.
Defined.

(** X8.  [mul] indexes ys and ρs by the positions of xs without checking
    their lengths: for an id without a cached result, a signal whose ys or
    ρs are shorter than its xs makes [mul] panic. *)
Theorem mul_short_operands (q : Z) (alloc : N) (m : multiplier) (message : Mul) :
  results m !! Mul_MessageID message = None →
  (length (ys message) < length (xs message) ∨
   length (ρs message) < length (xs message))%nat →
  mul q alloc m message = None.
Proof.
  intros Hr Hlen. unfold mul. rewrite Hr.
  assert (Hshares : mulShares q message = None); [|by rewrite Hshares].
  apply mapM_None_2, Exists_exists.
  destruct Hlen as [Hlen|Hlen].
  - exists (length (ys message)). split; [apply elem_of_seq; lia|].
    destruct (xs message !! _); [simpl|done].
    by rewrite (lookup_ge_None_2 (ys message)).
  - exists (length (ρs message)). split; [apply elem_of_seq; lia|].
    destruct (xs message !! _); [simpl|done].
    destruct (ys message !! _); [simpl|done].
    by rewrite (lookup_ge_None_2 (ρs message)).
Qed.

Lemma mul_short_operands_witness :
  mul 251 mul_examples.alloc0 mul_examples.m0
    (NewMul mul_examples.id0 [shamir.New 1 2; shamir.New 1 3] [shamir.New 1 2]
       [shamir.New 1 0; shamir.New 1 0] [shamir.New 1 0; shamir.New 1 0]) = None.
Proof.
  apply (mul_short_operands 251 mul_examples.alloc0 mul_examples.m0).
  - reflexivity.
  - left. simpl. lia.
Defined.

(** X9.  The batch sizes are not checked either.  When the signal is
    there, no result is cached and the quorum is reached, [tryOpenMul]
    panics if the σs of the signal, or the shares of some stored opening,
    are fewer than the shares of the incoming message. *)
Theorem tryOpenMul_ragged_batch (q : Z) (alloc : N) (m : multiplier) (message : OpenMul)
    (signal : Mul) :
  muls m !! OpenMul_MessageID message = Some signal →
  results m !! OpenMul_MessageID message = None →
  (k m ≤ N.of_nat (size (stored m message)))%N →
  (length (σs signal) < length (Shares message))%nat ∨
  (∃ from o, stored m message !! from = Some o ∧
             (length (Shares o) < length (Shares message))%nat) →
  tryOpenMul q alloc m message = None.
Proof.
  intros Hs Hr Hk [Hlen|(from & o & Ho & Hlen)].
  - apply (tryOpenMul_panics q alloc m message signal (length (σs signal)) Hs Hr Hk Hlen).
    unfold openShare. case_decide; [|done]. case_decide; [|done].
    destruct (mapM _ _); [simpl|done].
    destruct (shamir.Join _ _); [simpl|done].
    by rewrite (lookup_ge_None_2 (σs signal)).
  - apply (tryOpenMul_panics q alloc m message signal (length (Shares o)) Hs Hr Hk Hlen).
    unfold openShare. case_decide; [|done]. case_decide; [|done].
    rewrite (mapM_None_2 _ (map_to_list (stored m message)).*2); [done|].
    apply Exists_exists. exists o. split.
    + apply list_elem_of_fmap. exists (from, o). split; [done|].
      by apply elem_of_map_to_list.
    + by apply lookup_ge_None_2.
Qed.

Lemma tryOpenMul_ragged_batch_witness :
  tryOpenMul 251 mul_examples.alloc0 pending
    (NewOpenMul mul_examples.id0 2 [shamir.New 2 9; shamir.New 2 9]) = None.
Proof.
  apply (tryOpenMul_ragged_batch 251 mul_examples.alloc0 pending _ mul_examples.mul0).
  - reflexivity.
  - reflexivity.
  - vm_compute. congruence.
  - left. simpl. lia.
Defined.


(** *** One result per id *)

Lemma tryOpenMul_emitted q alloc m message m' out r :
  tryOpenMul q alloc m message = Some (m', out) → r ∈ resultsOf out →
  results m' !! Result_MessageID r = Some r.
Proof.
  intros Htry Hr.
  destruct (tryOpenMul_cases q alloc m message)
    as [H|[H|(signal & shares & _ & _ & _ & _ & H)]];
    rewrite H in Htry; [done| |]; injection Htry as <- <-.
  - by apply elem_of_nil in Hr.
  - simpl in Hr. apply list_elem_of_singleton in Hr as ->.
    cbn [completed results Result_MessageID]. apply lookup_insert_eq.
Qed.

Lemma Reduce_emitted q alloc m message m' out r :
  wf m → Reduce q alloc m message = Some (m', out) → r ∈ flat_map resultsOf [out] →
  results m' !! Result_MessageID r = Some r.
Proof.
  intros Hwf HR Hr. simpl in Hr. rewrite app_nil_r in Hr.
  destruct message as [|s|o| |]; try done; simpl in HR.
  - destruct (mul_cases q alloc m s)
      as [(r0 & Hr0 & H)|[Hnone [H|(shares & m1 & out1 & _ & Htry & H)]]];
      rewrite H in HR; [|done|]; injection HR as <- <-.
    + simpl in Hr. apply list_elem_of_singleton in Hr as ->.
      by rewrite (wf_results m Hwf _ _ Hr0).
    + simpl in Hr. rewrite app_nil_r in Hr. by eapply tryOpenMul_emitted.
  - by eapply tryOpenMul_emitted.
Qed.

(** X10.  A run never returns two different results for one id: every
    [Result] for [id] returned during a run from a new multiplier is the
    result cached for [id] at the end of the run, whatever the messages
    and their order. *)
Theorem emitted_is_cached (q : Z) (alloc : N) (index0 n0 k0 : N) (cap : Z)
    (id : task.MessageID) (trace : list Message) (m' : multiplier)
    (outs : list Message) (r : Result) :
  run q alloc (newMultiplier index0 n0 k0 cap) trace = Some (m', outs) →
  r ∈ emitted id outs →
  results m' !! id = Some r.
Proof.
  generalize (wf_new index0 n0 k0 cap).
  generalize (newMultiplier index0 n0 k0 cap). intros m Hwf. revert m m' outs Hwf.
  induction trace as [|message rest IH]; intros m m' outs Hwf Hrun Hr;
    simpl in Hrun.
  - injection Hrun as <- <-. by apply elem_of_nil in Hr.
  - destruct (Reduce q alloc m message) as [[m1 out]|] eqn:HR; [|done]. simpl in Hrun.
    destruct (run q alloc m1 rest) as [[m2 outs2]|] eqn:Hrest; [|done].
    injection Hrun as <- <-.
    rewrite emitted_split in Hr. apply elem_of_app in Hr as [Hr|Hr].
    + unfold emitted in Hr. apply list_elem_of_filter in Hr as [<- Hr].
      eapply lookup_weaken; [|by eapply results_run_kept].
      by eapply Reduce_emitted.
    + eapply IH; [|done|done]. by eapply Reduce_wf.
Qed.

Lemma emitted_is_cached_witness :
  ∃ m' outs,
    run 251 mul_examples.alloc0 mul_examples.m0
      [MMul mul_examples.mul0; MOpenMul mul_examples.open2;
       MOpenMul mul_examples.open3; MMul mul_examples.mul0] = Some (m', outs) ∧
    results m' !! mul_examples.id0 =
      Some (NewResult mul_examples.id0 [shamir.New 1 250]).
Proof.
  destruct (run 251 mul_examples.alloc0 mul_examples.m0
              [MMul mul_examples.mul0; MOpenMul mul_examples.open2;
               MOpenMul mul_examples.open3; MMul mul_examples.mul0])
    as [[m' outs]|] eqn:Hrun; [|by vm_compute in Hrun].
  exists m', outs. split; [reflexivity|].
  apply (emitted_is_cached 251 mul_examples.alloc0 1 3 2 8 mul_examples.id0 _ m' outs _ Hrun).
  vm_compute in Hrun. injection Hrun as _ <-. vm_compute. left.
Defined.

End mul_invariants.

(** ** The interpreter: what one step changes *)

Module program_invariants.
Import program program_facts program_props.

Section interpreter.
Context `{Externals}.

(** Two instructions of the same kind: a suspending instruction may differ
    in what it has recorded, the others are equal. *)
Definition sameKind (inst inst' : Inst) : Prop :=
  match inst, inst' with
  | IRand _, IRand _ | IMul _, IMul _ | IOpen _, IOpen _ => True
  | _, _ => inst = inst'
  end.

Lemma sameKind_refl inst : sameKind inst inst.
Proof using Type. by destruct inst. Qed.

(** [Add] panics on these operands: the left one is a PrivateRn, or the
    [Add] method of the left one panics. *)
Definition addPanics (lhs rhs : Value) : Prop :=
  match lhs with
  | ValuePublic i => ValuePublic_Add i rhs = None
  | ValuePrivate share => ValuePrivate_Add share rhs = None
  | ValuePrivateRn _ _ => True
  end.

Ltac exec_cases :=
  unfold Exec, execInstPush, execInstAdd, execInstRand, execInstMul,
    execInstOpen, makeShareChan, makeIntChan, recvShare, recvInt;
  intros; repeat (case_match; simplify_option_eq).

(** X11.  [Exec] returns Ready exactly when it has advanced the pc by one,
    and then it carries no intent; when it returns NotReady the pc is
    where it was. *)
Theorem Exec_pc (h : Chans) (prog : Program) (h' : Chans) (prog' : Program)
    (ret : Return) :
  Exec h prog = Some (h', prog', ret) →
  PC prog' = (if ready ret then S (PC prog) else PC prog) ∧
  (ready ret = true → intent ret = None).
Proof using Type.
  exec_cases; done.
Qed.


(** X12.  [Exec] never touches the id or the memory of the program, never
    changes the length of the code, and leaves every instruction but the
    one at the pc as it is; the instruction at the pc keeps its kind (a
    suspending instruction is rewritten in place, the others stay equal). *)
Theorem Exec_keeps_code (h : Chans) (prog : Program) (h' : Chans) (prog' : Program)
    (ret : Return) :
  Exec h prog = Some (h', prog', ret) →
  ID prog' = ID prog ∧ Memory prog' = Memory prog ∧
  length (Code prog') = length (Code prog) ∧
  (∀ i, i ≠ PC prog → Code prog' !! i = Code prog !! i) ∧
  (∀ inst, Code prog !! PC prog = Some inst →
     ∃ inst', Code prog' !! PC prog = Some inst' ∧ sameKind inst inst').
Proof using Type.
  exec_cases;
    (split; [done|]; split; [done|]; split;
       [by rewrite ?length_insert|]; split;
       [intros ? ?; by rewrite ?list_lookup_insert_ne|]);
    intros ? ?; simplify_eq;
    try (eexists; split; [eassumption|by apply sameKind_refl]);
    (eexists; split;
       [apply list_lookup_insert_eq; rewrite ?length_insert; lia|done]).
Qed.



(** X14.  [Rand] polls its sinks in the order ρ, σ and keeps what it has
    taken.  When only the ρ sink is filled, [Exec] takes ρ out of it,
    records it in the instruction and returns NotReady(nil) with pc and
    stack as they were; once the σ sink is filled, the next [Exec] pushes
    the PrivateRn of that ρ and the σ, advances the pc and leaves both
    sinks empty. *)
Theorem Rand_resumes_in_two_steps (h : Chans) (prog : Program) (inst : InstRand)
    (ρCh σCh : nat) (ρ : shamir.Share) :
  Code prog !! PC prog = Some (IRand inst) →
  RhoCh inst = Some ρCh → SigmaCh inst = Some σCh → ρCh ≠ σCh →
  RhoReady inst = false → SigmaReady inst = false →
  shareChans h !! ρCh = Some (Some ρ) → shareChans h !! σCh = Some None →
  ∃ h1 prog1,
    Exec h prog = Some (h1, prog1, NotReady None) ∧
    shareChans h1 = <[ρCh := None]> (shareChans h) ∧
    PC prog1 = PC prog ∧ Stack prog1 = Stack prog ∧
    ∀ σ, ∃ h2 prog2,
      Exec {| shareChans := <[σCh := Some σ]> (shareChans h1);
              intChans := intChans h1 |} prog1 = Some (h2, prog2, Ready) ∧
      PC prog2 = S (PC prog) ∧
      Stack prog2 = (Push (Stack prog) (ValuePrivateRn ρ σ)).1 ∧
      shareChans h2 !! ρCh = Some None ∧ shareChans h2 !! σCh = Some None.
Proof using Type.
  intros Hinst Hρ Hσ Hne HρR HσR Hhρ Hhσ.
  pose proof (lookup_lt_Some _ _ _ Hinst) as Hlt.
  eexists _, _. split; [|split; [|split; [|split]]].
  - rewrite (Exec_inst h prog _ Hinst). unfold execInstRand.
    rewrite Hρ, Hσ, HρR. unfold recvShare at 1. rewrite Hhρ.
    cbn [SigmaReady]. rewrite HσR. unfold recvShare.
    cbn [shareChans]. rewrite lookup_insert_ne by done. rewrite Hhσ.
    reflexivity.
  - reflexivity.
  - reflexivity.
  - reflexivity.
  - intros σ.
    destruct (Push (Stack prog) (ValuePrivateRn ρ σ)) as [stack err] eqn:HP.
    eexists _, _. split; [|split; [|split; [|split]]].
    + erewrite Exec_inst; [|by apply list_lookup_insert_eq].
      unfold execInstRand. cbn [RhoCh SigmaCh RhoReady SigmaReady].
      rewrite ?Hρ, ?Hσ, ?HσR. unfold recvShare. cbn [shareChans].
      rewrite lookup_insert_eq.
      cbn [Rho Sigma setInst Stack]. rewrite HP. reflexivity.
    + reflexivity.
    + reflexivity.
    + cbn [shareChans]. rewrite lookup_insert_ne by done.
      rewrite lookup_insert_ne by done. apply lookup_insert_eq.
    + cbn [shareChans]. apply lookup_insert_eq.
Qed.

(** X15.  The round trip of a multiplication through the interpreter.
    With rn, y and x on the stack, the first [Exec] of a fresh [Mul]
    returns the intent to multiply x and y with the tuple of rn and a new
    empty sink; once a share is put into that sink, the next [Exec] takes
    it out, pushes it as a Private value onto the stack left after the
    three pops, and advances the pc. *)
Theorem Mul_round_trip (h : Chans) (prog : Program) (inst : InstMul)
    (s1 s2 s3 : StackT) (ρ σ y x : shamir.Share) :
  Code prog !! PC prog = Some (IMul inst) →
  InstMul_RetCh inst = None → InstMul_RetReady inst = false →
  Pop (Stack prog) = (s1, inr (ValuePrivateRn ρ σ)) →
  Pop s1 = (s2, inr (ValuePrivate y)) →
  Pop s2 = (s3, inr (ValuePrivate x)) →
  ∃ retCh h1 prog1,
    Exec h prog = Some (h1, prog1, NotReady (Some (Multiply x y ρ σ retCh))) ∧
    shareChans h !! retCh = None ∧ shareChans h1 !! retCh = Some None ∧
    ∀ h1' result,
      shareChans h1' !! retCh = Some (Some result) →
      ∃ h2 prog2,
        Exec h1' prog1 = Some (h2, prog2, Ready) ∧
        PC prog2 = S (PC prog) ∧
        Stack prog2 = (Push s3 (ValuePrivate result)).1 ∧
        shareChans h2 !! retCh = Some None.
Proof using Type.
  intros Hinst Hnil Hready H1 H2 H3.
  pose proof (lookup_lt_Some _ _ _ Hinst) as Hlt.
  destruct (execInstMul_first h prog inst s1 s2 s3 ρ σ y x Hnil H1 H2 H3)
    as (retCh & h1 & Hfirst & Hfresh & Hh1 & _).
  eexists retCh, h1, _. split; [|split; [|split]].
  - by rewrite (Exec_inst h prog _ Hinst).
  - done.
  - rewrite Hh1. apply lookup_insert_eq.
  - intros h1' result Hfull.
    destruct (Push s3 (ValuePrivate result)) as [stack err] eqn:HP.
    eexists _, _. split; [|split; [|split]].
    + erewrite Exec_inst; [|by apply list_lookup_insert_eq].
      unfold execInstMul. cbn [InstMul_RetCh InstMul_RetReady].
      rewrite Hready. unfold recvShare. rewrite Hfull.
      cbn [InstMul_Ret setInst setStack Stack]. rewrite HP. reflexivity.
    + reflexivity.
    + reflexivity.
    + cbn [shareChans]. apply lookup_insert_eq.
Qed.

(** X22.  The round trip of an opening through the interpreter.  With a
    Private value on top of the stack, the first [Exec] of a fresh [Open]
    pops it and returns the intent to open its share with a new empty
    sink; once an integer is put into that sink, the next [Exec] takes it
    out, pushes it as a Public value and advances the pc. *)
Theorem Open_round_trip (h : Chans) (prog : Program) (inst : InstOpen)
    (s1 : StackT) (v : shamir.Share) :
  Code prog !! PC prog = Some (IOpen inst) →
  InstOpen_RetCh inst = None → InstOpen_RetReady inst = false →
  Pop (Stack prog) = (s1, inr (ValuePrivate v)) →
  ∃ retCh h1 prog1,
    Exec h prog = Some (h1, prog1, NotReady (Some (Open v retCh))) ∧
    intChans h !! retCh = None ∧ intChans h1 !! retCh = Some None ∧
    ∀ h1' result,
      intChans h1' !! retCh = Some (Some result) →
      ∃ h2 prog2,
        Exec h1' prog1 = Some (h2, prog2, Ready) ∧
        PC prog2 = S (PC prog) ∧
        Stack prog2 = (Push s1 (ValuePublic result)).1 ∧
        intChans h2 !! retCh = Some None.
Proof using Type.
  intros Hinst Hnil Hready H1.
  pose proof (lookup_lt_Some _ _ _ Hinst) as Hlt.
  destruct (execInstOpen_first h prog inst s1 v Hnil H1)
    as (retCh & h1 & Hfirst & Hfresh & Hh1 & _).
  eexists retCh, h1, _. split; [|split; [|split]].
  - by rewrite (Exec_inst h prog _ Hinst).
  - done.
  - rewrite Hh1. apply lookup_insert_eq.
  - intros h1' result Hfull.
    destruct (Push s1 (ValuePublic result)) as [stack err] eqn:HP.
    eexists _, _. split; [|split; [|split]].
    + erewrite Exec_inst; [|by apply list_lookup_insert_eq].
      unfold execInstOpen. cbn [InstOpen_RetCh InstOpen_RetReady].
      rewrite Hready. unfold recvInt. rewrite Hfull.
      cbn [InstOpen_Ret setInst setStack Stack]. rewrite HP. reflexivity.
    + reflexivity.
    + reflexivity.
    + cbn [intChans]. apply lookup_insert_eq.
Qed.

End interpreter.

(** *** The theorems on concrete programs *)

Import program_examples.

(** rn, y and x on the stack of a fresh [Mul], followed by an [Add]. *)
Definition progMul : @Program E :=
  progOf [IMul freshMul; InstAdd] 0
    [ValuePrivateRn (shamir.New 1 5) (shamir.New 1 6);
     ValuePrivate (shamir.New 1 3); ValuePrivate (shamir.New 1 2)] 8.

(** A [Rand] that has its sinks 0 and 1; ρ is there, σ is not. *)
Definition waitingRand : InstRand :=
  {| RhoCh := Some 0%nat; SigmaCh := Some 1%nat;
     RhoReady := false; SigmaReady := false;
     Rho := zeroShare; Sigma := zeroShare |}.

Definition halfFilled : Chans :=
  {| shareChans := {[ 0%nat := Some (shamir.New 1 5); 1%nat := None ]};
     intChans := ∅ |}.

Lemma Exec_pc_witness :
  ∃ h' prog' ret,
    Exec h0 progMul = Some (h', prog', ret) ∧
    (PC prog' = (if ready ret then S (PC progMul) else PC progMul) ∧
     (ready ret = true → intent ret = None)).
Proof.
  eexists _, _, _. split; [vm_compute; reflexivity|].
  eapply (Exec_pc (H := E) h0 progMul). vm_compute. reflexivity.
Defined.

Lemma Exec_keeps_code_witness :
  ∃ h' prog' ret,
    Exec h0 progMul = Some (h', prog', ret) ∧
    (ID prog' = ID progMul ∧ Memory prog' = Memory progMul ∧
     length (Code prog') = length (Code progMul) ∧
     (∀ i, i ≠ PC progMul → Code prog' !! i = Code progMul !! i) ∧
     (∀ inst, Code progMul !! PC progMul = Some inst →
        ∃ inst', Code prog' !! PC progMul = Some inst' ∧ sameKind inst inst')).
Proof.
  eexists _, _, _. split; [vm_compute; reflexivity|].
  eapply (Exec_keeps_code (H := E) h0 progMul). vm_compute. reflexivity.
Defined.

Lemma Rand_resumes_in_two_steps_witness :
  let prog := progOf [IRand waitingRand] 0 [] 8 in
  ∃ h1 prog1,
    Exec halfFilled prog = Some (h1, prog1, NotReady None) ∧
    shareChans h1 = <[0%nat := None]> (shareChans halfFilled) ∧
    PC prog1 = PC prog ∧ Stack prog1 = Stack prog ∧
    ∀ σ, ∃ h2 prog2,
      Exec {| shareChans := <[1%nat := Some σ]> (shareChans h1);
              intChans := intChans h1 |} prog1 = Some (h2, prog2, Ready) ∧
      PC prog2 = S (PC prog) ∧
      Stack prog2 = (Push (Stack prog) (ValuePrivateRn (shamir.New 1 5) σ)).1 ∧
      shareChans h2 !! 0%nat = Some None ∧ shareChans h2 !! 1%nat = Some None.
Proof.
  intros prog.
  apply (Rand_resumes_in_two_steps (H := E) halfFilled prog waitingRand 0 1
           (shamir.New 1 5)); try reflexivity.
  simpl. lia.
Defined.

Lemma Mul_round_trip_witness :
  ∃ retCh h1 prog1,
    Exec h0 progMul =
      Some (h1, prog1,
            NotReady (Some (Multiply (shamir.New 1 2) (shamir.New 1 3)
                              (shamir.New 1 5) (shamir.New 1 6) retCh))) ∧
    shareChans h0 !! retCh = None ∧ shareChans h1 !! retCh = Some None ∧
    ∀ h1' result,
      shareChans h1' !! retCh = Some (Some result) →
      ∃ h2 prog2,
        Exec h1' prog1 = Some (h2, prog2, Ready) ∧
        PC prog2 = S (PC progMul) ∧
        Stack prog2 =
          (Push ({| values := []; limit := 8 |} : @StackT E) (ValuePrivate result)).1 ∧
        shareChans h2 !! retCh = Some None.
Proof.
  apply (Mul_round_trip (H := E) h0 progMul freshMul
           {| values := [ValuePrivate (shamir.New 1 3); ValuePrivate (shamir.New 1 2)];
              limit := 8 |}
           {| values := [ValuePrivate (shamir.New 1 2)]; limit := 8 |}
           {| values := []; limit := 8 |});
    reflexivity.
Defined.

(** A fresh [Open]. *)
Definition freshOpen : InstOpen :=
  {| InstOpen_RetCh := None; InstOpen_RetReady := false; InstOpen_Ret := None |}.

Lemma Open_round_trip_witness :
  let prog := progOf [IOpen freshOpen] 0 [ValuePrivate (shamir.New 1 3)] 8 in
  ∃ retCh h1 prog1,
    Exec h0 prog = Some (h1, prog1, NotReady (Some (Open (shamir.New 1 3) retCh))) ∧
    intChans h0 !! retCh = None ∧ intChans h1 !! retCh = Some None ∧
    ∀ h1' result,
      intChans h1' !! retCh = Some (Some result) →
      ∃ h2 prog2,
        Exec h1' prog1 = Some (h2, prog2, Ready) ∧
        PC prog2 = S (PC prog) ∧
        Stack prog2 =
          (Push ({| values := []; limit := 8 |} : @StackT E) (ValuePublic result)).1 ∧
        intChans h2 !! retCh = Some None.
Proof.
  intros prog.
  apply (Open_round_trip (H := E) h0 prog freshOpen {| values := []; limit := 8 |});
    reflexivity.
Defined.

End program_invariants.

(** ** The dispatcher: relaying and delivering *)

Module vm_delivery.
Import vm.

(** X16.  The ids round-trip: for an intent id of 40 bytes, the message
    id made from it gives the intent id back, its first 32 bytes are the
    process id the dispatcher resumes, and two intent ids with the same
    message id are equal. *)
Theorem msgid_round_trip (iid : list N) :
  length iid = 40%nat →
  msgidToIID (iidToMsgid iid) = iid ∧
  msgidToPid (iidToMsgid iid) = take 32 iid ∧
  ∀ iid', length iid' = 40%nat → iidToMsgid iid = iidToMsgid iid' → iid = iid'.
Proof.
  assert (Hall : ∀ l : list N, length l = 40%nat → resize 40 0%N l = l).
  { intros l <-. apply resize_all. }
  intros Hlen. unfold msgidToIID, msgidToPid, iidToMsgid.
  rewrite !(Hall iid Hlen). split; [done|]. split.
  - apply resize_le. lia.
  - intros iid' Hlen'. by rewrite (Hall iid' Hlen').
Qed.

Lemma msgid_ids (iid : list N) :
  length iid = 40%nat →
  msgidToIID (iidToMsgid iid) = iid ∧ msgidToPid (iidToMsgid iid) = take 32 iid.
Proof.
  intros Hlen. unfold msgidToIID, msgidToPid, iidToMsgid.
  assert (Hall : resize 40 0%N iid = iid) by (rewrite <- Hlen; apply resize_all).
  rewrite !Hall. split; [done|]. apply resize_le. lia.
Qed.

Lemma msgid_round_trip_witness :
  let iid := replicate 32 1%N ++ replicate 8 2%N in
  msgidToIID (iidToMsgid iid) = iid ∧
  msgidToPid (iidToMsgid iid) = take 32 iid ∧
  ∀ iid', length iid' = 40%nat → iidToMsgid iid = iidToMsgid iid' → iid = iid'.
Proof.
  intros iid. apply (msgid_round_trip iid). reflexivity.
Defined.

Section dispatcher.

Variable Process : Type.
Variable Process_ID : Process → list N.
Variable Process_Exec : Chans → Process → Chans * Process * Return.
Variable zeroProcess : Process.
Variables RnShares ProposeRnShare OpenPayload : Type.

Abbreviation Message := (Message Process RnShares ProposeRnShare OpenPayload).
Abbreviation VM := (VM Process RnShares ProposeRnShare OpenPayload).
Abbreviation Reduce :=
  (Reduce Process Process_ID Process_Exec zeroProcess
          RnShares ProposeRnShare OpenPayload).
Abbreviation exec :=
  (exec Process Process_ID Process_Exec RnShares ProposeRnShare OpenPayload).
Abbreviation MNil := (MNil Process RnShares ProposeRnShare OpenPayload).
Abbreviation RemoteProcedureCall :=
  (RemoteProcedureCall Process RnShares ProposeRnShare OpenPayload).
Abbreviation task_Error := (task_Error Process RnShares ProposeRnShare OpenPayload).

(** The child a relayed message is for. *)
Definition routed (vm : VM) (payload : Message) (vm' : VM) : Prop :=
  match payload with
  | rng_RnShares _ _ _ _ _ | rng_ProposeRnShare _ _ _ _ _ =>
      vm' = sendRng _ _ _ _ vm payload
  | mul_OpenMul _ _ _ _ _ => vm' = sendMul _ _ _ _ vm payload
  | open_Open _ _ _ _ _ => vm' = sendOpen _ _ _ _ vm payload
  | _ => False
  end.




(** X19.  The ids of the multiplier and of the dispatcher line up.  Let
    the multiplier, in a state it can reach, reduce a message whose id is
    made from a 40-byte intent id, and let it return a [Result].  In a
    dispatcher that has an intent to multiply registered under that
    intent id, with an empty sink, [Reduce] of this result puts the shares
    of the result into the sink, drops the intent and executes again the
    process stored under the first 32 bytes of the intent id. *)
Theorem multiplier_result_delivered (q : Z) (alloc : N) (m : mul.multiplier)
    (message : mul.Message) (m' : mul.multiplier) (out : mul.Message)
    (r : mul.Result) (h : Chans) (vm : VM) (iid : list N)
    (xs ys ρs σs : list shamir.Share) (ret : nat) :
  mul_invariants.reachable q alloc m →
  mul.Reduce q alloc m message = Some (m', out) →
  mul_invariants.idOf message = Some (iidToMsgid iid) →
  r ∈ mul.resultsOf out →
  length iid = 40%nat →
  intents _ _ _ _ vm !! iid = Some (IntentToMultiply iid xs ys ρs σs ret) →
  sharesChans h !! ret = Some None →
  Reduce h vm (mul_Result _ _ _ _ r) =
    exec {| sharesChans := <[ret := Some (mul.Result_Shares r)]> (sharesChans h);
            valueChans := valueChans h |}
         (setIntents _ _ _ _ vm (delete iid (intents _ _ _ _ vm)))
         (default zeroProcess (procs _ _ _ _ vm !! take 32 iid)).
Proof using Type.
  intros Hm%mul_invariants.reachable_is_wf HR Hid Hr Hlen Hintent Hempty.
  destruct (msgid_ids iid Hlen) as [Hiid Hpid].
  destruct (mul_invariants.Reduce_frame q alloc m message m' out Hm HR)
    as (_ & _ & _ & _ & Hres).
  assert (Hrid : mul.Result_MessageID r = iidToMsgid iid).
  { specialize (Hres r). rewrite Hid in Hres.
    assert (Some (iidToMsgid iid) = Some (mul.Result_MessageID r)) as [= ->];
      [|done].
    apply Hres. simpl. by rewrite app_nil_r. }
  simpl. unfold recvInternalMulResult. rewrite Hrid, Hiid, Hintent.
  unfold sendShares. rewrite Hempty. unfold resume.
  by rewrite ?Hrid, ?Hiid, ?Hpid.
Qed.

(** X20.  A delivery to an intent for a tuple is not undone when it fails
    half way.  When the ρ sink is empty and the σ sink is full, [Reduce]
    of the rng result puts the ρ shares into their sink, returns the
    error "unavailable intent" and keeps the intent registered; from then
    on every result for this intent is refused with the same error for
    as long as the ρ sink is full, also after the σ sink has been
    emptied. *)
Theorem tuple_delivery_stuck (h : Chans) (vm : VM) (message : rng_Result)
    (iid : list N) (batch rhos sigmas : nat) (old : list shamir.Share) :
  intents _ _ _ _ vm !! msgidToIID (rng_Result_MessageID message) =
    Some (IntentToGenerateRnTuple iid batch rhos sigmas) →
  sharesChans h !! rhos = Some None →
  sharesChans h !! sigmas = Some (Some old) →
  ∃ h1,
    Reduce h vm (rng_Result_ _ _ _ _ message) =
      Some (h1, vm, task_Error ErrUnavailableIntent) ∧
    sharesChans h1 = <[rhos := Some (Rhos message)]> (sharesChans h) ∧
    ∀ h2 message2 full,
      rng_Result_MessageID message2 = rng_Result_MessageID message →
      sharesChans h2 !! rhos = Some (Some full) →
      Reduce h2 vm (rng_Result_ _ _ _ _ message2) =
        Some (h2, vm, task_Error ErrUnavailableIntent).
Proof using Type.
  intros Hintent Hρ Hσ.
  assert (Hne : rhos ≠ sigmas) by (intros ->; congruence).
  eexists. split; [|split].
  - simpl. unfold recvInternalRngResult. rewrite Hintent.
    unfold sendShares at 1. rewrite Hρ. unfold sendShares. cbn [sharesChans].
    rewrite lookup_insert_ne by done. rewrite Hσ. reflexivity.
  - reflexivity.
  - intros h2 message2 full Hid Hfull. simpl. unfold recvInternalRngResult.
    rewrite Hid, Hintent. unfold sendShares. by rewrite Hfull.
Qed.

(** X21.  The dispatcher never forgets a process: whatever message it
    reduces, also an error or an exit of the process, every process id
    stored before is stored afterwards, and the index of the dispatcher
    is unchanged. *)
Theorem procs_never_removed (h : Chans) (vm : VM) (message : Message)
    (h' : Chans) (vm' : VM) (out : Message) :
  Reduce h vm message = Some (h', vm', out) →
  dom (procs _ _ _ _ vm) ⊆ dom (procs _ _ _ _ vm') ∧
  index _ _ _ _ vm' = index _ _ _ _ vm.
Proof using Type.
  intros HR.
  destruct message; simpl in HR;
    unfold vm.exec, vm.execIntent, vm.invoke, vm.recvInternalRngResult,
      vm.recvInternalMulResult, vm.recvInternalOpenResult, vm.resume,
      vm.exec, vm.execIntent in HR;
    repeat (first [case_match | progress simplify_eq]);
    (split; [|done]);
    cbn [procs sendRng sendMul sendOpen setIntents setProc];
    repeat (first [reflexivity | etrans; [|apply dom_insert_subseteq]]).
Qed.

End dispatcher.

(** *** The theorems on a concrete dispatcher *)

(** The processes are numbers; a process asks once for the product of two
    shares and counts its executions. *)
Definition iid0 : list N := replicate 32 1%N ++ replicate 8 2%N.

Definition askMul : Intent :=
  IntentToMultiply iid0 [shamir.New 1 2] [shamir.New 1 3]
    [shamir.New 1 5] [shamir.New 1 6] 0.

Definition multiplying (h : Chans) (proc : nat) : Chans * nat * Return :=
  (h, S proc, {| Return_Intent := Some askMul; IsReady := false |}).

Definition pid0 (proc : nat) : list N := replicate 32 1%N.

Definition vm0 : vm.VM nat unit unit unit := newVM nat unit unit unit 1 [] [] [].

Definition noChans : Chans := {| sharesChans := ∅; valueChans := ∅ |}.



(** The dispatcher of the player 1 of the example of the multiplier, with
    the intent to multiply registered under the id of that example. *)
Definition vmMul : vm.VM nat unit unit unit :=
  {| index := 1; procs := {[ replicate 32 0%N := 7%nat ]};
     intents := {[ mul_examples.id0 :=
                     IntentToMultiply mul_examples.id0 [shamir.New 1 2]
                       [shamir.New 1 2] [shamir.New 1 0] [shamir.New 1 0] 0 ]};
     rng := []; mul := []; open := [] |}.

Definition emptySink : Chans :=
  {| sharesChans := {[ 0%nat := None ]}; valueChans := ∅ |}.

Lemma multiplier_result_delivered_witness :
  let r := mul.NewResult mul_examples.id0 [shamir.New 1 250] in
  vm.Reduce nat pid0 multiplying 0%nat unit unit unit emptySink vmMul
    (mul_Result _ _ _ _ r) =
  vm.exec nat pid0 multiplying unit unit unit
    {| sharesChans := <[0%nat := Some (mul.Result_Shares r)]> (sharesChans emptySink);
       valueChans := valueChans emptySink |}
    (setIntents _ _ _ _ vmMul (delete mul_examples.id0 (intents _ _ _ _ vmMul)))
    (default 0%nat (procs _ _ _ _ vmMul !! take 32 mul_examples.id0)).
Proof.
  intros r.
  eapply (multiplier_result_delivered nat pid0 multiplying 0%nat unit unit unit
            251 mul_examples.alloc0 mul_invariants.pending
            (mul.MOpenMul mul_examples.open2)
            _ _ r emptySink vmMul mul_examples.id0).
  - eexists 1%N, 3%N, 2%N, 8, [mul.MMul mul_examples.mul0], _.
    vm_compute. reflexivity.
  - vm_compute. reflexivity.
  - reflexivity.
  - left.
  - reflexivity.
  - reflexivity.
  - reflexivity.
Defined.

(** An intent for a tuple is registered; its ρ sink 0 is empty, its σ
    sink 1 still holds an older value. *)
Definition vmTuple : vm.VM nat unit unit unit :=
  {| index := 1; procs := {[ replicate 32 1%N := 7%nat ]};
     intents := {[ iid0 := IntentToGenerateRnTuple iid0 1 0 1 ]};
     rng := []; mul := []; open := [] |}.

Definition sigmaFull : Chans :=
  {| sharesChans := {[ 0%nat := None; 1%nat := Some [shamir.New 1 9] ]};
     valueChans := ∅ |}.

Definition tuple0 : rng_Result :=
  {| rng_Result_MessageID := iidToMsgid iid0;
     Rhos := [shamir.New 1 5]; Sigmas := [shamir.New 1 6] |}.

Lemma tuple_delivery_stuck_witness :
  ∃ h1,
    vm.Reduce nat pid0 multiplying 0%nat unit unit unit sigmaFull vmTuple
      (rng_Result_ _ _ _ _ tuple0) =
      Some (h1, vmTuple, task_Error _ _ _ _ ErrUnavailableIntent) ∧
    sharesChans h1 = <[0%nat := Some (Rhos tuple0)]> (sharesChans sigmaFull) ∧
    ∀ h2 message2 full,
      rng_Result_MessageID message2 = rng_Result_MessageID tuple0 →
      sharesChans h2 !! 0%nat = Some (Some full) →
      vm.Reduce nat pid0 multiplying 0%nat unit unit unit h2 vmTuple
        (rng_Result_ _ _ _ _ message2) =
        Some (h2, vmTuple, task_Error _ _ _ _ ErrUnavailableIntent).
Proof.
  apply (tuple_delivery_stuck nat pid0 multiplying 0%nat unit unit unit
           sigmaFull vmTuple tuple0 iid0 1 0 1 [shamir.New 1 9]);
    vm_compute; reflexivity.
Defined.

Lemma procs_never_removed_witness :
  ∃ h' vm' out,
    vm.Reduce nat pid0 multiplying 0%nat unit unit unit sigmaFull vmTuple
      (Exec nat unit unit unit 3%nat) = Some (h', vm', out) ∧
    (dom (procs _ _ _ _ vmTuple) ⊆ dom (procs _ _ _ _ vm') ∧
     index _ _ _ _ vm' = index _ _ _ _ vmTuple).
Proof.
  eexists _, _, _. split; [vm_compute; reflexivity|].
  eapply (procs_never_removed nat pid0 multiplying 0%nat unit unit unit
            sigmaFull vmTuple (Exec nat unit unit unit 3%nat)).
  vm_compute. reflexivity.
Defined.

End vm_delivery.
